(** * typedcsv: reading and writing CSV rows as typed records

    A shallow embedding of the Go package [typedcsv]
    ([TypedCSVReader], [TypedCSVWriter], [isValidCSVField] and the error
    values) together with models of the standard-library functions the
    package calls ([fmt.Sscanf] and [fmt.Sprintf] with the verb [%v],
    [strings.Split], [strconv.ParseInt]/[ParseUint], [unicode/utf8]).

    Conventions.
    - A Go [string] is a Rocq [string] (a sequence of bytes).
    - A rune and every sized integer is a [Z]; wrap-around is written out.
    - [int] and [uint] are 64 bits wide.
    - The packages [time] and the floating-point conversions of [strconv]
      are collaborators that this development does not define: they are
      the members of the classes [TimeLib] and [FmtLib]. *)

From Stdlib Require Import ZArith Lia Ascii.
From stdpp Require Import base option list gmap strings.

Set Warnings "-register-all".

(** ** Errors *)

(** Go compares the sentinel errors ([io.EOF], [ErrHeaderNotRead]) by
    identity; here each sentinel is a constructor of its own. *)
Inductive error : Type :=
| EOF                                              (* io.EOF *)
| ErrHeaderNotRead                                 (* typedcsv.ErrHeaderNotRead *)
| FieldParseError (Field : string) (NestedError : error)
| FieldFormatError (Field : string) (NestedError : error)
| errorString (msg : string)                       (* errors.New(msg) *)
| NumError (Func Num : string) (Err : error).      (* *strconv.NumError *)

Definition ErrSyntax : error := errorString "invalid syntax".
Definition ErrRange : error := errorString "value out of range".

(** [Unwrap] of the two field errors returns the nested error. *)
Definition Unwrap (e : error) : option error :=
  match e with
  | FieldParseError _ n | FieldFormatError _ n => Some n
  | _ => None
  end.

(** A value or an error, for the Go functions that return [(T, error)]
    and whose value is not used when the error is set. *)
Inductive result (A : Type) : Type :=
| Ok (a : A)
| Err (e : error).
Arguments Ok {A} a.
Arguments Err {A} e.

(** ** Bytes and strings *)

Definition byte_of (a : ascii) : Z := Z.of_N (N_of_ascii a).
Definition ascii_of (z : Z) : ascii := ascii_of_N (Z.to_N z).

Fixpoint bytes_of (s : string) : list Z :=
  match s with
  | EmptyString => []
  | String a s' => byte_of a :: bytes_of s'
  end.

Fixpoint string_of (l : list Z) : string :=
  match l with
  | [] => EmptyString
  | b :: l' => String (ascii_of b) (string_of l')
  end.

Definition strlen (s : string) : nat := String.length s.

(** ** Package unicode/utf8 *)
Module utf8.
Local Open Scope Z_scope.

Definition RuneError : Z := 0xFFFD.
Definition MaxRune : Z := 0x10FFFF.

(** Continuation byte in the range [lo..hi]. *)
Definition cont (lo hi b : Z) : bool := (lo <=? b) && (b <=? hi).

(** [DecodeRune p] is the first rune of [p] and its width in bytes;
    [(RuneError, 1)] for an invalid or incomplete encoding and
    [(RuneError, 0)] for the empty input. The ranges are those of the
    tables [first] and [acceptRanges]. *)
Definition DecodeRune (p : list Z) : Z * nat :=
  match p with
  | [] => (RuneError, 0%nat)
  | p0 :: t =>
    if p0 <? 0x80 then (p0, 1%nat)
    else if (p0 <? 0xC2) || (0xF4 <? p0) then (RuneError, 1%nat)
    else if p0 <? 0xE0 then
      match t with
      | b1 :: _ =>
        if cont 0x80 0xBF b1
        then (Z.lor (Z.shiftl (Z.land p0 0x1F) 6) (Z.land b1 0x3F), 2%nat)
        else (RuneError, 1%nat)
      | _ => (RuneError, 1%nat)
      end
    else if p0 <? 0xF0 then
      match t with
      | b1 :: b2 :: _ =>
        let lo := if p0 =? 0xE0 then 0xA0 else 0x80 in
        let hi := if p0 =? 0xED then 0x9F else 0xBF in
        if cont lo hi b1 && cont 0x80 0xBF b2
        then (Z.lor (Z.lor (Z.shiftl (Z.land p0 0x0F) 12)
                           (Z.shiftl (Z.land b1 0x3F) 6))
                    (Z.land b2 0x3F), 3%nat)
        else (RuneError, 1%nat)
      | _ => (RuneError, 1%nat)
      end
    else
      match t with
      | b1 :: b2 :: b3 :: _ =>
        let lo := if p0 =? 0xF0 then 0x90 else 0x80 in
        let hi := if p0 =? 0xF4 then 0x8F else 0xBF in
        if cont lo hi b1 && cont 0x80 0xBF b2 && cont 0x80 0xBF b3
        then (Z.lor (Z.lor (Z.lor (Z.shiftl (Z.land p0 0x07) 18)
                                  (Z.shiftl (Z.land b1 0x3F) 12))
                           (Z.shiftl (Z.land b2 0x3F) 6))
                    (Z.land b3 0x3F), 4%nat)
        else (RuneError, 1%nat)
      | _ => (RuneError, 1%nat)
      end
  end.

(** [AppendRune nil r]: the UTF-8 encoding of [r]; surrogates and values
    out of range are encoded as [RuneError]. *)
Definition EncodeRune (r : Z) : list Z :=
  let three (r : Z) :=
    [Z.lor 0xE0 (Z.shiftr r 12);
     Z.lor 0x80 (Z.land (Z.shiftr r 6) 0x3F);
     Z.lor 0x80 (Z.land r 0x3F)] in
  if (0 <=? r) && (r <=? 0x7F) then [r]
  else if (0 <=? r) && (r <=? 0x7FF) then
    [Z.lor 0xC0 (Z.shiftr r 6); Z.lor 0x80 (Z.land r 0x3F)]
  else if (r <? 0) || (MaxRune <? r) || ((0xD800 <=? r) && (r <=? 0xDFFF))
  then three RuneError
  else if r <=? 0xFFFF then three r
  else
    [Z.lor 0xF0 (Z.shiftr r 18);
     Z.lor 0x80 (Z.land (Z.shiftr r 12) 0x3F);
     Z.lor 0x80 (Z.land (Z.shiftr r 6) 0x3F);
     Z.lor 0x80 (Z.land r 0x3F)].

(** The input cut into its runes, each with the bytes it was decoded
    from. One rune takes at least one byte, hence the fuel. *)
Fixpoint chunks_go (fuel : nat) (p : list Z) : list (Z * list Z) :=
  match fuel with
  | O => []
  | S fuel' =>
    match p with
    | [] => []
    | _ =>
      let '(r, size) := DecodeRune p in
      (r, take size p) :: chunks_go fuel' (drop size p)
    end
  end.

Definition chunks (s : string) : list (Z * list Z) :=
  let p := bytes_of s in chunks_go (length p) p.

(** What a rune reader over [s] yields, rune by rune. *)
Definition runes (s : string) : list Z := (chunks s).*1.

(** [ValidString(s)]: [s] consists entirely of valid UTF-8, that is, no
    step of decoding it yields [(RuneError, 1)], the result for an
    invalid encoding. *)
Fixpoint ValidString_go (fuel : nat) (p : list Z) : bool :=
  match fuel with
  | O => true
  | S fuel' =>
    match p with
    | [] => true
    | _ =>
      let '(r, size) := DecodeRune p in
      if (r =? RuneError) && (size =? 1)%nat then false
      else ValidString_go fuel' (drop size p)
    end
  end.

Definition ValidString (s : string) : bool :=
  let p := bytes_of s in ValidString_go (length p) p.

End utf8.

(** ** Package strconv (integers) *)
Module strconv.
Local Open Scope Z_scope.

Definition syntaxError (fn str : string) : error := NumError fn str ErrSyntax.
Definition rangeError (fn str : string) : error := NumError fn str ErrRange.
Definition baseError (fn str : string) : error :=
  NumError fn str (errorString "invalid base").
Definition bitSizeError (fn str : string) : error :=
  NumError fn str (errorString "invalid bit size").

(** [lower(c)]: [c | ('x' - 'X')]. *)
Definition lower (c : Z) : Z := Z.lor c 0x20.

Definition maxUint64 : Z := 2 ^ 64 - 1.
Definition uint64 (z : Z) : Z := z mod 2 ^ 64.

(** The digit loop of [underscoreOK]; [saw] is the last character class
    seen: ['^'], ['0'], ['_'] or ['!']. *)
Fixpoint underscoreOK_loop (hex : bool) (saw : Z) (s : list Z) : bool :=
  match s with
  | [] => negb (saw =? 0x5F)
  | c :: s' =>
    if ((0x30 <=? c) && (c <=? 0x39))
       || (hex && (0x61 <=? lower c) && (lower c <=? 0x66))
    then underscoreOK_loop hex 0x30 s'
    else if c =? 0x5F then
      if negb (saw =? 0x30) then false else underscoreOK_loop hex 0x5F s'
    else if saw =? 0x5F then false
    else underscoreOK_loop hex 0x21 s'
  end.

Definition underscoreOK (s : list Z) : bool :=
  let s := match s with
           | c :: s' => if (c =? 0x2D) || (c =? 0x2B) then s' else s
           | [] => s
           end in
  match s with
  | 0x30 :: c :: s' =>
    if (lower c =? 0x62) || (lower c =? 0x6F) || (lower c =? 0x78)
    then underscoreOK_loop (lower c =? 0x78) 0x30 s'
    else underscoreOK_loop false 0x5E s
  | _ => underscoreOK_loop false 0x5E s
  end.

(** The accumulation loop of [ParseUint]: [Some (Ok n)] at the end of
    the digits, [Some (Err _)] on the first bad digit or overflow. The
    flag returned with the value says whether an underscore was seen. *)
Fixpoint ParseUint_loop (s0 : string) (base0 : bool) (base cutoff maxVal : Z)
    (underscores : bool) (n : Z) (s : list Z) : result (Z * bool) :=
  match s with
  | [] => Ok (n, underscores)
  | c :: s' =>
    if (c =? 0x5F) && base0
    then ParseUint_loop s0 base0 base cutoff maxVal true n s'
    else
      let d := if (0x30 <=? c) && (c <=? 0x39) then Some (c - 0x30)
               else if (0x61 <=? lower c) && (lower c <=? 0x7A)
                    then Some (lower c - 0x61 + 10)
                    else None in
      match d with
      | None => Err (syntaxError "ParseUint" s0)
      | Some d =>
        if base <=? d then Err (syntaxError "ParseUint" s0)
        else if cutoff <=? n then Err (rangeError "ParseUint" s0)
        else
          let n := uint64 (n * base) in
          let n1 := uint64 (n + d) in
          if (n1 <? n) || (maxVal <? n1) then Err (rangeError "ParseUint" s0)
          else ParseUint_loop s0 base0 base cutoff maxVal underscores n1 s'
      end
  end.

Definition ParseUint (str : string) (base bitSize : Z) : result Z :=
  let s := bytes_of str in
  match s with
  | [] => Err (syntaxError "ParseUint" str)
  | c0 :: _ =>
    let base0 := base =? 0 in
    let prefixed : option (Z * list Z) :=
      if (2 <=? base) && (base <=? 36) then Some (base, s)
      else if base0 then
        if c0 =? 0x30 then
          match s with
          | _ :: c1 :: _ :: _ =>
            if lower c1 =? 0x62 then Some (2, drop 2 s)
            else if lower c1 =? 0x6F then Some (8, drop 2 s)
            else if lower c1 =? 0x78 then Some (16, drop 2 s)
            else Some (8, drop 1 s)
          | _ => Some (8, drop 1 s)
          end
        else Some (10, s)
      else None in
    match prefixed with
    | None => Err (baseError "ParseUint" str)
    | Some (base, s) =>
      let bitSize := if bitSize =? 0 then 64 else bitSize in
      if (bitSize <? 0) || (64 <? bitSize) then Err (bitSizeError "ParseUint" str)
      else
        let cutoff := maxUint64 / base + 1 in
        let maxVal := 2 ^ bitSize - 1 in
        match ParseUint_loop str base0 base cutoff maxVal false 0 s with
        | Err e => Err e
        | Ok (n, underscores) =>
          if underscores && negb (underscoreOK (bytes_of str))
          then Err (syntaxError "ParseUint" str)
          else Ok n
        end
    end
  end.

(** [ParseInt]: the sign is picked off, the magnitude is parsed by
    [ParseUint] and checked against the range of [bitSize] bits. *)
Definition ParseInt (str : string) (base bitSize : Z) : result Z :=
  match str with
  | EmptyString => Err (syntaxError "ParseInt" str)
  | String a rest =>
    let c := byte_of a in
    let '(neg, s) := if c =? 0x2B then (false, rest)
                     else if c =? 0x2D then (true, rest)
                     else (false, str) in
    let un : result Z :=
      match ParseUint s base bitSize with
      | Ok un => Ok un
      | Err (NumError _ _ (errorString "value out of range")) =>
        (* a range error of [ParseUint] comes with the value [maxVal] *)
        Ok (2 ^ (if bitSize =? 0 then 64 else bitSize) - 1)
      | Err (NumError _ _ e) => Err (NumError "ParseInt" str e)
      | Err e => Err e
      end in
    match un with
    | Err e => Err e
    | Ok un =>
      let bitSize := if bitSize =? 0 then 64 else bitSize in
      let cutoff := 2 ^ (bitSize - 1) in
      if negb neg && (cutoff <=? un) then Err (rangeError "ParseInt" str)
      else if neg && (cutoff <? un) then Err (rangeError "ParseInt" str)
      else Ok (if neg then - un else un)
    end
  end.

(** The decimal digits of [u], most significant first, in front of
    [acc]. A 64-bit value has at most 20 digits. *)
Fixpoint formatBits (fuel : nat) (u : Z) (acc : list Z) : list Z :=
  match fuel with
  | O => acc
  | S fuel' =>
    if u <? 10 then (0x30 + u) :: acc
    else formatBits fuel' (u / 10) ((0x30 + u mod 10) :: acc)
  end.

(** [FormatUint(u, 10)] and [FormatInt(i, 10)]. *)
Definition FormatUint (u : Z) : string := string_of (formatBits 20 u []).
Definition FormatInt (i : Z) : string :=
  if i <? 0 then String "-" (FormatUint (- i)) else FormatUint i.

End strconv.

(** ** Package time (collaborator) *)
Module time.

(** The part of package [time] that [typedcsv] calls. [Time] is
    [time.Time], [Location] is [*time.Location]. The last three members
    are the methods of [time.Time] that the interface checks find. *)
Class TimeLib : Type := {
  Time : Type;
  Location : Type;
  zeroTime : Time;
  LoadLocation : string → result Location;
  ParseInLocation : string → string → Location → result Time;
  Parse : string → string → result Time;
  In : Time → Location → Time;
  Format : Time → string → string;
  Time_MarshalText : Time → result string;
  Time_UnmarshalText : string → result Time;
  Time_String : Time → string
}.

End time.

(** ** Package reflect: values, types, struct fields and tags *)
Module reflect.
Export time.

(** [reflect.Kind]; the constants are [Kind.Ptr], [Kind.Slice], ... *)
Module Kind.
Inductive t : Type :=
| Bool | Int | Int8 | Int16 | Int32 | Int64
| Uint | Uint8 | Uint16 | Uint32 | Uint64 | Uintptr
| Float32 | Float64 | Map | Ptr | Slice | String | Struct.

Definition eqb (a b : t) : bool :=
  match a, b with
  | Bool, Bool | Int, Int | Int8, Int8 | Int16, Int16 | Int32, Int32
  | Int64, Int64 | Uint, Uint | Uint8, Uint8 | Uint16, Uint16
  | Uint32, Uint32 | Uint64, Uint64 | Uintptr, Uintptr
  | Float32, Float32 | Float64, Float64 | Map, Map | Ptr, Ptr
  | Slice, Slice | String, String | Struct, Struct => true
  | _, _ => false
  end.
End Kind.

Section Values.
Context `{TimeLib}.

(** A Go value of one of the modelled types. A value of a defined type
    is represented as the value of its underlying type. Floating-point
    numbers are kept as their IEEE 754 bits. A nil slice, pointer or map
    is [None]; [reflect.DeepEqual] on these values is Rocq's equality. *)
Inductive Value : Type :=
| VBool (b : bool)
| VInt (i : Z)
| VUint (u : Z)
| VFloat (bits : Z)
| VString (s : string)
| VTime (t : Time)
| VSlice (elems : option (list Value))
| VPtr (target : option Value)
| VMap (entries : option (list (Value * Value))).

(** The methods of a defined type [T] that the package looks for:
    [MarshalText] in the method set of [T], [UnmarshalText] in the method
    set of [*T] (it receives the current value and returns the value it
    leaves behind), and the [String] method that [%v] uses. *)
Record Methods : Type := {
  MarshalText : option (Value → result string);
  UnmarshalText : option (Value → string → Value * option error);
  Stringer : option (Value → string)
}.

Definition noMethods : Methods :=
  {| MarshalText := None; UnmarshalText := None; Stringer := None |}.

Inductive IntKind : Type := KInt | KInt8 | KInt16 | KInt32 | KInt64.
Inductive UintKind : Type :=
| KUint | KUint8 | KUint16 | KUint32 | KUint64 | KUintptr.
Inductive FloatKind : Type := KFloat32 | KFloat64.

(** The modelled types. [TimeStruct] is the struct type underlying
    [time.Time]; [Defined name u ms] is [type name u] with the methods
    [ms]. Pointer, slice and map types have no methods. *)
Inductive Type_ : Type :=
| TBool
| TInt (k : IntKind)
| TUint (k : UintKind)
| TFloat (k : FloatKind)
| TString
| TimeStruct
| SliceOf (elem : Type_)
| PtrTo (elem : Type_)
| MapOf (key elem : Type_)
| Defined (name : string) (underlying : Type_) (ms : Methods).

Fixpoint Underlying (t : Type_) : Type_ :=
  match t with
  | Defined _ u _ => Underlying u
  | _ => t
  end.

Definition IntKind_Kind (k : IntKind) : Kind.t :=
  match k with
  | KInt => Kind.Int | KInt8 => Kind.Int8 | KInt16 => Kind.Int16
  | KInt32 => Kind.Int32 | KInt64 => Kind.Int64
  end.

Definition UintKind_Kind (k : UintKind) : Kind.t :=
  match k with
  | KUint => Kind.Uint | KUint8 => Kind.Uint8 | KUint16 => Kind.Uint16
  | KUint32 => Kind.Uint32 | KUint64 => Kind.Uint64
  | KUintptr => Kind.Uintptr
  end.

Fixpoint Type_Kind (t : Type_) : Kind.t :=
  match t with
  | TBool => Kind.Bool
  | TInt k => IntKind_Kind k
  | TUint k => UintKind_Kind k
  | TFloat KFloat32 => Kind.Float32
  | TFloat KFloat64 => Kind.Float64
  | TString => Kind.String
  | TimeStruct => Kind.Struct
  | SliceOf _ => Kind.Slice
  | PtrTo _ => Kind.Ptr
  | MapOf _ _ => Kind.Map
  | Defined _ u _ => Type_Kind u
  end.

(** [Type.Bits()] of the integer kinds. *)
Definition IntKind_Bits (k : IntKind) : Z :=
  match k with
  | KInt8 => 8 | KInt16 => 16 | KInt32 => 32 | KInt | KInt64 => 64
  end.

Definition UintKind_Bits (k : UintKind) : Z :=
  match k with
  | KUint8 => 8 | KUint16 => 16 | KUint32 => 32
  | KUint | KUint64 | KUintptr => 64
  end.

Definition FloatKind_Bits (k : FloatKind) : Z :=
  match k with KFloat32 => 32 | KFloat64 => 64 end.

(** [Type.String()]. *)
Fixpoint Type_String (t : Type_) : string :=
  match t with
  | TBool => "bool"
  | TInt KInt => "int" | TInt KInt8 => "int8" | TInt KInt16 => "int16"
  | TInt KInt32 => "int32" | TInt KInt64 => "int64"
  | TUint KUint => "uint" | TUint KUint8 => "uint8"
  | TUint KUint16 => "uint16" | TUint KUint32 => "uint32"
  | TUint KUint64 => "uint64" | TUint KUintptr => "uintptr"
  | TFloat KFloat32 => "float32" | TFloat KFloat64 => "float64"
  | TString => "string"
  | TimeStruct => "struct { wall uint64; ext int64; loc *time.Location }"
  | SliceOf e => "[]" +:+ Type_String e
  | PtrTo e => "*" +:+ Type_String e
  | MapOf k e => "map[" +:+ Type_String k +:+ "]" +:+ Type_String e
  | Defined name _ _ => name
  end.

Definition Type_Methods (t : Type_) : Methods :=
  match t with
  | Defined _ _ ms => ms
  | _ => noMethods
  end.

(** [reflect.Zero(t)]. *)
Fixpoint Zero (t : Type_) : Value :=
  match t with
  | TBool => VBool false
  | TInt _ => VInt 0
  | TUint _ => VUint 0
  | TFloat _ => VFloat 0
  | TString => VString ""
  | TimeStruct => VTime zeroTime
  | SliceOf _ => VSlice None
  | PtrTo _ => VPtr None
  | MapOf _ _ => VMap None
  | Defined _ u _ => Zero u
  end.

(** [t.Elem()] of a pointer, slice or map type (it panics on the
    other kinds; the callers check the kind first). *)
Definition Type_Elem (t : Type_) : Type_ :=
  match Underlying t with
  | SliceOf e | PtrTo e | MapOf _ e => e
  | _ => t
  end.

(** [time.Time] itself. *)
Definition timeType : Type_ :=
  Defined "time.Time" TimeStruct
    {| MarshalText := Some (λ v, match v with
                                 | VTime t => Time_MarshalText t
                                 | _ => Err (errorString "not a time")
                                 end);
       UnmarshalText := Some (λ v text, match Time_UnmarshalText text with
                                        | Ok t => (VTime t, None)
                                        | Err e => (v, Some e)
                                        end);
       Stringer := Some (λ v, match v with
                             | VTime t => Time_String t
                             | _ => ""
                             end) |}.

(** [t.ConvertibleTo(timeType)]: among the modelled types, those whose
    underlying type is the struct of [time.Time]. *)
Definition ConvertibleTo_timeType (t : Type_) : bool :=
  match Underlying t with
  | TimeStruct => true
  | _ => false
  end.

(** ** Struct tags and fields *)

(** A struct tag in the conventional format, as its key/value pairs in
    the order written. *)
Definition StructTag : Type := list (string * string).

(** [Tag.Lookup(key)]: the value of the first pair with that key. *)
Fixpoint Tag_Lookup (tag : StructTag) (key : string) : option string :=
  match tag with
  | [] => None
  | (k, v) :: tag' => if decide (k = key) then Some v else Tag_Lookup tag' key
  end.

(** [Tag.Get(key)]: the empty string when the key is missing. *)
Definition Tag_Get (tag : StructTag) (key : string) : string :=
  default "" (Tag_Lookup tag key).

Record StructField : Type := {
  Name : string;
  PkgPath : string;      (* empty for an exported field *)
  Typ : Type_;             (* the field [Type] *)
  Tag : StructTag
}.

Definition IsExported (f : StructField) : bool :=
  bool_decide (PkgPath f = "").

End Values.
End reflect.

(** ** Package fmt: scanning and printing with the verb [%v] *)
Module fmt.
Import reflect.
Local Open Scope Z_scope.

Section Fmt.
Context `{TimeLib}.

(** What this development takes from outside for package [fmt]:
    [convertFloat tok bits] is [ss.convertFloat] (it ends in
    [strconv.ParseFloat]) and [Sprintf_other] is [fmt.Sprintf] wherever
    [Sprintf] below does not define it. *)
Class FmtLib : Type := {
  convertFloat : string → Z → result Z;
  Sprintf_other : string → Type_ → Value → string
}.
Context `{FmtLib}.

(** The scan state [ss]: the runes not read yet and the token buffer. *)
Record ss : Type := { rs : list Z; buf : list Z }.

(** A scanning step either goes on with a new state or panics with a
    [scanError] or [io.EOF], which [errorHandler] turns into the error
    returned by [Sscanf]. *)
Inductive scan (A : Type) : Type :=
| Scanned (a : A) (s : ss)
| Panicked (e : error).
Arguments Scanned {A} a s.
Arguments Panicked {A} e.

Definition isSpace (r : Z) : bool :=
  (r <? 2 ^ 16) &&
  (((0x0009 <=? r) && (r <=? 0x000d)) || (r =? 0x0020) || (r =? 0x0085)
   || (r =? 0x00a0) || (r =? 0x1680) || ((0x2000 <=? r) && (r <=? 0x200a))
   || ((0x2028 <=? r) && (r <=? 0x2029)) || (r =? 0x202f) || (r =? 0x205f)
   || (r =? 0x3000)).

Definition notSpace (r : Z) : bool := negb (isSpace r).

(** [indexRune(ok, r) >= 0] for the ASCII sets the scanner uses. *)
Definition indexRune (ok : string) (r : Z) : bool :=
  existsb (Z.eqb r) (bytes_of ok).

Definition binaryDigits : string := "01".
Definition octalDigits : string := "01234567".
Definition decimalDigits : string := "0123456789".
Definition hexadecimalDigits : string := "0123456789aAbBcCdDeEfF".
Definition sign : string := "+-".
Definition period : string := ".".
Definition exponent : string := "eEpP".

Definition peek (ok : string) (s : ss) : bool :=
  match rs s with
  | [] => false
  | r :: _ => indexRune ok r
  end.

(** [s.accept(ok)], that is [s.consume(ok, true)]. *)
Definition accept (ok : string) (s : ss) : bool * ss :=
  match rs s with
  | [] => (false, s)
  | r :: rs' =>
    if indexRune ok r
    then (true, {| rs := rs'; buf := buf s ++ utf8.EncodeRune r |})
    else (false, s)
  end.

(** [s.SkipSpace()] with [nlIsSpace] unset, as [Sscanf] sets it up. *)
Fixpoint SkipSpace_loop (l : list Z) : result (list Z) :=
  match l with
  | [] => Ok []
  | r :: l' =>
    if (r =? 0x0D) && match l' with 0x0A :: _ => true | _ => false end
    then SkipSpace_loop l'
    else if r =? 0x0A then Err (errorString "unexpected newline")
    else if negb (isSpace r) then Ok l
    else SkipSpace_loop l'
  end.

Definition SkipSpace (s : ss) : scan unit :=
  match SkipSpace_loop (rs s) with
  | Ok l => Scanned () {| rs := l; buf := buf s |}
  | Err e => Panicked e
  end.

Definition notEOF (s : ss) : scan unit :=
  match rs s with
  | [] => Panicked EOF
  | _ => Scanned () s
  end.

(** The loop of [s.token]: runes are moved to the buffer while [f]
    holds. *)
Fixpoint token_loop (f : Z → bool) (l : list Z) (b : list Z)
    : list Z * list Z :=
  match l with
  | [] => ([], b)
  | r :: l' => if f r then token_loop f l' (b ++ utf8.EncodeRune r) else (l, b)
  end.

Definition token (skipSpace : bool) (f : Z → bool) (s : ss) : scan string :=
  match (if skipSpace then SkipSpace s else Scanned () s) with
  | Panicked e => Panicked e
  | Scanned _ s =>
    let '(l, b) := token_loop f (rs s) (buf s) in
    Scanned (string_of b) {| rs := l; buf := b |}
  end.

(** [s.convertString('v')]. *)
Definition convertString (s : ss) : scan string :=
  match SkipSpace s with
  | Panicked e => Panicked e
  | Scanned _ s =>
    match notEOF s with
    | Panicked e => Panicked e
    | Scanned _ s => token true notSpace s
    end
  end.

Definition boolError : error := errorString "syntax error scanning boolean".

(** [s.scanBool('v')]. *)
Definition scanBool (s : ss) : scan bool :=
  match SkipSpace s with
  | Panicked e => Panicked e
  | Scanned _ s =>
    match notEOF s with
    | Panicked e => Panicked e
    | Scanned _ s =>
      match rs s with
      | [] => Scanned false s
      | r :: l =>
        let s := {| rs := l; buf := buf s |} in
        if r =? 0x30 then Scanned false s
        else if r =? 0x31 then Scanned true s
        else if (r =? 0x74) || (r =? 0x54) then
          let '(a1, s1) := accept "rR" s in
          if a1 then
            let '(a2, s2) := accept "uU" s1 in
            if negb a2 then Panicked boolError
            else let '(a3, s3) := accept "eE" s2 in
                 if negb a3 then Panicked boolError else Scanned true s3
          else Scanned true s1
        else if (r =? 0x66) || (r =? 0x46) then
          let '(a1, s1) := accept "aA" s in
          if a1 then
            let '(a2, s2) := accept "lL" s1 in
            if negb a2 then Panicked boolError
            else let '(a3, s3) := accept "sS" s2 in
                 if negb a3 then Panicked boolError
                 else let '(a4, s4) := accept "eE" s3 in
                      if negb a4 then Panicked boolError else Scanned false s4
          else Scanned false s1
        else Scanned false s
      end
    end
  end.

(** [s.scanBasePrefix()]: the base is left to [strconv] (base 0); the
    result is the digit set and whether a zero was read. *)
Definition scanBasePrefix (s : ss) : string * bool * ss :=
  if negb (peek "0" s) then (decimalDigits +:+ "_", false, s)
  else
    let s := (accept "0" s).2 in
    if peek "bB" s then (binaryDigits +:+ "_", true, (accept "bB" s).2)
    else if peek "oO" s then (octalDigits +:+ "_", true, (accept "oO" s).2)
    else if peek "xX" s then (hexadecimalDigits +:+ "_", true, (accept "xX" s).2)
    else (octalDigits +:+ "_", true, s).

(** [for s.accept(digits) {}]. *)
Fixpoint accept_loop (ok : string) (l : list Z) (b : list Z)
    : list Z * list Z :=
  match l with
  | [] => ([], b)
  | r :: l' =>
    if indexRune ok r then accept_loop ok l' (b ++ utf8.EncodeRune r)
    else (l, b)
  end.

Definition accept_all (ok : string) (s : ss) : ss :=
  let '(l, b) := accept_loop ok (rs s) (buf s) in {| rs := l; buf := b |}.

(** [s.scanNumber(digits, haveDigits)]. *)
Definition scanNumber (digits : string) (haveDigits : bool) (s : ss)
    : scan string :=
  let first : scan unit :=
    if haveDigits then Scanned () s
    else match notEOF s with
         | Panicked e => Panicked e
         | Scanned _ s =>
           let '(a, s) := accept digits s in
           if a then Scanned () s
           else Panicked (errorString "expected integer")
         end in
  match first with
  | Panicked e => Panicked e
  | Scanned _ s => let s := accept_all digits s in Scanned (string_of (buf s)) s
  end.

(** The 64-bit two's complement value of [z]. *)
Definition int64 (z : Z) : Z := (z + 2 ^ 63) mod 2 ^ 64 - 2 ^ 63.

(** [s.scanInt('v', bitSize)]. *)
Definition scanInt (bitSize : Z) (s : ss) : scan Z :=
  match SkipSpace s with
  | Panicked e => Panicked e
  | Scanned _ s =>
    match notEOF s with
    | Panicked e => Panicked e
    | Scanned _ s =>
      let s := (accept sign s).2 in
      let '(digits, haveDigits, s) := scanBasePrefix s in
      match scanNumber digits haveDigits s with
      | Panicked e => Panicked e
      | Scanned tok s =>
        match strconv.ParseInt tok 0 64 with
        | Err e => Panicked e
        | Ok i =>
          let n := bitSize in
          let x := Z.shiftr (int64 (Z.shiftl i (64 - n))) (64 - n) in
          if negb (x =? i)
          then Panicked (errorString ("integer overflow on token " +:+ tok))
          else Scanned i s
        end
      end
    end
  end.

(** [s.scanUint('v', bitSize)]. *)
Definition scanUint (bitSize : Z) (s : ss) : scan Z :=
  match SkipSpace s with
  | Panicked e => Panicked e
  | Scanned _ s =>
    match notEOF s with
    | Panicked e => Panicked e
    | Scanned _ s =>
      let '(digits, haveDigits, s) := scanBasePrefix s in
      match scanNumber digits haveDigits s with
      | Panicked e => Panicked e
      | Scanned tok s =>
        match strconv.ParseUint tok 0 64 with
        | Err e => Panicked e
        | Ok i =>
          let n := bitSize in
          let x := Z.shiftr (strconv.uint64 (Z.shiftl i (64 - n))) (64 - n) in
          if negb (x =? i)
          then Panicked
                 (errorString ("unsigned integer overflow on token " +:+ tok))
          else Scanned i s
        end
      end
    end
  end.

(** [s.accept(a) && s.accept(b) && ...], stopping at the first refusal;
    what was accepted before stays consumed. *)
Fixpoint accept_seq (oks : list string) (s : ss) : bool * ss :=
  match oks with
  | [] => (true, s)
  | ok :: oks' =>
    let '(a, s') := accept ok s in
    if a then accept_seq oks' s' else (false, s')
  end.

(** [s.floatToken()]. *)
Definition floatToken (s : ss) : string * ss :=
  let s := {| rs := rs s; buf := [] |} in
  let '(nan, s) := accept_seq ["nN"; "aA"; "nN"] s in
  if nan then (string_of (buf s), s)
  else
    let s := (accept sign s).2 in
    let '(inf, s) := accept_seq ["iI"; "nN"; "fF"] s in
    if inf then (string_of (buf s), s)
    else
      let '(hex, s) := accept_seq ["0"; "xX"] s in
      let digits := if hex then hexadecimalDigits +:+ "_"
                    else decimalDigits +:+ "_" in
      let exp := if hex then "pP" else exponent in
      let s := accept_all digits s in
      let '(dot, s) := accept period s in
      let s := if dot then accept_all digits s else s in
      let '(e, s) := accept exp s in
      let s := if e then accept_all (decimalDigits +:+ "_") (accept sign s).2
               else s in
      (string_of (buf s), s).

Definition cantScan (t : Type_) : error :=
  errorString ("can't scan type: " +:+ Type_String (PtrTo t)).

(** [s.scanOne('v', arg)] for [arg] a pointer to a variable of type [t]:
    the value stored through the pointer. The cases go by the kind of
    [t], as the type switch and the reflection fallback of [scanOne] do. *)
Definition scanOne (t : Type_) (s : ss) : scan Value :=
  let s := {| rs := rs s; buf := [] |} in
  match Underlying t with
  | TBool =>
    match scanBool s with
    | Panicked e => Panicked e
    | Scanned b s => Scanned (VBool b) s
    end
  | TInt k =>
    match scanInt (IntKind_Bits k) s with
    | Panicked e => Panicked e
    | Scanned i s => Scanned (VInt i) s
    end
  | TUint k =>
    match scanUint (UintKind_Bits k) s with
    | Panicked e => Panicked e
    | Scanned u s => Scanned (VUint u) s
    end
  | TFloat k =>
    match SkipSpace s with
    | Panicked e => Panicked e
    | Scanned _ s =>
      match notEOF s with
      | Panicked e => Panicked e
      | Scanned _ s =>
        let '(tok, s) := floatToken s in
        match convertFloat tok (FloatKind_Bits k) with
        | Err e => Panicked e
        | Ok f => Scanned (VFloat f) s
        end
      end
    end
  | TString =>
    match convertString s with
    | Panicked e => Panicked e
    | Scanned str s => Scanned (VString str) s
    end
  | SliceOf e =>
    (* only (renamed) []byte *)
    if negb (Kind.eqb (Type_Kind e) Kind.Uint8) then Panicked (cantScan t)
    else
      match convertString s with
      | Panicked e => Panicked e
      | Scanned str s => Scanned (VSlice (Some (VUint <$> bytes_of str))) s
      end
  | _ => Panicked (cantScan t)
  end.

(** [fmt.Sscanf(str, "%v", p)] with [p] a pointer to a variable of type
    [t]: [Ok v] when [v] was stored through [p] and the error is nil,
    [Err e] when the error is [e] (nothing is stored then). The scanner
    stops reading an operand after [1 << 30] runes; texts are taken to be
    shorter. *)
Definition Sscanf_v (str : string) (t : Type_) : result Value :=
  let s := {| rs := utf8.runes str; buf := [] |} in
  match SkipSpace s with
  | Panicked e => Err e
  | Scanned _ s =>
    match scanOne t s with
    | Panicked e => Err e
    | Scanned v _ => Ok v
    end
  end.

(** [fmt.Sprintf(format, v)] for one operand [v] of type [t]. The verb
    [%v] prints a type with a [String] method through it, and booleans,
    integers and strings in their default formats. *)
Definition Sprintf (format : string) (t : Type_) (v : Value) : string :=
  if decide (format = "%v") then
    match Stringer (Type_Methods t) with
    | Some f => f v
    | None =>
      match Underlying t, v with
      | TBool, VBool b => if b then "true" else "false"
      | TInt _, VInt i => strconv.FormatInt i
      | TUint _, VUint u => strconv.FormatUint u
      | TString, VString str => str
      | _, _ => Sprintf_other format t v
      end
    end
  else Sprintf_other format t v.

End Fmt.

Arguments Scanned {A} a s.
Arguments Panicked {A} e.

End fmt.

(** ** Package strings *)
Module Strings.

Fixpoint take (n : nat) (s : string) : string :=
  match n, s with
  | S n', String a s' => String a (take n' s')
  | _, _ => EmptyString
  end.

Fixpoint drop (n : nat) (s : string) : string :=
  match n, s with
  | S n', String _ s' => drop n' s'
  | _, _ => s
  end.

(** [strings.HasPrefix(s, prefix)]. *)
Fixpoint HasPrefix (s prefix : string) {struct prefix} : bool :=
  match prefix, s with
  | EmptyString, _ => true
  | String b prefix', String a s' =>
    if decide (a = b) then HasPrefix s' prefix' else false
  | String _ _, EmptyString => false
  end.

(** [strings.Index(s, substr)]: the index of the first instance of
    [substr] in [s], [None] for -1. *)
Fixpoint Index (s substr : string) : option nat :=
  if HasPrefix s substr then Some 0
  else match s with
       | EmptyString => None
       | String _ s' => S <$> Index s' substr
       end.

(** [explode(s, -1)]: one string per UTF-8 sequence, invalid bytes one
    by one. *)
Definition explode (s : string) : list string :=
  string_of <$> (utf8.chunks s).*2.

(** The loop of [genSplit] for a non-empty separator. Each round
    removes at least one byte of [s]. *)
Fixpoint genSplit_loop (fuel : nat) (s sep : string) : list string :=
  match fuel with
  | O => [s]
  | S fuel' =>
    match Index s sep with
    | None => [s]
    | Some m => take m s :: genSplit_loop fuel' (drop (m + strlen sep) s) sep
    end
  end.

(** [strings.Split(s, sep)]. *)
Definition Split (s sep : string) : list string :=
  if decide (sep = "") then explode s
  else genSplit_loop (strlen s) s sep.

End Strings.

(** ** Package encoding/csv (collaborator) *)
Module csv.

(** The row tokenizer, as what its successive calls of [Read] return:
    a row or an error. After the last one [Read] returns [io.EOF]. *)
Record Reader : Type := { pending : list (list string + error) }.

Definition Read (r : Reader) : Reader * result (list string) :=
  match pending r with
  | [] => (r, Err EOF)
  | inl record :: rest => ({| pending := rest |}, Ok record)
  | inr e :: rest => ({| pending := rest |}, Err e)
  end.

(** The row sink: the rows written so far and the error it is stuck
    in, if any. [Write] is described for a sink that takes a row whole
    or, once it is stuck, not at all; a sink that starts to fail in the
    middle of a row, leaving a part of it behind, is not described.
    What is proved of the writer below is about calls of [Write] that
    return no error, the sink taking the row, or does not look into
    [Write] at all. *)
Record Writer : Type := { rows : list (list string); werr : option error }.

Definition Write (w : Writer) (record : list string) : Writer * option error :=
  match werr w with
  | Some e => (w, Some e)
  | None => ({| rows := rows w ++ [record]; werr := None |}, None)
  end.

Definition Flush (w : Writer) : Writer := w.
Definition Error (w : Writer) : option error := werr w.

End csv.

(** ** Package typedcsv *)
Module typedcsv.
Import reflect fmt.

(** A function returns or panics. *)
Inductive outcome (A : Type) : Type :=
| Return (a : A)
| Panic (msg : string).
Arguments Return {A} a.
Arguments Panic {A} msg.

Section TypedCSV.
Context `{TimeLib} `{!FmtLib}.

Definition csvTag : string := "csv".
Definition nullTag : string := "null".
Definition formatTag : string := "format".
Definition timeFormatTag : string := "time_format".
Definition timeLocationTag : string := "time_location".
Definition separatorTag : string := "separator".

Definition isValidCSVField (field : StructField) : bool :=
  IsExported field && negb (bool_decide (Tag_Get (Tag field) csvTag = "")).

(** The type parameter [T] is a struct type, given by its fields in the
    order declared; a value of [T] is the list of its field values. *)
Abbreviation StructType := (list StructField).
Abbreviation Struct := (list Value).

(** [new(T)]. *)
Definition new (T : StructType) : Struct := (λ field, Zero (Typ field)) <$> T.

(** *** TypedCSVReader *)

Record TypedCSVReader : Type := {
  Reader : csv.Reader;
  Header : option (gmap string nat)     (* [None] is the nil map *)
}.

Definition NewReader (reader : csv.Reader) : TypedCSVReader :=
  {| Reader := reader; Header := None |}.

(** [for i, field := range header { r.Header[field] = i }]. *)
Fixpoint ReadHeader_loop (m : gmap string nat) (i : nat) (header : list string)
    : gmap string nat :=
  match header with
  | [] => m
  | field :: rest => ReadHeader_loop (<[field := i]> m) (S i) rest
  end.

Definition ReadHeader (r : TypedCSVReader) : TypedCSVReader * option error :=
  match csv.Read (Reader r) with
  | (reader, Err err) => ({| Reader := reader; Header := Header r |}, Some err)
  | (reader, Ok header) =>
    ({| Reader := reader; Header := Some (ReadHeader_loop ∅ 0 header) |}, None)
  end.

(** [fmt.Sprintf("%s[%d]", csvTagValue, itemIndex)]. *)
Definition indexedName (csvTagValue : string) (itemIndex : nat) : string :=
  csvTagValue +:+ "[" +:+ strconv.FormatInt (Z.of_nat itemIndex) +:+ "]".

(** The loop over the pieces of a slice field: [Ok] with the slice
    built, or the error returned from inside the loop. *)
Fixpoint ReadRecord_slice (csvTagValue : string) (elemType : Type_)
    (items : list string) (itemIndex : nat) (slice : list Value)
    : result (list Value) :=
  match items with
  | [] => Ok slice
  | item :: rest =>
    match Sscanf_v item elemType with
    | Err err => Err (FieldParseError (indexedName csvTagValue itemIndex) err)
    | Ok itemValue =>
      ReadRecord_slice csvTagValue elemType rest (S itemIndex)
                       (slice ++ [itemValue])
    end
  end.

(** The body of the field loop of [ReadRecord] after the pointer step,
    for the variable [fieldValue] of type [fieldType]: the value the
    variable holds afterwards, and the error when the body returns
    instead of going on to the next field. [fieldKind] is the kind of the
    field as declared. *)
Definition ReadRecord_value (field : StructField) (csvTagValue value : string)
    (fieldKind : Kind.t) (fieldType : Type_) (fieldValue : Value)
    : Value * option error :=
  let timeFormat := Tag_Get (Tag field) timeFormatTag in
  (* Time *)
  if ConvertibleTo_timeType fieldType && negb (bool_decide (timeFormat = ""))
  then
    let timeLocation := Tag_Get (Tag field) timeLocationTag in
    let parsed :=
      if negb (bool_decide (timeLocation = "")) then
        match LoadLocation timeLocation with
        | Err err => Err err
        | Ok location => ParseInLocation timeFormat value location
        end
      else Parse timeFormat value in
    match parsed with
    | Err err => (fieldValue, Some (FieldParseError csvTagValue err))
    | Ok timeValue => (VTime timeValue, None)
    end
  else
  (* TextUnmarshaler *)
  match UnmarshalText (Type_Methods fieldType) with
  | Some unmarshalText =>
    match unmarshalText fieldValue value with
    | (v, Some err) => (v, Some (FieldParseError csvTagValue err))
    | (v, None) => (v, None)
    end
  | None =>
  (* Slice *)
  if Kind.eqb fieldKind Kind.Slice then
    let separator := Tag_Get (Tag field) separatorTag in
    match ReadRecord_slice csvTagValue (Type_Elem fieldType)
                           (Strings.Split value separator) 0 [] with
    | Err err => (fieldValue, Some err)
    | Ok slice => (VSlice (Some slice), None)
    end
  else
  (* Default *)
  match Sscanf_v value fieldType with
  | Err EOF => (Zero fieldType, None)
  | Err err => (fieldValue, Some (FieldParseError csvTagValue err))
  | Ok v => (v, None)
  end
  end.

(** The body of the field loop for a field found in the header, from
    the pointer step on. *)
Definition ReadRecord_field (field : StructField) (value : string)
    (fieldValue : Value) : Value * option error :=
  let csvTagValue := Tag_Get (Tag field) csvTag in
  let fieldKind := Type_Kind (Typ field) in
  (* Pointer *)
  if Kind.eqb fieldKind Kind.Ptr then
    let isNull := match Tag_Lookup (Tag field) nullTag with
                  | Some nullTagValue => bool_decide (value = nullTagValue)
                  | None => false
                  end in
    if isNull then (Zero (Typ field), None)
    else
      let elemType := Type_Elem (Typ field) in
      let '(v, err) := ReadRecord_value field csvTagValue value fieldKind
                                        elemType (Zero elemType) in
      (VPtr (Some v), err)
  else ReadRecord_value field csvTagValue value fieldKind (Typ field) fieldValue.

(** The field loop of [ReadRecord] from field [i] on. *)
Fixpoint ReadRecord_loop (header : gmap string nat) (values : list string)
    (fields : list StructField) (i : nat) (record : Struct)
    : outcome (Struct * option error) :=
  match fields with
  | [] => Return (record, None)
  | field :: rest =>
    if negb (isValidCSVField field)
    then ReadRecord_loop header values rest (S i) record
    else
      let csvTagValue := Tag_Get (Tag field) csvTag in
      match header !! csvTagValue with
      | None => ReadRecord_loop header values rest (S i) record
      | Some index =>
        match values !! index with
        | None => Panic "index out of range"
        | Some value =>
          let fieldValue := default (Zero (Typ field)) (record !! i) in
          match ReadRecord_field field value fieldValue with
          | (v, Some err) => Return (<[i := v]> record, Some err)
          | (v, None) =>
            ReadRecord_loop header values rest (S i) (<[i := v]> record)
          end
        end
      end
  end.

Definition ReadRecord (T : StructType) (r : TypedCSVReader)
    : TypedCSVReader * outcome (option Struct * option error) :=
  match Header r with
  | None => (r, Return (None, Some ErrHeaderNotRead))
  | Some header =>
    match csv.Read (Reader r) with
    | (reader, Err err) =>
      ({| Reader := reader; Header := Header r |}, Return (None, Some err))
    | (reader, Ok values) =>
      ({| Reader := reader; Header := Header r |},
       match ReadRecord_loop header values T 0 (new T) with
       | Return (record, err) => Return (Some record, err)
       | Panic msg => Panic msg
       end)
    end
  end.

(** The loop of [ReadAll]; [None] when the fuel runs out. *)
Fixpoint ReadAll_loop (fuel : nat) (T : StructType) (r : TypedCSVReader)
    (records : list (option Struct))
    : option (TypedCSVReader * outcome (list (option Struct) * option error)) :=
  match fuel with
  | O => None
  | S fuel' =>
    match ReadRecord T r with
    | (r', Panic msg) => Some (r', Panic msg)
    | (r', Return (record, Some EOF)) => Some (r', Return (records, None))
    | (r', Return (record, Some err)) => Some (r', Return (records, Some err))
    | (r', Return (record, None)) => ReadAll_loop fuel' T r' (records ++ [record])
    end
  end.

(** [ReadAll]: one call of [ReadRecord] per pending row and one more
    for the end of input. *)
Definition ReadAll (T : StructType) (r : TypedCSVReader)
    : option (TypedCSVReader * outcome (list (option Struct) * option error)) :=
  ReadAll_loop (S (length (csv.pending (Reader r)))) T r [].

(** *** TypedCSVWriter *)

Record TypedCSVWriter : Type := { Writer : csv.Writer }.

Definition NewWriter (writer : csv.Writer) : TypedCSVWriter :=
  {| Writer := writer |}.

(** The header row: the [csv] tag of every valid field, in order. *)
Fixpoint WriteHeader_loop (fields : list StructField) (header : list string)
    : list string :=
  match fields with
  | [] => header
  | field :: rest =>
    if isValidCSVField field
    then WriteHeader_loop rest (header ++ [Tag_Get (Tag field) csvTag])
    else WriteHeader_loop rest header
  end.

Definition WriteHeader (T : StructType) (w : TypedCSVWriter)
    : TypedCSVWriter * option error :=
  let '(writer, err) := csv.Write (Writer w) (WriteHeader_loop T []) in
  ({| Writer := writer |}, err).

(** The loop that joins the elements of a slice field. *)
Fixpoint WriteRecord_slice (separator format : string) (elemType : Type_)
    (elems : list Value) (i : nat) (builder : string) : string :=
  match elems with
  | [] => builder
  | elem :: rest =>
    let builder := if decide (0 < i)%nat then builder +:+ separator
                   else builder in
    WriteRecord_slice separator format elemType rest (S i)
                      (builder +:+ Sprintf format elemType elem)
  end.

(** The body of the field loop of [WriteRecord] after the pointer step,
    for the value [fieldValue] of type [fieldType]: the cell appended to
    [values], or the error returned. [fieldKind] is the kind of the field
    as declared. *)
Definition WriteRecord_value (field : StructField) (csvTagValue : string)
    (fieldKind : Kind.t) (fieldType : Type_) (fieldValue : Value)
    : result string :=
  (* Time *)
  match (if ConvertibleTo_timeType fieldType
         then Tag_Lookup (Tag field) timeFormatTag else None) with
  | Some timeFormat =>
    let timeValue := match fieldValue with VTime t => t | _ => zeroTime end in
    match Tag_Lookup (Tag field) timeLocationTag with
    | Some timeLocation =>
      match LoadLocation timeLocation with
      | Err err => Err (FieldFormatError csvTagValue err)
      | Ok location => Ok (Format (In timeValue location) timeFormat)
      end
    | None => Ok (Format timeValue timeFormat)
    end
  | None =>
  (* TextMarshaler *)
  match MarshalText (Type_Methods fieldType) with
  | Some marshalText =>
    match marshalText fieldValue with
    | Err err => Err (FieldFormatError csvTagValue err)
    | Ok text => Ok text
    end
  | None =>
  (* Slice *)
  if Kind.eqb fieldKind Kind.Slice then
    let separator := Tag_Get (Tag field) separatorTag in
    let format := default "%v" (Tag_Lookup (Tag field) formatTag) in
    let elems := match fieldValue with
                 | VSlice (Some elems) => elems
                 | _ => []
                 end in
    Ok (WriteRecord_slice separator format (Type_Elem fieldType) elems 0 "")
  else
  (* Format *)
  match Tag_Lookup (Tag field) formatTag with
  | Some format => Ok (Sprintf format fieldType fieldValue)
  | None =>
  (* Default *)
  Ok (Sprintf "%v" fieldType fieldValue)
  end
  end
  end.

(** The body of the field loop for a valid field, from the pointer step
    on. *)
Definition WriteRecord_field (field : StructField) (fieldValue : Value)
    : result string :=
  let csvTagValue := Tag_Get (Tag field) csvTag in
  let fieldKind := Type_Kind (Typ field) in
  (* Pointer *)
  if Kind.eqb fieldKind Kind.Ptr then
    match fieldValue with
    | VPtr (Some v) =>
      WriteRecord_value field csvTagValue fieldKind (Type_Elem (Typ field)) v
    | _ => Ok (Tag_Get (Tag field) nullTag)          (* [IsNil] *)
    end
  else WriteRecord_value field csvTagValue fieldKind (Typ field) fieldValue.

(** The field loop of [WriteRecord] from field [i] on. *)
Fixpoint WriteRecord_loop (fields : list StructField) (i : nat)
    (record : Struct) (values : list string) : result (list string) :=
  match fields with
  | [] => Ok values
  | field :: rest =>
    if negb (isValidCSVField field)
    then WriteRecord_loop rest (S i) record values
    else
      let fieldValue := default (Zero (Typ field)) (record !! i) in
      match WriteRecord_field field fieldValue with
      | Err err => Err err
      | Ok cell => WriteRecord_loop rest (S i) record (values ++ [cell])
      end
  end.

Definition WriteRecord (T : StructType) (w : TypedCSVWriter) (record : Struct)
    : TypedCSVWriter * option error :=
  match WriteRecord_loop T 0 record [] with
  | Err err => (w, Some err)
  | Ok values =>
    let '(writer, err) := csv.Write (Writer w) values in
    ({| Writer := writer |}, err)
  end.

Definition Flush (w : TypedCSVWriter) : TypedCSVWriter :=
  {| Writer := csv.Flush (Writer w) |}.

Definition Error (w : TypedCSVWriter) : option error := csv.Error (Writer w).

End TypedCSV.

Abbreviation StructType := (list StructField).
Abbreviation Struct := (list Value).
End typedcsv.

(** ** The record types of the package's tests *)
Module testdata.
Import reflect fmt typedcsv.

(** A host on which no time zone, no time layout and no floating-point
    text is known; enough for the records below that carry neither. *)
#[export] Instance bareTime : TimeLib := {|
  Time := Z;
  Location := string;
  zeroTime := 0%Z;
  LoadLocation := λ name, Err (errorString ("unknown time zone " +:+ name));
  ParseInLocation := λ layout value _,
    Err (errorString ("parsing time " +:+ value +:+ " as " +:+ layout));
  Parse := λ layout value,
    Err (errorString ("parsing time " +:+ value +:+ " as " +:+ layout));
  In := λ t _, t;
  Format := λ _ layout, layout;
  Time_MarshalText := λ _, Err (errorString "Time.MarshalText");
  Time_UnmarshalText := λ _, Err (errorString "Time.UnmarshalText");
  Time_String := λ _, ""
|}.

#[export] Instance bareFmt : FmtLib := {|
  convertFloat := λ tok _, Err (NumError "ParseFloat" tok ErrSyntax);
  Sprintf_other := λ format _ _, format
|}.

Definition exported (name : string) (t : Type_) (tag : StructTag)
    : StructField :=
  {| Name := name; PkgPath := ""; Typ := t; Tag := tag |}.

Definition unexported (name : string) (t : Type_) (tag : StructTag)
    : StructField :=
  {| Name := name; PkgPath := "typedcsv_test"; Typ := t; Tag := tag |}.

Definition PersonStatusUnknown : Value := VUint 0.
Definition PersonStatusActive : Value := VUint 1.
Definition PersonStatusInactive : Value := VUint 2.

(** [type PersonStatus uint8] with its [MarshalText] and
    [UnmarshalText]. *)
Definition PersonStatus : Type_ :=
  Defined "typedcsv_test.PersonStatus" (TUint KUint8)
    {| MarshalText := Some (λ status,
         match status with
         | VUint 0 => Ok "unknown"
         | VUint 1 => Ok "active"
         | VUint 2 => Ok "inactive"
         | _ => Err (errorString "unknown status")
         end);
       UnmarshalText := Some (λ status text,
         if decide (text = "unknown") then (PersonStatusUnknown, None)
         else if decide (text = "active") then (PersonStatusActive, None)
         else if decide (text = "inactive") then (PersonStatusInactive, None)
         else (status, Some (errorString "unknown status")));
       Stringer := None |}.

Definition Person : StructType := [
  exported "Name" TString [("csv", "name")];
  exported "Birthday" timeType [("csv", "birthday"); ("time_format", "2006-01-02")];
  exported "Age" (TUint KUint8) [("csv", "age")];
  exported "PetNames" (SliceOf TString) [("csv", "pet names"); ("separator", ";")];
  exported "Active" TBool [("csv", "active")];
  exported "Status" PersonStatus [("csv", "status")];
  exported "Percentage" (TFloat KFloat64) [("csv", "percentage"); ("format", "%.2f")];
  exported "Optional" (PtrTo TString) [("csv", "optional"); ("null", "NULL")];
  exported "Skipped" TString [];
  unexported "_" TBool []
].

Definition OptionalTestRecord : StructType := [
  exported "OptionalStringWithoutTag" (PtrTo TString) [("csv", "optional_string")];
  exported "OptionalStringWithEmptyTag" (PtrTo TString)
           [("csv", "optional_string_with_empty_tag"); ("null", "")];
  exported "OptionalTime" (PtrTo timeType) [("csv", "optional_time"); ("null", "NULL")]
].

Definition SliceTestRecord : StructType := [
  exported "Slice" (SliceOf TString) [("csv", "slice"); ("separator", ";")];
  exported "SliceWithNewLine" (SliceOf TString)
           [("csv", "slice_with_new_line"); ("separator", String "010" "")];
  exported "SliceWithoutSeparator" (SliceOf TString)
           [("csv", "slice_without_separator")]
].

Definition MarshalTextTestRecord : StructType := [
  exported "PersonStatus" PersonStatus [("csv", "person_status")]
].

Definition MapTestRecord : StructType := [
  exported "Map" (MapOf TString TString) [("csv", "map")]
].

(** A reader over the given rows, and an empty writer. *)
Definition readerOf (rows : list (list string)) : TypedCSVReader :=
  NewReader {| csv.pending := inl <$> rows |}.

Definition emptyWriter : TypedCSVWriter :=
  NewWriter {| csv.rows := []; csv.werr := None |}.

Definition personHeader : list string :=
  ["name"; "birthday"; "age"; "pet names"; "active"; "status"; "percentage";
   "optional"].

(** A header with a repeated column. *)
Definition repeated : list string := ["name"; "age"; "name"].

(** [Person{Name: "John", Age: 55}], the other fields zero. *)
Definition john : Struct :=
  [VString "John"; VTime 0%Z; VUint 55; VSlice None; VBool false; VUint 0;
   VFloat 0; VPtr None; VString ""; VBool false].

(** A record type with a field of each sort that survives writing and
    reading back, and a record of it. *)
Definition Inventory : StructType := [
  exported "Name" TString [("csv", "name")];
  exported "Count" (TInt KInt32) [("csv", "count")];
  exported "Sold" (TUint KUint) [("csv", "sold")];
  exported "InStock" TBool [("csv", "in_stock")];
  exported "Tags" (SliceOf TString) [("csv", "tags"); ("separator", ";")];
  exported "Note" (PtrTo TString) [("csv", "note"); ("null", "NULL")];
  exported "Owner" (PtrTo TString) [("csv", "owner")];
  exported "Status" PersonStatus [("csv", "status")];
  exported "Skipped" TString []
].

Definition widget : Struct :=
  [VString "widget"; VInt (-42); VUint 18446744073709551615; VBool true;
   VSlice (Some [VString "a"; VString "b"]); VPtr None;
   VPtr (Some (VString "me")); PersonStatusActive; VString ""].

End testdata.

(** ** Vocabulary of the properties *)
Module vocabulary.
Import reflect fmt typedcsv.

Section Vocabulary.
Context `{TimeLib} `{!FmtLib}.

(** The column name of a field. *)
Definition columnName (field : StructField) : string :=
  Tag_Get (Tag field) csvTag.

(** The header row of a struct type: the column names of its valid
    fields in the order declared. *)
Definition columnNames (T : StructType) : list string :=
  columnName <$> filter (λ field, isValidCSVField field = true) T.

(** The same field without any tag, hence not a CSV field. *)
Definition untagged (field : StructField) : StructField :=
  {| Name := Name field; PkgPath := PkgPath field; Typ := Typ field;
     Tag := [] |}.

(** The numeric types: integers and floating-point numbers, predeclared
    or defined. *)
Definition isNumeric (t : Type_) : bool :=
  match Underlying t with
  | TInt _ | TUint _ | TFloat _ => true
  | _ => false
  end.

(** *** Records that survive writing and reading back *)

(** Text that is valid UTF-8 and holds no white space (possibly empty). *)
Definition isWord (s : string) : Prop :=
  utf8.ValidString s = true ∧ forallb notSpace (utf8.runes s) = true.

(** No byte of [text] occurs in [sep]. *)
Definition disjointBytes (text sep : string) : Prop :=
  ∀ b, b ∈ bytes_of text → b ∉ bytes_of sep.

(** A type on which the package finds none of the methods it looks for. *)
Definition plain (t : Type_) : Prop :=
  MarshalText (Type_Methods t) = None
  ∧ UnmarshalText (Type_Methods t) = None
  ∧ Stringer (Type_Methods t) = None.

(** [scalarText t v text]: [v] is a boolean, an integer in the range of
    its type, or a string that is a word, of type [t], and [text] is how
    [%v] prints it. *)
Inductive scalarText (t : Type_) : Value → string → Prop :=
| st_bool (b : bool) :
    Underlying t = TBool →
    scalarText t (VBool b) (if b then "true" else "false")
| st_int (k : IntKind) (i : Z) :
    Underlying t = TInt k →
    (- 2 ^ (IntKind_Bits k - 1) ≤ i < 2 ^ (IntKind_Bits k - 1))%Z →
    scalarText t (VInt i) (strconv.FormatInt i)
| st_uint (k : UintKind) (u : Z) :
    Underlying t = TUint k →
    (0 ≤ u < 2 ^ UintKind_Bits k)%Z →
    scalarText t (VUint u) (strconv.FormatUint u)
| st_string (s : string) :
    Underlying t = TString → isWord s → scalarText t (VString s) s.

(** The pieces joined by [sep]. *)
Definition joined (sep : string) (texts : list string) : string :=
  match texts with
  | [] => ""
  | text :: rest => text +:+ foldr (λ piece acc, sep +:+ piece +:+ acc) "" rest
  end.

(** [valueText field fieldKind t v text]: the value [v] of type [t],
    held by [field] (of kind [fieldKind]) directly or behind its pointer,
    is written as [text] and read back from it, because the library call
    that reads undoes the one that writes:
    - [vt_printed]: the value goes through [fmt] on both sides (the field
      is no slice, the type is no time and has no text methods), and
      [Sscanf] scans it back from what [Sprintf] printed for it under the
      [format] tag of the field, or under [%v] without one; the empty
      text stands for the zero value. Booleans, integers in range and
      strings that are words are such values (lemma [vt_scalar]); this is
      also where floating-point numbers, format tags and types with a
      [String] method come in;
    - [vt_pieces]: the field itself is a slice ([fieldKind] is
      [Kind.Slice]; behind a pointer it is [Kind.Ptr], and neither loop
      takes its slice branch), not nil and without text methods; every
      element is scanned back from what [Sprintf] printed for it, and
      [strings.Split] cuts the joined text into the texts of the
      elements, as it does for non-empty texts and a non-empty separator
      that have no byte in common (lemma [vt_slice]);
    - [vt_hooks]: the type has [MarshalText] and [UnmarshalText], inverse
      to each other on the value, and the field has no [time_format] tag;
    - [vt_time], [vt_time_in]: a time with a non-empty [time_format]
      layout (and possibly a non-empty [time_location]) under which
      parsing undoes formatting. *)
Inductive valueText (field : StructField) (fieldKind : Kind.t) (t : Type_)
    : Value → string → Prop :=
| vt_printed (v : Value) (text : string) :
    fieldKind ≠ Kind.Slice →
    ConvertibleTo_timeType t = false →
    MarshalText (Type_Methods t) = None →
    UnmarshalText (Type_Methods t) = None →
    Sprintf (default "%v" (Tag_Lookup (Tag field) formatTag)) t v = text →
    Sscanf_v text t = Ok v ∨ (Sscanf_v text t = Err EOF ∧ v = Zero t) →
    valueText field fieldKind t v text
| vt_pieces (elemType : Type_) (sep : string) (elems : list Value)
    (texts : list string) :
    fieldKind = Kind.Slice →
    Underlying t = SliceOf elemType →
    MarshalText (Type_Methods t) = None →
    UnmarshalText (Type_Methods t) = None →
    Tag_Get (Tag field) separatorTag = sep →
    Forall2 (λ v text,
               Sprintf (default "%v" (Tag_Lookup (Tag field) formatTag))
                       elemType v = text
               ∧ Sscanf_v text elemType = Ok v) elems texts →
    Strings.Split (joined sep texts) sep = texts →
    valueText field fieldKind t (VSlice (Some elems)) (joined sep texts)
| vt_hooks (marshalText : Value → result string)
    (unmarshalText : Value → string → Value * option error)
    (v : Value) (text : string) :
    MarshalText (Type_Methods t) = Some marshalText →
    UnmarshalText (Type_Methods t) = Some unmarshalText →
    Tag_Lookup (Tag field) timeFormatTag = None →
    marshalText v = Ok text →
    unmarshalText (Zero t) text = (v, None) →
    valueText field fieldKind t v text
| vt_time (layout : string) (tv : Time) :
    ConvertibleTo_timeType t = true →
    Tag_Lookup (Tag field) timeFormatTag = Some layout → layout ≠ "" →
    Tag_Lookup (Tag field) timeLocationTag = None →
    Parse layout (Format tv layout) = Ok tv →
    valueText field fieldKind t (VTime tv) (Format tv layout)
| vt_time_in (layout name : string) (location : Location) (tv : Time) :
    ConvertibleTo_timeType t = true →
    Tag_Lookup (Tag field) timeFormatTag = Some layout → layout ≠ "" →
    Tag_Lookup (Tag field) timeLocationTag = Some name → name ≠ "" →
    LoadLocation name = Ok location →
    ParseInLocation layout (Format (In tv location) layout) location = Ok tv →
    valueText field fieldKind t (VTime tv) (Format (In tv location) layout).

(** [fieldRoundTrips field v]: the value [v] of the CSV field [field] is
    of such a sort, directly or behind a pointer (a slice directly
    only); a nil pointer needs a declared null token, and the text of a
    non-nil one differs from the null token. *)
Inductive fieldRoundTrips (field : StructField) : Value → Prop :=
| fr_direct (v : Value) (text : string) :
    Type_Kind (Typ field) ≠ Kind.Ptr →
    valueText field (Type_Kind (Typ field)) (Typ field) v text →
    fieldRoundTrips field v
| fr_nil (token : string) :
    Type_Kind (Typ field) = Kind.Ptr →
    Tag_Lookup (Tag field) nullTag = Some token →
    fieldRoundTrips field (VPtr None)
| fr_pointer (v : Value) (text : string) :
    Type_Kind (Typ field) = Kind.Ptr →
    valueText field Kind.Ptr (Type_Elem (Typ field)) v text →
    (∀ token, Tag_Lookup (Tag field) nullTag = Some token → text ≠ token) →
    fieldRoundTrips field (VPtr (Some v)).

(** A record whose CSV fields all do, and whose other fields are zero. *)
Definition recordRoundTrips (T : StructType) (record : Struct) : Prop :=
  Forall2 (λ field v, if isValidCSVField field then fieldRoundTrips field v
                      else v = Zero (Typ field)) T record.

(** *** Cells and rows *)

(** The CSV fields of a struct type, each with its position among the
    fields. *)
Definition csvFields (T : StructType) : list (nat * StructField) :=
  filter (λ p, isValidCSVField p.2 = true) (imap pair T).

(** A field that the loop of [ReadRecord] decodes by its default
    branch: no pointer, no slice, no time, no [UnmarshalText]. *)
Definition scannedByDefault (field : StructField) : Prop :=
  Type_Kind (Typ field) ≠ Kind.Ptr
  ∧ Type_Kind (Typ field) ≠ Kind.Slice
  ∧ ConvertibleTo_timeType (Typ field) = false
  ∧ UnmarshalText (Type_Methods (Typ field)) = None.

(** The runes [rest] are none, or start with white space. *)
Definition endsWord (rest : list Z) : bool :=
  match rest with
  | [] => true
  | c :: _ => isSpace c
  end.

(** The runes [rest] are none, or start with a rune that is none of
    [ok]. *)
Definition endsBefore (ok : string) (rest : list Z) : bool :=
  match rest with
  | [] => true
  | c :: _ => negb (indexRune ok c)
  end.

(** The boolean that the cases of [scanBool] give for the first rune
    of a cell: [true] for [1], [t] and [T]. *)
Definition boolOfFirst (r : Z) : bool :=
  ((r =? 0x31) || (r =? 0x74) || (r =? 0x54))%Z.

(** [integer t n] is [n] as a value of the integer type [t], when [t]
    is one and [n] is in its range. *)
Definition integer (t : Type_) (n : Z) : option Value :=
  match Underlying t with
  | TInt k =>
    if decide (- 2 ^ (IntKind_Bits k - 1) ≤ n < 2 ^ (IntKind_Bits k - 1))%Z
    then Some (VInt n) else None
  | TUint k =>
    if decide (0 ≤ n < 2 ^ UintKind_Bits k)%Z then Some (VUint n) else None
  | _ => None
  end.

(** The value in base 8 of a row of octal digits. *)
Definition octalValue (ds : list Z) : Z :=
  foldl (λ n d, n * 8 + (d - 0x30))%Z 0%Z ds.

End Vocabulary.
End vocabulary.

(** * Properties *)

Import reflect fmt typedcsv vocabulary.

(** ** The header index *)
Section HeaderIndex.

(** A name that is not in the row keeps the index it had. *)
Lemma ReadHeader_loop_notin (header : list string) (m : gmap string nat)
    (i : nat) (name : string) :
  name ∉ header → ReadHeader_loop m i header !! name = m !! name.
Proof.
  revert m i. induction header as [|field rest IH]; intros m i Hnot; [done|].
  apply not_elem_of_cons in Hnot as [Hne Hrest]. simpl.
  rewrite IH by done. by apply lookup_insert_ne.
Qed.

(** The index of a name is the position of its last occurrence. *)
Lemma ReadHeader_loop_last (header : list string) (m : gmap string nat)
    (i j : nat) (name : string) :
  header !! j = Some name →
  (∀ k, (j < k)%nat → header !! k ≠ Some name) →
  ReadHeader_loop m i header !! name = Some (i + j)%nat.
Proof.
  revert m i j. induction header as [|field rest IH]; intros m i j Hj Hlast;
    [done|].
  destruct j as [|j]; simpl in *.
  - injection Hj as ->. rewrite ReadHeader_loop_notin.
    + rewrite lookup_insert_eq. f_equal. lia.
    + intros Hin. apply list_elem_of_lookup in Hin as [k Hk].
      apply (Hlast (S k)); [lia|done].
  - rewrite (IH _ _ j); [f_equal; lia|done|].
    intros k Hk. apply (Hlast (S k)). lia.
Qed.

(** Every entry of the index comes from the row or was there before. *)
Lemma ReadHeader_loop_inv (header : list string) (m : gmap string nat)
    (i n : nat) (name : string) :
  ReadHeader_loop m i header !! name = Some n →
  ((name ∉ header) ∧ m !! name = Some n)
  ∨ (∃ j, n = (i + j)%nat ∧ header !! j = Some name
          ∧ (∀ k, (j < k)%nat → header !! k ≠ Some name)).
Proof.
  revert m i. induction header as [|field rest IH]; intros m i Hn; simpl in *.
  - left. split; [apply not_elem_of_nil|done].
  - apply IH in Hn as [[Hnot Hm]|(j & -> & Hj & Hlast)].
    + destruct (decide (field = name)) as [->|Hne].
      * rewrite lookup_insert_eq in Hm. injection Hm as <-.
        right. exists 0%nat. split; [lia|]. split; [done|].
        intros [|k] Hk; [lia|]. simpl. intros Hk'.
        apply Hnot. apply list_elem_of_lookup. eauto.
      * rewrite lookup_insert_ne in Hm by done. left. split; [|done].
        apply not_elem_of_cons. split; [congruence|done].
    + right. exists (S j). split; [lia|]. split; [done|].
      intros [|k] Hk; [lia|]. simpl. apply Hlast. lia.
Qed.

(** A name in a row has a last position. *)
Lemma last_occurrence (l : list string) (name : string) :
  name ∈ l →
  ∃ j, l !! j = Some name ∧ ∀ k, (j < k)%nat → l !! k ≠ Some name.
Proof.
  induction l as [|c l IH]; intros Hin; [by apply elem_of_nil in Hin|].
  destruct (decide (name ∈ l)) as [Hin'|Hnot].
  - destruct (IH Hin') as (j & Hj & Hlast).
    exists (S j). split; [done|].
    intros [|k] Hk; [lia|]. simpl. apply Hlast. lia.
  - apply elem_of_cons in Hin as [->|Hin]; [|done].
    exists 0%nat. split; [done|]. intros [|k] Hk; [lia|]. simpl.
    intros Hk'. apply Hnot. apply list_elem_of_lookup. eauto.
Qed.

(** C4. [ReadHeader] takes one row from the tokenizer and maps each
    cell's text to its zero-based position without raising an error;
    when a column name is repeated, the index kept is that of the later
    occurrence: a name is mapped to [j] exactly when it stands at
    position [j] of the row and at no later position. *)
Theorem ReadHeader_last_write_wins (r : TypedCSVReader) (row : list string)
    (rest : list (list string + error)) :
  csv.pending (Reader r) = inl row :: rest →
  ∃ index : gmap string nat,
    ReadHeader r = ({| Reader := {| csv.pending := rest |};
                       Header := Some index |}, None)
    ∧ (∀ name j, index !! name = Some j ↔
         row !! j = Some name ∧ ∀ k, (j < k)%nat → row !! k ≠ Some name)
    ∧ (∀ name i j, (i < j)%nat → row !! i = Some name →
         row !! j = Some name → index !! name ≠ Some i).
Proof.
  intros Hpending. exists (ReadHeader_loop ∅ 0 row).
  split; [|split].
  - unfold ReadHeader, csv.Read. by rewrite Hpending.
  - intros name j. split.
    + intros Hj. apply ReadHeader_loop_inv in Hj as [[_ Hempty]|(k & -> & ?)].
      * by rewrite lookup_empty in Hempty.
      * done.
    + intros [Hj Hlast].
      by rewrite (ReadHeader_loop_last row ∅ 0 j name Hj Hlast).
  - intros name i j Hij Hi Hj Hidx.
    apply ReadHeader_loop_inv in Hidx as [[_ Hempty]|(k & -> & _ & Hlast)].
    + by rewrite lookup_empty in Hempty.
    + by apply (Hlast j).
Qed.

End HeaderIndex.

(** ** Reading before and after the header *)
Section HeaderNotRead.
Context `{TimeLib} `{!FmtLib}.

(** With the header unset [ReadRecord] returns at its first statement. *)
Lemma ReadRecord_nil_header (T : StructType) (r : TypedCSVReader) :
  Header r = None →
  ReadRecord T r = (r, Return (None, Some ErrHeaderNotRead)).
Proof. intros Hnil. unfold ReadRecord. by rewrite Hnil. Qed.

(** C10. [ReadRecord] called before [ReadHeader] returns
    [ErrHeaderNotRead] (and no record) and leaves the reader as it was:
    no row is taken from the tokenizer and the header stays unset. *)
Theorem ReadRecord_before_header_consumes_nothing (T : StructType)
    (r r' : TypedCSVReader)
    (res : outcome (option Struct * option error)) :
  Header r = None →
  ReadRecord T r = (r', res) →
  res = Return (None, Some ErrHeaderNotRead)
  ∧ csv.pending (Reader r') = csv.pending (Reader r)
  ∧ Header r' = None
  ∧ r' = r.
Proof.
  intros Hnil. rewrite (ReadRecord_nil_header T r Hnil).
  by intros [= <- <-].
Qed.

(** A failed [ReadHeader] leaves the header unset. *)
Lemma ReadHeader_failed_keeps_header (r r' : TypedCSVReader) (err : error) :
  ReadHeader r = (r', Some err) → Header r' = Header r.
Proof.
  unfold ReadHeader. destruct (csv.Read (Reader r)) as [reader [header|e]];
    intros [= <- _]; done.
Qed.

(** A successful [ReadHeader] sets it. *)
Lemma ReadHeader_ok_sets_header (r r' : TypedCSVReader) :
  ReadHeader r = (r', None) → is_Some (Header r').
Proof.
  unfold ReadHeader. destruct (csv.Read (Reader r)) as [reader [header|e]];
    intros [= <-]; by eexists.
Qed.

(** What [ReadRecord] does once the header is set: the tokenizer's
    error is passed on, a row is decoded field by field. *)
Lemma ReadRecord_with_header (T : StructType) (r : TypedCSVReader)
    (index : gmap string nat) :
  Header r = Some index →
  ReadRecord T r =
    match csv.Read (Reader r) with
    | (reader, Err err) =>
      ({| Reader := reader; Header := Some index |}, Return (None, Some err))
    | (reader, Ok values) =>
      ({| Reader := reader; Header := Some index |},
       match ReadRecord_loop index values T 0 (new T) with
       | Return (record, err) => Return (Some record, err)
       | Panic msg => Panic msg
       end)
    end.
Proof. intros Hidx. unfold ReadRecord. by rewrite Hidx. Qed.

(** C5. While [ReadHeader] has not succeeded on a reader, [ReadRecord]
    and [ReadAll] fail with [ErrHeaderNotRead]. After a successful
    [ReadHeader] the reader decodes: [ReadRecord] takes the next row and
    returns the record decoded from it (or passes on the tokenizer's
    error), and the header stays set. *)
Theorem header_required_then_decodes (T : StructType) (r : TypedCSVReader) :
  Header r = None →
  ReadRecord T r = (r, Return (None, Some ErrHeaderNotRead))
  ∧ ReadAll T r = Some (r, Return ([], Some ErrHeaderNotRead))
  ∧ (∀ r' err, ReadHeader r = (r', Some err) →
       ReadRecord T r' = (r', Return (None, Some ErrHeaderNotRead)))
  ∧ (∀ r', ReadHeader r = (r', None) →
       ∃ index, Header r' = Some index
       ∧ (∀ values rest, csv.pending (Reader r') = inl values :: rest →
            ReadRecord T r' =
              ({| Reader := {| csv.pending := rest |}; Header := Some index |},
               match ReadRecord_loop index values T 0 (new T) with
               | Return (record, err) => Return (Some record, err)
               | Panic msg => Panic msg
               end))
       ∧ (∀ r'' res, ReadRecord T r' = (r'', res) →
            Header r'' = Some index)).
Proof.
  intros Hnil. split; [|split; [|split]].
  - by apply ReadRecord_nil_header.
  - unfold ReadAll. simpl. by rewrite ReadRecord_nil_header.
  - intros r' err Hfail. apply ReadRecord_nil_header.
    apply ReadHeader_failed_keeps_header in Hfail. congruence.
  - intros r' Hok.
    destruct (ReadHeader_ok_sets_header _ _ Hok) as [index Hidx].
    exists index. split; [done|]. split.
    + intros values rest Hpending.
      rewrite (ReadRecord_with_header T r' index Hidx).
      unfold csv.Read. by rewrite Hpending.
    + intros r'' res. rewrite (ReadRecord_with_header T r' index Hidx).
      destruct (csv.Read (Reader r')) as [reader [values|e]];
        by intros [= <- _].
Qed.

End HeaderNotRead.

(** ** Facts about types *)
Section Types.
Context `{TimeLib}.

Lemma Type_Kind_Underlying (t : Type_) :
  Type_Kind (Underlying t) = Type_Kind t.
Proof. induction t; simpl; auto. Qed.

Lemma Zero_Underlying (t : Type_) : Zero (Underlying t) = Zero t.
Proof. induction t; simpl; auto. Qed.

(** The zero value of a pointer type is the nil pointer. *)
Lemma Zero_Ptr (t : Type_) : Type_Kind t = Kind.Ptr → Zero t = VPtr None.
Proof.
  induction t as [|k|k|k| | | | | |]; simpl; try done; auto;
    destruct k; done.
Qed.

Lemma Kind_eqb_eq (a b : Kind.t) : Kind.eqb a b = true ↔ a = b.
Proof. split; [destruct a, b; simpl; congruence|intros ->; by destruct b]. Qed.

Lemma Kind_eqb_refl (a : Kind.t) : Kind.eqb a a = true.
Proof. by apply Kind_eqb_eq. Qed.

End Types.

(** ** The null token *)
Section NullToken.
Context `{TimeLib} `{!FmtLib}.

(** C9. For a pointer field with a declared null token, decoding a cell
    whose text is the null token gives the nil pointer, and encoding the
    nil pointer gives the null token; the field loops of [ReadRecord] and
    [WriteRecord] go on to the next field with that value and that cell. *)
Theorem null_token_decodes_nil_encodes_token (field : StructField)
    (token : string) :
  Type_Kind (Typ field) = Kind.Ptr →
  Tag_Lookup (Tag field) nullTag = Some token →
  (∀ fieldValue,
     ReadRecord_field field token fieldValue = (VPtr None, None))
  ∧ WriteRecord_field field (VPtr None) = Ok token
  ∧ (∀ index values rest i record position,
       isValidCSVField field = true →
       index !! columnName field = Some position →
       values !! position = Some token →
       ReadRecord_loop index values (field :: rest) i record =
       ReadRecord_loop index values rest (S i) (<[i := VPtr None]> record))
  ∧ (∀ rest i record values,
       isValidCSVField field = true →
       record !! i = Some (VPtr None) →
       WriteRecord_loop (field :: rest) i record values =
       WriteRecord_loop rest (S i) record (values ++ [token])).
Proof.
  intros Hkind Hnull.
  assert (Hread : ∀ fieldValue,
            ReadRecord_field field token fieldValue = (VPtr None, None)).
  { intros fieldValue. unfold ReadRecord_field.
    rewrite Hkind, Hnull. simpl. rewrite bool_decide_eq_true_2 by done.
    by rewrite Zero_Ptr. }
  assert (Hwrite : WriteRecord_field field (VPtr None) = Ok token).
  { unfold WriteRecord_field. rewrite Hkind. simpl.
    unfold Tag_Get. by rewrite Hnull. }
  split; [done|]. split; [done|]. split.
  - intros index values rest i record position Hvalid Hidx Hval. simpl.
    rewrite Hvalid. simpl. fold (columnName field).
    rewrite Hidx, Hval, Hread. done.
  - intros rest i record values Hvalid Hrec. simpl.
    rewrite Hvalid, Hrec. simpl. by rewrite Hwrite.
Qed.

End NullToken.

(** ** The header row *)
Section HeaderRow.
Context `{TimeLib} `{!FmtLib}.

Lemma WriteHeader_loop_columnNames (T : StructType) (header : list string) :
  WriteHeader_loop T header = header ++ columnNames T.
Proof.
  revert header.
  induction T as [|field rest IH]; intros header; cbn [WriteHeader_loop].
  - unfold columnNames. simpl. by rewrite app_nil_r.
  - unfold columnNames. rewrite filter_cons.
    destruct (isValidCSVField field) eqn:Hvalid.
    + rewrite decide_True by done. rewrite IH, <- app_assoc. done.
    + rewrite decide_False by done. apply IH.
Qed.

(** C8. [WriteHeader] writes one row, the column names of the valid
    fields in the order declared (it takes no record), and [ReadHeader]
    on that row builds an index that sends every column name to a
    position at which the row has that name; when the names are distinct
    this is the position of the field in the declaration order. *)
Theorem WriteHeader_then_ReadHeader (T : StructType) (w : TypedCSVWriter) :
  csv.werr (Writer w) = None →
  WriteHeader T w =
    ({| Writer := {| csv.rows := csv.rows (Writer w) ++ [columnNames T];
                     csv.werr := None |} |}, None)
  ∧ ∀ (r : TypedCSVReader) rest,
      csv.pending (Reader r) = inl (columnNames T) :: rest →
      ∃ index : gmap string nat,
        ReadHeader r = ({| Reader := {| csv.pending := rest |};
                           Header := Some index |}, None)
        ∧ (∀ name i, index !! name = Some i → columnNames T !! i = Some name)
        ∧ (∀ name, name ∈ columnNames T → is_Some (index !! name))
        ∧ (NoDup (columnNames T) →
           ∀ i name, columnNames T !! i = Some name → index !! name = Some i).
Proof.
  intros Hok. split.
  - unfold WriteHeader, csv.Write. rewrite Hok.
    by rewrite WriteHeader_loop_columnNames.
  - intros r rest Hpending. exists (ReadHeader_loop ∅ 0 (columnNames T)).
    split; [|split; [|split]].
    + unfold ReadHeader, csv.Read. by rewrite Hpending.
    + intros name i Hi.
      apply ReadHeader_loop_inv in Hi as [[_ Hempty]|(j & -> & Hj & _)].
      * by rewrite lookup_empty in Hempty.
      * done.
    + intros name Hin.
      destruct (ReadHeader_loop ∅ 0 (columnNames T) !! name) as [i|] eqn:Hi;
        [by eexists|].
      destruct (last_occurrence _ _ Hin) as (j' & Hj' & Hlast).
      rewrite (ReadHeader_loop_last _ ∅ 0 j' name Hj' Hlast) in Hi. done.
    + intros Hnodup i name Hi.
      rewrite (ReadHeader_loop_last _ ∅ 0 i name Hi); [done|].
      intros k Hk Hk'.
      pose proof (NoDup_lookup _ _ _ _ Hnodup Hi Hk'). lia.
Qed.

End HeaderRow.

(** ** Columns absent from the header *)
Section AbsentColumn.
Context `{TimeLib} `{!FmtLib}.

Lemma isValidCSVField_untagged (field : StructField) :
  isValidCSVField (untagged field) = false.
Proof. unfold isValidCSVField. simpl. by rewrite andb_false_r. Qed.

(** The field loop writes only the fields it decodes: those that are
    valid and present in the header. *)
Lemma ReadRecord_loop_untouched (index : gmap string nat)
    (values : list string) (fields : list StructField) (i : nat)
    (record record' : Struct) (err : option error) (j : nat) :
  ReadRecord_loop index values fields i record = Return (record', err) →
  (j < i)%nat
  ∨ (∃ field, fields !! (j - i)%nat = Some field ∧ (i ≤ j)%nat
       ∧ (isValidCSVField field = false ∨ index !! columnName field = None)) →
  record' !! j = record !! j.
Proof.
  revert i record. induction fields as [|field rest IH]; intros i record.
  - simpl. intros [= <- _] _. done.
  - intros Hloop Hj.
    assert (Hnext : ∀ record0,
              ReadRecord_loop index values rest (S i) record0
                = Return (record', err) →
              record' !! j = record0 !! j).
    { intros record0 Hrest. apply (IH (S i) record0 Hrest).
      destruct Hj as [Hlt|(f & Hf & Hle & Hskip)]; [left; lia|].
      destruct (decide (j = i)) as [->|Hne]; [left; lia|].
      right. exists f. split; [|split; [lia|done]].
      replace (j - i)%nat with (S (j - S i)) in Hf by lia. done. }
    simpl in Hloop.
    destruct (isValidCSVField field) eqn:Hvalid; simpl in Hloop; [|by auto].
    fold (columnName field) in Hloop.
    destruct (index !! columnName field) as [position|] eqn:Hidx; [|by auto].
    assert (Hne : j ≠ i).
    { intros ->. destruct Hj as [Hlt|(f & Hf & _ & Hskip)]; [lia|].
      rewrite Nat.sub_diag in Hf. injection Hf as <-.
      destruct Hskip; congruence. }
    destruct (values !! position) as [value|]; [|done].
    destruct (ReadRecord_field field value _) as [v [e|]].
    + injection Hloop as <- _. by apply list_lookup_insert_ne.
    + rewrite (Hnext _ Hloop). by apply list_lookup_insert_ne.
Qed.

(** A field whose column is absent is passed over like a field without
    a [csv] tag. *)
Lemma ReadRecord_loop_absent (index : gmap string nat) (values : list string)
    (pre post : list StructField) (field : StructField) (i : nat)
    (record : Struct) :
  index !! columnName field = None →
  ReadRecord_loop index values (pre ++ field :: post) i record =
  ReadRecord_loop index values (pre ++ untagged field :: post) i record.
Proof.
  intros Habsent. revert i record.
  induction pre as [|f pre IH]; intros i record; simpl.
  - rewrite isValidCSVField_untagged. simpl.
    destruct (isValidCSVField field); simpl; [|done].
    fold (columnName field). by rewrite Habsent.
  - destruct (isValidCSVField f); simpl; [|by apply IH].
    destruct (index !! Tag_Get (Tag f) csvTag); [|by apply IH].
    destruct (values !! n); [|done].
    destruct (ReadRecord_field f s _) as [v [e|]]; [done|]. apply IH.
Qed.

Lemma new_untagged (pre post : list StructField) (field : StructField) :
  new (pre ++ untagged field :: post) = new (pre ++ field :: post).
Proof. unfold new. by rewrite !fmap_app. Qed.

Lemma ReadRecord_loop_absent_zero (index : gmap string nat)
    (values : list string) (pre post : list StructField)
    (field : StructField) (record : Struct) (err : option error) :
  index !! columnName field = None →
  ReadRecord_loop index values (pre ++ field :: post) 0
                  (new (pre ++ field :: post)) = Return (record, err) →
  record !! length pre = Some (Zero (Typ field)).
Proof.
  intros Habsent Hloop.
  rewrite (ReadRecord_loop_untouched _ _ _ _ _ _ _ (length pre) Hloop).
  - unfold new. rewrite list_lookup_fmap. by rewrite list_lookup_middle.
  - right. exists field. rewrite Nat.sub_0_r.
    split; [by apply list_lookup_middle|]. split; [lia|by right].
Qed.

(** C6. A field whose column name is not in the header index is skipped
    by [ReadRecord]: the call does what it does for the record type in
    which that field has no [csv] tag, so no error comes from the field,
    and in the record returned the field has its zero value. *)
Theorem absent_column_left_zero (r : TypedCSVReader)
    (index : gmap string nat) (pre post : list StructField)
    (field : StructField) :
  Header r = Some index →
  index !! columnName field = None →
  ReadRecord (pre ++ field :: post) r
  = ReadRecord (pre ++ untagged field :: post) r
  ∧ ∀ r' record err,
      ReadRecord (pre ++ field :: post) r = (r', Return (Some record, err)) →
      record !! length pre = Some (Zero (Typ field)).
Proof.
  intros Hheader Habsent.
  rewrite !(ReadRecord_with_header _ r index Hheader).
  destruct (csv.Read (Reader r)) as [reader [values|e]]; [|by split].
  rewrite new_untagged, <- ReadRecord_loop_absent by done.
  split; [done|]. intros r' record err.
  destruct (ReadRecord_loop _ _ _ _ _) as [[record0 err0]|msg] eqn:Hloop;
    [|done].
  intros [= _ <- _]. by eapply ReadRecord_loop_absent_zero.
Qed.

End AbsentColumn.

(** ** Numeric fields *)
Section NumericField.
Context `{TimeLib} `{!FmtLib}.

(** A numeric type is no pointer, no slice and no time. *)
Lemma isNumeric_kind (t : Type_) :
  isNumeric t = true →
  Kind.eqb (Type_Kind t) Kind.Ptr = false
  ∧ Kind.eqb (Type_Kind t) Kind.Slice = false
  ∧ ConvertibleTo_timeType t = false.
Proof.
  unfold isNumeric, ConvertibleTo_timeType.
  rewrite <- (Type_Kind_Underlying t).
  destruct (Underlying t) as [|k|k|k| | | | | |]; try done; by destruct k.
Qed.

(** Scanning the empty text into a number stops at [notEOF]. *)
Lemma Sscanf_v_numeric_empty (t : Type_) :
  isNumeric t = true → Sscanf_v "" t = Err EOF.
Proof.
  unfold isNumeric, Sscanf_v, scanOne.
  destruct (Underlying t); done.
Qed.

(** Scanning [abc] into a number fails, and not with [io.EOF]. *)
Lemma Sscanf_v_numeric_abc (t : Type_) :
  isNumeric t = true →
  (∀ bits, ∃ e, convertFloat "" bits = Err e ∧ e ≠ EOF) →
  ∃ e, Sscanf_v "abc" t = Err e ∧ e ≠ EOF.
Proof.
  unfold isNumeric, Sscanf_v, scanOne. intros Hnum Hfloat.
  destruct (Underlying t) as [|k|k|k| | | | | |]; try done.
  - by exists (errorString "expected integer").
  - by exists (errorString "expected integer").
  - destruct (Hfloat (FloatKind_Bits k)) as (e & He & Hne).
    exists e. split; [|done].
    simpl. by rewrite He.
Qed.

(** C7. For a field of a numeric type without [UnmarshalText]: the
    empty cell gives the zero value and no error, and the cell [abc]
    gives a [FieldParseError] whose [Field] is the column name; this is
    what the field loop of [ReadRecord] goes on with, or returns. (For
    floating-point fields the second part rests on [strconv.ParseFloat]
    rejecting the empty token.) *)
Theorem numeric_empty_is_zero_abc_is_error (field : StructField) :
  isNumeric (Typ field) = true →
  UnmarshalText (Type_Methods (Typ field)) = None →
  (∀ bits, ∃ e, convertFloat "" bits = Err e ∧ e ≠ EOF) →
  (∀ fieldValue,
     ReadRecord_field field "" fieldValue = (Zero (Typ field), None))
  ∧ (∀ fieldValue, ∃ cause,
       ReadRecord_field field "abc" fieldValue =
       (fieldValue, Some (FieldParseError (columnName field) cause)))
  ∧ (∀ index values rest i record position,
       isValidCSVField field = true →
       index !! columnName field = Some position →
       values !! position = Some "" →
       ReadRecord_loop index values (field :: rest) i record =
       ReadRecord_loop index values rest (S i)
                       (<[i := Zero (Typ field)]> record))
  ∧ (∀ index values rest i record position,
       isValidCSVField field = true →
       index !! columnName field = Some position →
       values !! position = Some "abc" →
       ∃ cause,
         ReadRecord_loop index values (field :: rest) i record =
         Return (record, Some (FieldParseError (columnName field) cause))).
Proof.
  intros Hnum Hno Hfloat.
  destruct (isNumeric_kind _ Hnum) as (Hptr & Hslice & Htime).
  assert (Hempty : ∀ fieldValue,
            ReadRecord_field field "" fieldValue = (Zero (Typ field), None)).
  { intros fieldValue. unfold ReadRecord_field, ReadRecord_value.
    rewrite Hptr, Htime, Hno, Hslice. simpl.
    by rewrite Sscanf_v_numeric_empty. }
  assert (Habc : ∀ fieldValue, ∃ cause,
            ReadRecord_field field "abc" fieldValue =
            (fieldValue, Some (FieldParseError (columnName field) cause))).
  { intros fieldValue.
    destruct (Sscanf_v_numeric_abc _ Hnum Hfloat) as (e & He & Hne).
    exists e. unfold ReadRecord_field, ReadRecord_value.
    rewrite Hptr, Htime, Hno, Hslice. simpl. rewrite He.
    by destruct e. }
  split; [done|]. split; [done|]. split.
  - intros index values rest i record position Hvalid Hidx Hval. simpl.
    rewrite Hvalid. simpl. fold (columnName field).
    by rewrite Hidx, Hval, Hempty.
  - intros index values rest i record position Hvalid Hidx Hval.
    destruct (Habc (default (Zero (Typ field)) (record !! i))) as [cause Hc].
    exists cause. simpl. rewrite Hvalid. simpl. fold (columnName field).
    rewrite Hidx, Hval, Hc. do 2 f_equal.
    destruct (record !! i) as [v|] eqn:Hi; simpl.
    + by apply list_insert_id.
    + apply list_insert_ge. by apply lookup_ge_None.
Qed.

End NumericField.

(** ** Reading all records *)
Section ReadAllRecords.
Context `{TimeLib} `{!FmtLib}.

(** [ReadRecord] takes a row whenever it returns without error. *)
Lemma ReadRecord_ok_consumes (T : StructType) (r r' : TypedCSVReader)
    (record : option Struct) :
  ReadRecord T r = (r', Return (record, None)) →
  (length (csv.pending (Reader r')) < length (csv.pending (Reader r)))%nat.
Proof.
  unfold ReadRecord. destruct (Header r) as [index|]; [|done].
  unfold csv.Read. destruct (csv.pending (Reader r)) as [|[values|e] rest];
    [done| |done].
  destruct (ReadRecord_loop _ _ _ _ _) as [[rec err]|msg]; [|done].
  intros [= <- _ _]. simpl. lia.
Qed.

(** The loop of [ReadAll] ends before its fuel does. *)
Lemma ReadAll_loop_total (fuel : nat) (T : StructType) (r : TypedCSVReader)
    (records : list (option Struct)) :
  (length (csv.pending (Reader r)) < fuel)%nat →
  is_Some (ReadAll_loop fuel T r records).
Proof.
  revert r records. induction fuel as [|fuel IH]; intros r records Hfuel;
    [lia|].
  simpl. destruct (ReadRecord T r) as [r' [[record [err|]]|msg]] eqn:Hrec.
  - destruct err; by eexists.
  - apply IH. apply ReadRecord_ok_consumes in Hrec. lia.
  - by eexists.
Qed.

(** More fuel does not change the result. *)
Lemma ReadAll_loop_fuel (fuel fuel' : nat) (T : StructType)
    (r : TypedCSVReader) (records : list (option Struct)) res :
  ReadAll_loop fuel T r records = Some res →
  (fuel ≤ fuel')%nat →
  ReadAll_loop fuel' T r records = Some res.
Proof.
  revert fuel' r records. induction fuel as [|fuel IH];
    intros fuel' r records Hres Hle; [done|].
  destruct fuel' as [|fuel']; [lia|]. simpl in *.
  destruct (ReadRecord T r) as [r' [[record [err|]]|msg]]; try done.
  apply IH; [done|lia].
Qed.

(** [ReadAll] returns. *)
Lemma ReadAll_total (T : StructType) (r : TypedCSVReader) :
  is_Some (ReadAll T r).
Proof. apply ReadAll_loop_total. lia. Qed.

(** Rows that decode without error are collected in order. *)
Lemma ReadAll_loop_collect (T : StructType) (index : gmap string nat)
    (good : list (list string)) (recs : list Struct)
    (rest : list (list string + error)) (fuel : nat)
    (records : list (option Struct)) :
  Forall2 (λ values record,
             ReadRecord_loop index values T 0 (new T) = Return (record, None))
          good recs →
  ReadAll_loop (length good + fuel) T
    {| Reader := {| csv.pending := (inl <$> good) ++ rest |};
       Header := Some index |} records
  = ReadAll_loop fuel T
      {| Reader := {| csv.pending := rest |}; Header := Some index |}
      (records ++ (Some <$> recs)).
Proof.
  intros Hgood. revert records.
  induction Hgood as [|values record good recs Hvalues _ IH]; intros records.
  - simpl. by rewrite app_nil_r.
  - simpl. unfold ReadRecord. simpl. rewrite Hvalues.
    rewrite IH. by rewrite <- app_assoc.
Qed.

(** C2 as amended. [ReadAll] calls [ReadRecord] until the clean end of
    input and collects the records decoded; with a header and no further
    rows the result is empty and without error. On the first error other
    than [io.EOF] it returns at once, with that error and with the
    records decoded before it. *)
Theorem ReadAll_returns_records_so_far (T : StructType)
    (index : gmap string nat) (good : list (list string))
    (recs : list Struct) (rest : list (list string + error)) :
  Forall2 (λ values record,
             ReadRecord_loop index values T 0 (new T) = Return (record, None))
          good recs →
  let r := {| Reader := {| csv.pending := (inl <$> good) ++ rest |};
              Header := Some index |} in
  let r1 := {| Reader := {| csv.pending := rest |}; Header := Some index |} in
  (rest = [] → ReadAll T r = Some (r1, Return (Some <$> recs, None)))
  ∧ (∀ r' record, ReadRecord T r1 = (r', Return (record, Some EOF)) →
       ReadAll T r = Some (r', Return (Some <$> recs, None)))
  ∧ (∀ r' record err,
       ReadRecord T r1 = (r', Return (record, Some err)) → err ≠ EOF →
       ReadAll T r = Some (r', Return (Some <$> recs, Some err)))
  ∧ (∀ r' msg, ReadRecord T r1 = (r', Panic msg) →
       ReadAll T r = Some (r', Panic msg)).
Proof.
  intros Hgood r r1.
  assert (Hstep : ReadAll T r = ReadAll_loop (S (length rest)) T r1 (Some <$> recs)).
  { unfold ReadAll. subst r r1. cbn [Reader csv.pending].
    rewrite length_app, length_fmap.
    replace (S (length good + length rest))
      with (length good + S (length rest))%nat by lia.
    by rewrite (ReadAll_loop_collect T index good recs rest _ [] Hgood). }
  rewrite Hstep. cbn [ReadAll_loop].
  split; [|split; [|split]].
  - intros ->. done.
  - intros r' record ->. done.
  - intros r' record err -> Hne. by destruct err.
  - intros r' msg ->. done.
Qed.

End ReadAllRecords.

(** ** Bytes, runes and words *)
Section Text.
Local Open Scope Z_scope.

Lemma byte_of_range (a : ascii) : 0 ≤ byte_of a < 256.
Proof. unfold byte_of. pose proof (N_ascii_bounded a). lia. Qed.

Lemma ascii_of_byte_of (a : ascii) : ascii_of (byte_of a) = a.
Proof. unfold ascii_of, byte_of. rewrite N2Z.id. apply ascii_N_embedding. Qed.

Lemma byte_of_ascii_of (b : Z) : 0 ≤ b < 256 → byte_of (ascii_of b) = b.
Proof.
  intros Hb. unfold ascii_of, byte_of.
  rewrite N_ascii_embedding by lia. lia.
Qed.

Lemma string_of_bytes_of (s : string) : string_of (bytes_of s) = s.
Proof.
  induction s as [|a s IH]; simpl; [done|].
  by rewrite ascii_of_byte_of, IH.
Qed.

Lemma bytes_of_string_of (l : list Z) :
  Forall (λ b, 0 ≤ b < 256) l → bytes_of (string_of l) = l.
Proof.
  induction 1 as [|b l Hb _ IH]; simpl; [done|].
  by rewrite byte_of_ascii_of, IH.
Qed.

Lemma bytes_of_app (s1 s2 : string) :
  bytes_of (s1 +:+ s2) = bytes_of s1 ++ bytes_of s2.
Proof. induction s1 as [|a s1 IH]; simpl; [done|]. by rewrite IH. Qed.

Lemma string_of_app (l1 l2 : list Z) :
  string_of (l1 ++ l2) = string_of l1 +:+ string_of l2.
Proof. induction l1 as [|b l1 IH]; simpl; [done|]. by rewrite IH. Qed.

Lemma bytes_of_inj (s1 s2 : string) : bytes_of s1 = bytes_of s2 → s1 = s2.
Proof.
  intros Heq. rewrite <- (string_of_bytes_of s1), <- (string_of_bytes_of s2).
  by rewrite Heq.
Qed.

(** An ASCII text is read rune by rune as its bytes. *)
Lemma chunks_go_ascii (l : list Z) (fuel : nat) :
  Forall (λ b, 0 ≤ b < 0x80) l → (length l ≤ fuel)%nat →
  (utf8.chunks_go fuel l).*1 = l.
Proof.
  intros Hl. revert fuel. induction Hl as [|b l Hb _ IH]; intros fuel Hfuel.
  - by destruct fuel.
  - destruct fuel as [|fuel]; simpl in Hfuel; [lia|].
    cbn [utf8.chunks_go]. unfold utf8.DecodeRune.
    destruct (Z.ltb_spec b 0x80); [|lia].
    cbn [fmap list_fmap fst take drop]. simpl. f_equal. apply IH. lia.
Qed.

Lemma runes_ascii (s : string) :
  Forall (λ b, 0 ≤ b < 0x80) (bytes_of s) → utf8.runes s = bytes_of s.
Proof. intros Hs. unfold utf8.runes, utf8.chunks. by apply chunks_go_ascii. Qed.

Lemma EncodeRune_ascii (b : Z) : 0 ≤ b < 0x80 → utf8.EncodeRune b = [b].
Proof.
  intros Hb. unfold utf8.EncodeRune.
  destruct (Z.leb_spec 0 b); [|lia]. destruct (Z.leb_spec b 0x7F); [|lia]. done.
Qed.

End Text.

(** ** UTF-8: encoding what was decoded *)
Section Utf8.
Local Open Scope Z_scope.

Lemma land_shiftl_small (a n b : Z) :
  0 ≤ n → 0 ≤ b < 2 ^ n → Z.land (Z.shiftl a n) b = 0.
Proof.
  intros Hn Hb. apply Z.bits_inj'. intros k Hk.
  rewrite Z.land_spec, Z.bits_0.
  destruct (Z.lt_ge_cases k n) as [Hlt|Hge].
  - rewrite Z.shiftl_spec_low by done. done.
  - destruct (Z.eq_dec b 0) as [->|Hb0].
    + rewrite Z.bits_0. apply andb_false_r.
    + rewrite (Z.bits_above_log2 b k); [apply andb_false_r|lia|].
      apply Z.log2_lt_pow2; [lia|].
      eapply Z.lt_le_trans; [apply Hb|]. apply Z.pow_le_mono_r; lia.
Qed.

(** Bits set below a shifted value are added to it. *)
Lemma lor_shiftl_small (a n b : Z) :
  0 ≤ n → 0 ≤ b < 2 ^ n → Z.lor (Z.shiftl a n) b = a * 2 ^ n + b.
Proof.
  intros Hn Hb. rewrite <- Z.lxor_lor by (by apply land_shiftl_small).
  rewrite <- Z.add_nocarry_lxor by (by apply land_shiftl_small).
  by rewrite Z.shiftl_mul_pow2.
Qed.

Lemma lor_const_small (c a n b : Z) :
  c = a * 2 ^ n → 0 ≤ n → 0 ≤ b < 2 ^ n → Z.lor c b = c + b.
Proof.
  intros -> Hn Hb. rewrite <- Z.shiftl_mul_pow2 by done.
  rewrite lor_shiftl_small by done. by rewrite Z.shiftl_mul_pow2.
Qed.

Lemma land_ones_mod (x n : Z) : 0 ≤ n → Z.land x (Z.ones n) = x mod 2 ^ n.
Proof. intros. by apply Z.land_ones. Qed.

Ltac pow_consts :=
  change (2 ^ 3) with 8 in *; change (2 ^ 4) with 16 in *;
  change (2 ^ 5) with 32 in *; change (2 ^ 6) with 64 in *;
  change (2 ^ 12) with 4096 in *; change (2 ^ 18) with 262144 in *.

Ltac bits_to_arith :=
  repeat first
    [ progress change 0x1F with (Z.ones 5)
    | progress change 0x0F with (Z.ones 4)
    | progress change 0x07 with (Z.ones 3)
    | progress change 0x3F with (Z.ones 6)
    | rewrite land_ones_mod by lia
    | rewrite Z.shiftl_mul_pow2 by lia
    | rewrite Z.shiftr_div_pow2 by lia ].

Ltac arith := bits_to_arith; pow_consts; Z.div_mod_to_equations; lia.

Lemma lor3 (A B C : Z) :
  0 ≤ B < 64 → 0 ≤ C < 64 →
  Z.lor (Z.lor (Z.shiftl A 12) (Z.shiftl B 6)) C = A * 4096 + B * 64 + C.
Proof.
  intros HB HC.
  rewrite (lor_shiftl_small A 12 (Z.shiftl B 6))
    by (rewrite ?Z.shiftl_mul_pow2 by lia; pow_consts; lia).
  rewrite Z.shiftl_mul_pow2 by lia.
  rewrite (lor_const_small _ (A * 64 + B) 6 C); pow_consts; lia.
Qed.

Lemma lor4 (A B C D : Z) :
  0 ≤ B < 64 → 0 ≤ C < 64 → 0 ≤ D < 64 →
  Z.lor (Z.lor (Z.lor (Z.shiftl A 18) (Z.shiftl B 12)) (Z.shiftl C 6)) D
  = A * 262144 + B * 4096 + C * 64 + D.
Proof.
  intros HB HC HD.
  rewrite (lor_shiftl_small A 18 (Z.shiftl B 12))
    by (rewrite ?Z.shiftl_mul_pow2 by lia; pow_consts; lia).
  rewrite !Z.shiftl_mul_pow2 by lia.
  rewrite (lor_const_small _ (A * 64 + B) 12 (C * 2 ^ 6))
    by (pow_consts; lia).
  rewrite (lor_const_small _ (A * 4096 + B * 64 + C) 6 D); pow_consts; lia.
Qed.

Lemma decode_encode_2 (p0 b1 : Z) :
  0xC2 ≤ p0 < 0xE0 → 0x80 ≤ b1 ≤ 0xBF →
  utf8.EncodeRune (Z.lor (Z.shiftl (Z.land p0 0x1F) 6) (Z.land b1 0x3F))
  = [p0; b1].
Proof.
  intros Hp0 Hb1.
  assert (Hr : Z.lor (Z.shiftl (Z.land p0 0x1F) 6) (Z.land b1 0x3F)
               = (p0 - 0xC0) * 64 + (b1 - 0x80)).
  { rewrite lor_shiftl_small; [arith|lia|arith]. }
  rewrite Hr. set (r := (p0 - 0xC0) * 64 + (b1 - 0x80)).
  assert (0x80 ≤ r ≤ 0x7FF) by (unfold r; lia).
  unfold utf8.EncodeRune.
  destruct (Z.leb_spec 0 r); [|lia]. destruct (Z.leb_spec r 0x7F); [lia|].
  destruct (Z.leb_spec r 0x7FF); [|lia]. cbn [andb].
  f_equal; [|f_equal].
  - rewrite (lor_const_small 0xC0 6 5) by (try done; unfold r; arith).
    unfold r; arith.
  - rewrite (lor_const_small 0x80 2 6) by (try done; unfold r; arith).
    unfold r; arith.
Qed.

Lemma decode_encode_3 (p0 b1 b2 : Z) :
  0xE0 ≤ p0 < 0xF0 →
  (if p0 =? 0xE0 then 0xA0 else 0x80) ≤ b1
    ≤ (if p0 =? 0xED then 0x9F else 0xBF) →
  0x80 ≤ b2 ≤ 0xBF →
  utf8.EncodeRune (Z.lor (Z.lor (Z.shiftl (Z.land p0 0x0F) 12)
                                (Z.shiftl (Z.land b1 0x3F) 6))
                         (Z.land b2 0x3F))
  = [p0; b1; b2].
Proof.
  intros Hp0 Hb1 Hb2.
  assert (0x80 ≤ b1 ≤ 0xBF).
  { destruct (p0 =? 0xE0), (p0 =? 0xED); lia. }
  rewrite lor3 by arith.
  set (r := Z.land p0 15 * 4096 + Z.land b1 63 * 64 + Z.land b2 63).
  assert (Hr : r = (p0 - 0xE0) * 4096 + (b1 - 0x80) * 64 + (b2 - 0x80)).
  { unfold r. arith. }
  assert (0x800 ≤ r ≤ 0xFFFF ∧ ¬ (0xD800 ≤ r ≤ 0xDFFF)).
  { rewrite Hr. destruct (Z.eqb_spec p0 0xE0), (Z.eqb_spec p0 0xED); lia. }
  unfold utf8.EncodeRune, utf8.MaxRune.
  destruct (Z.leb_spec 0 r); [|lia]. destruct (Z.leb_spec r 0x7F); [lia|].
  destruct (Z.leb_spec r 0x7FF); [lia|]. cbn [andb].
  destruct (Z.ltb_spec r 0); [lia|]. destruct (Z.ltb_spec 0x10FFFF r); [lia|].
  cbn [orb].
  destruct (Z.leb_spec 0xD800 r), (Z.leb_spec r 0xDFFF); try lia; cbn [andb];
    destruct (Z.leb_spec r 0xFFFF); try lia.
  all: f_equal; [|f_equal; [|f_equal]].
  all: try (rewrite (lor_const_small 0xE0 14 4) by (try done; rewrite Hr; arith);
            rewrite Hr; arith).
  all: try (rewrite (lor_const_small 0x80 2 6) by (try done; rewrite Hr; arith);
            rewrite Hr; arith).
Qed.

Lemma decode_encode_4 (p0 b1 b2 b3 : Z) :
  0xF0 ≤ p0 ≤ 0xF4 →
  (if p0 =? 0xF0 then 0x90 else 0x80) ≤ b1
    ≤ (if p0 =? 0xF4 then 0x8F else 0xBF) →
  0x80 ≤ b2 ≤ 0xBF → 0x80 ≤ b3 ≤ 0xBF →
  utf8.EncodeRune (Z.lor (Z.lor (Z.lor (Z.shiftl (Z.land p0 0x07) 18)
                                       (Z.shiftl (Z.land b1 0x3F) 12))
                                (Z.shiftl (Z.land b2 0x3F) 6))
                         (Z.land b3 0x3F))
  = [p0; b1; b2; b3].
Proof.
  intros Hp0 Hb1 Hb2 Hb3.
  assert (0x80 ≤ b1 ≤ 0xBF).
  { destruct (p0 =? 0xF0), (p0 =? 0xF4); lia. }
  rewrite lor4 by arith.
  set (r := Z.land p0 7 * 262144 + Z.land b1 63 * 4096 + Z.land b2 63 * 64
            + Z.land b3 63).
  assert (Hr : r = (p0 - 0xF0) * 262144 + (b1 - 0x80) * 4096
                   + (b2 - 0x80) * 64 + (b3 - 0x80)).
  { unfold r. arith. }
  assert (0x10000 ≤ r ≤ 0x10FFFF).
  { rewrite Hr. destruct (Z.eqb_spec p0 0xF0), (Z.eqb_spec p0 0xF4); lia. }
  unfold utf8.EncodeRune, utf8.MaxRune.
  destruct (Z.leb_spec 0 r); [|lia]. destruct (Z.leb_spec r 0x7F); [lia|].
  destruct (Z.leb_spec r 0x7FF); [lia|]. cbn [andb].
  destruct (Z.ltb_spec r 0); [lia|]. destruct (Z.ltb_spec 0x10FFFF r); [lia|].
  cbn [orb].
  destruct (Z.leb_spec 0xD800 r), (Z.leb_spec r 0xDFFF); try lia; cbn [andb];
    destruct (Z.leb_spec r 0xFFFF); try lia.
  all: f_equal; [|f_equal; [|f_equal; [|f_equal]]].
  all: try (rewrite (lor_const_small 0xF0 30 3) by (try done; rewrite Hr; arith);
            rewrite Hr; arith).
  all: try (rewrite (lor_const_small 0x80 2 6) by (try done; rewrite Hr; arith);
            rewrite Hr; arith).
Qed.

Lemma cont_spec (lo hi b : Z) : utf8.cont lo hi b = true ↔ lo ≤ b ≤ hi.
Proof. unfold utf8.cont. rewrite andb_true_iff, !Z.leb_le. done. Qed.

(** A rune that was decoded from a valid encoding is encoded as the
    bytes it was decoded from. *)
Lemma DecodeRune_EncodeRune (p : list Z) (r : Z) (n : nat) :
  Forall (λ b, 0 ≤ b < 256) p → p ≠ [] →
  utf8.DecodeRune p = (r, n) →
  (r =? utf8.RuneError) && (n =? 1)%nat = false →
  utf8.EncodeRune r = take n p ∧ (1 ≤ n ≤ length p)%nat.
Proof.
  intros Hp Hne. destruct p as [|p0 t]; [done|]. clear Hne.
  apply Forall_cons in Hp as [Hp0 Ht].
  unfold utf8.DecodeRune.
  assert (Hbad : ∀ r n, (utf8.RuneError, 1%nat) = (r, n) →
            (r =? utf8.RuneError) && (n =? 1)%nat = false →
            utf8.EncodeRune r = take n (p0 :: t)
            ∧ (1 ≤ n ≤ length (p0 :: t))%nat).
  { intros ? ? [= <- <-]. done. }
  destruct (Z.ltb_spec p0 0x80).
  { intros [= <- <-] _. rewrite EncodeRune_ascii by lia.
    simpl. split; [done|lia]. }
  destruct (Z.ltb_spec p0 0xC2); [by apply Hbad|].
  destruct (Z.ltb_spec 0xF4 p0); [by apply Hbad|]. cbn [orb].
  destruct (Z.ltb_spec p0 0xE0).
  { destruct t as [|b1 t]; [by apply Hbad|].
    destruct (utf8.cont 0x80 0xBF b1) eqn:Hb1; [|by apply Hbad].
    apply cont_spec in Hb1. intros [= <- <-] _.
    rewrite decode_encode_2 by lia. simpl. split; [done|lia]. }
  destruct (Z.ltb_spec p0 0xF0).
  { destruct t as [|b1 [|b2 t]]; [by apply Hbad..|].
    destruct (utf8.cont _ _ b1) eqn:Hb1; [|by apply Hbad].
    destruct (utf8.cont _ _ b2) eqn:Hb2; [|by apply Hbad].
    apply cont_spec in Hb1, Hb2. intros [= <- <-] _.
    rewrite decode_encode_3 by (done || lia). simpl. split; [done|lia]. }
  destruct t as [|b1 [|b2 [|b3 t]]]; [by apply Hbad..|].
  destruct (utf8.cont _ _ b1) eqn:Hb1; [|by apply Hbad].
  destruct (utf8.cont _ _ b2) eqn:Hb2; [|by apply Hbad].
  destruct (utf8.cont _ _ b3) eqn:Hb3; [|by apply Hbad].
  apply cont_spec in Hb1, Hb2, Hb3. intros [= <- <-] _.
  rewrite decode_encode_4 by (done || lia). simpl. split; [done|lia].
Qed.

End Utf8.

(** ** Scanning what [%v] printed *)
Section Scanning.
Context `{TimeLib} `{!FmtLib}.
Local Open Scope Z_scope.

Lemma SkipSpace_loop_nonspace (b : Z) (l : list Z) :
  isSpace b = false → SkipSpace_loop (b :: l) = Ok (b :: l).
Proof.
  intros Hb. cbn [SkipSpace_loop].
  destruct (Z.eqb_spec b 0x0D) as [->|_]; [done|].
  destruct (Z.eqb_spec b 0x0A) as [->|_]; [done|].
  cbn [andb]. by rewrite Hb.
Qed.

Lemma SkipSpace_nonspace (b : Z) (l buffer : list Z) :
  isSpace b = false →
  SkipSpace {| rs := b :: l; buf := buffer |}
  = Scanned () {| rs := b :: l; buf := buffer |}.
Proof. intros Hb. unfold SkipSpace. simpl rs. by rewrite SkipSpace_loop_nonspace. Qed.

(** A word is taken by [token] as it stands. *)
Lemma token_loop_valid (fuel : nat) (p buffer : list Z) :
  Forall (λ b, 0 ≤ b < 256) p → (length p ≤ fuel)%nat →
  utf8.ValidString_go fuel p = true →
  forallb notSpace (utf8.chunks_go fuel p).*1 = true →
  token_loop notSpace (utf8.chunks_go fuel p).*1 buffer = ([], buffer ++ p).
Proof.
  revert p buffer. induction fuel as [|fuel IH]; intros p buffer Hp Hfuel.
  - destruct p; [|simpl in Hfuel; lia]. simpl. by rewrite app_nil_r.
  - destruct p as [|p0 t]; [simpl; by rewrite app_nil_r|].
    cbn [utf8.ValidString_go utf8.chunks_go].
    destruct (utf8.DecodeRune (p0 :: t)) as [r n] eqn:Hdec.
    destruct ((r =? utf8.RuneError) && (n =? 1)%nat) eqn:Hbad; [done|].
    destruct (DecodeRune_EncodeRune _ _ _ Hp ltac:(done) Hdec Hbad)
      as [Henc Hn].
    intros Hvalid Hspace. cbn [fmap list_fmap fst forallb token_loop] in *.
    apply andb_true_iff in Hspace as [Hr Hrest]. rewrite Hr.
    rewrite IH; [| |  |done|done].
    + rewrite Henc, <- app_assoc. by rewrite take_drop.
    + by apply Forall_drop.
    + rewrite length_drop. simpl in *. lia.
Qed.

Lemma bytes_of_bytes (s : string) : Forall (λ b, 0 ≤ b < 256) (bytes_of s).
Proof.
  induction s as [|a s IH]; simpl; constructor; [apply byte_of_range|done].
Qed.

(** A non-empty word is scanned whole into a string. *)
Lemma Sscanf_v_word (t : Type_) (s : string) :
  Underlying t = TString → isWord s → s ≠ "" →
  Sscanf_v s t = Ok (VString s).
Proof.
  intros Ht [Hvalid Hspace] Hne. unfold Sscanf_v.
  pose proof (token_loop_valid (length (bytes_of s)) (bytes_of s) []
                (bytes_of_bytes s) ltac:(lia) Hvalid Hspace) as Htoken.
  fold (utf8.chunks s) in Htoken. fold (utf8.runes s) in Htoken.
  destruct (utf8.runes s) as [|r l] eqn:Hrunes.
  { exfalso. apply Hne. destruct s; [done|]. revert Hrunes.
    unfold utf8.runes, utf8.chunks. cbn [bytes_of length utf8.chunks_go].
    by destruct (utf8.DecodeRune _). }
  cbn [forallb] in Hspace. apply andb_true_iff in Hspace as [Hr _].
  apply negb_true_iff in Hr.
  rewrite SkipSpace_nonspace by done.
  unfold scanOne. rewrite Ht. cbn [rs].
  unfold convertString. rewrite SkipSpace_nonspace by done.
  cbn [notEOF rs]. unfold token. rewrite SkipSpace_nonspace by done.
  cbn [rs buf]. rewrite Htoken. cbn [app].
  by rewrite string_of_bytes_of.
Qed.

(** The empty text is at its end at once, for every scalar type. *)
Lemma Sscanf_v_empty (t : Type_) :
  match Underlying t with
  | TBool | TInt _ | TUint _ | TString => True
  | _ => False
  end →
  Sscanf_v "" t = Err EOF.
Proof.
  unfold Sscanf_v, scanOne. by destruct (Underlying t).
Qed.

Lemma Sscanf_v_bool (t : Type_) (b : bool) :
  Underlying t = TBool →
  Sscanf_v (if b then "true" else "false") t = Ok (VBool b).
Proof.
  intros Ht. unfold Sscanf_v, scanOne. rewrite Ht. by destruct b.
Qed.

End Scanning.

(** ** Decimal integers: [strconv] parses what it formats *)
Section Decimal.
Local Open Scope Z_scope.

Local Abbreviation isDigit := (λ d : Z, 0x30 ≤ d ≤ 0x39).
Local Abbreviation digitsValue := (foldl (λ n d : Z, n * 10 + (d - 0x30))).

Lemma digitsValue_ge (ds : list Z) (n : Z) :
  Forall isDigit ds → 0 ≤ n → n ≤ digitsValue n ds.
Proof.
  intros Hds. revert n. induction Hds as [|d ds Hd _ IH]; intros n Hn; simpl.
  - lia.
  - etrans; [|apply IH]; lia.
Qed.

Lemma formatBits_S (fuel : nat) (u : Z) (acc : list Z) :
  strconv.formatBits (S fuel) u acc =
  if u <? 10 then (0x30 + u) :: acc
  else strconv.formatBits fuel (u / 10) ((0x30 + u mod 10) :: acc).
Proof. done. Qed.

(** [formatBits] writes the decimal digits of [u]: at least one, no
    leading zero unless [u] is zero. *)
Lemma formatBits_digits (fuel : nat) (u : Z) (acc : list Z) :
  0 ≤ u < 10 ^ Z.of_nat (S fuel) →
  ∃ d ds,
    strconv.formatBits (S fuel) u acc = (d :: ds) ++ acc
    ∧ Forall isDigit (d :: ds)
    ∧ (d = 0x30 → u = 0 ∧ ds = [])
    ∧ ∀ n, digitsValue n (d :: ds) = n * 10 ^ Z.of_nat (length (d :: ds)) + u.
Proof.
  revert u acc. induction fuel as [|fuel IH]; intros u acc Hu.
  - exists (0x30 + u), []. change (10 ^ Z.of_nat 1) with 10 in Hu.
    rewrite formatBits_S. destruct (Z.ltb_spec u 10); [|lia].
    split; [done|]. split; [constructor; [lia|done]|].
    split; [intros; split; [lia|done]|]. intros n. simpl. lia.
  - rewrite formatBits_S. destruct (Z.ltb_spec u 10) as [Hlt|Hge].
    + exists (0x30 + u), []. split; [done|]. split; [constructor; [lia|done]|].
      split; [intros; split; [lia|done]|]. intros n. simpl. lia.
    + assert (Hq : 0 ≤ u / 10 < 10 ^ Z.of_nat (S fuel)).
      { rewrite (Nat2Z.inj_succ (S fuel)), Z.pow_succ_r in Hu by lia.
        split; [apply Z.div_pos; lia|].
        apply Z.div_lt_upper_bound; lia. }
      destruct (IH (u / 10) ((0x30 + u mod 10) :: acc) Hq)
        as (d & ds & Hfmt & Hds & Hzero & Hval).
      exists d, (ds ++ [0x30 + u mod 10]).
      pose proof (Z.mod_pos_bound u 10 ltac:(lia)) as Hmod.
      split; [|split; [|split]].
      * rewrite Hfmt. simpl. by rewrite <- app_assoc.
      * rewrite app_comm_cons. apply Forall_app. split; [done|].
        constructor; [lia|done].
      * intros Hd. destruct (Hzero Hd) as [Hq0 _].
        assert (u / 10 ≠ 0); [|done].
        intros Hdiv. apply Z.div_small_iff in Hdiv; lia.
      * intros n. rewrite app_comm_cons, foldl_app, Hval.
        cbn [foldl]. rewrite length_app. cbn [length].
        replace (Z.of_nat (S (length ds) + 1))
          with (Z.succ (Z.of_nat (S (length ds)))) by lia.
        rewrite Z.pow_succ_r by lia.
        pose proof (Z.div_mod u 10 ltac:(lia)). lia.
Qed.

(** The digit loop of [ParseUint] in base 10 computes the value of the
    digits as long as it fits 64 bits. *)
Lemma ParseUint_loop_digits (s0 : string) (ds : list Z) (n : Z)
    (underscores : bool) :
  Forall isDigit ds → 0 ≤ n → digitsValue n ds ≤ strconv.maxUint64 →
  strconv.ParseUint_loop s0 true 10 (strconv.maxUint64 / 10 + 1)
                         (2 ^ 64 - 1) underscores n ds
  = Ok (digitsValue n ds, underscores).
Proof.
  intros Hds. revert n. induction Hds as [|d ds Hd Hds IH]; intros n Hn Hmax.
  - done.
  - cbn [strconv.ParseUint_loop foldl] in *.
    pose proof (digitsValue_ge ds (n * 10 + (d - 0x30)) Hds ltac:(lia)) as Hge.
    unfold strconv.maxUint64 in *.
    destruct (Z.eqb_spec d 0x5F); [lia|]. cbn [andb].
    destruct (Z.leb_spec 0x30 d); [|lia].
    destruct (Z.leb_spec d 0x39); [|lia]. cbn [andb].
    destruct (Z.leb_spec 10 (d - 0x30)); [lia|].
    destruct (Z.leb_spec ((2 ^ 64 - 1) / 10 + 1) n) as [Hcut|_].
    { exfalso. revert Hcut. change ((2 ^ 64 - 1) / 10 + 1)
        with 1844674407370955162. lia. }
    unfold strconv.uint64.
    rewrite (Z.mod_small (n * 10)) by lia.
    rewrite (Z.mod_small (n * 10 + (d - 0x30))) by lia.
    destruct (Z.ltb_spec (n * 10 + (d - 0x30)) (n * 10)); [lia|].
    destruct (Z.ltb_spec (2 ^ 64 - 1) (n * 10 + (d - 0x30))); [lia|].
    cbn [orb]. apply IH; lia.
Qed.

(** [ParseUint] with base 0 reads [FormatUint u] back as [u]. *)
Lemma ParseUint_FormatUint (u : Z) :
  0 ≤ u < 2 ^ 64 → strconv.ParseUint (strconv.FormatUint u) 0 64 = Ok u.
Proof.
  intros Hu. unfold strconv.FormatUint.
  destruct (formatBits_digits 19 u []) as (d & ds & Hfmt & Hds & Hzero & Hval).
  { change (10 ^ Z.of_nat 20) with 100000000000000000000. lia. }
  rewrite Hfmt, app_nil_r. unfold strconv.ParseUint.
  assert (Hbytes : bytes_of (string_of (d :: ds)) = d :: ds).
  { apply bytes_of_string_of. eapply Forall_impl; [exact Hds|].
    simpl. intros; lia. }
  rewrite Hbytes. cbn [Z.eqb Z.leb Z.compare andb].
  destruct (Z.eqb_spec d 0x30) as [Hd|Hd].
  - destruct (Hzero Hd) as [-> ->]. subst d. done.
  - pose proof (Hval 0) as Hv. rewrite Z.mul_0_l, Z.add_0_l in Hv.
    change (64 =? 0) with false. cbn [Z.ltb Z.compare orb].
    rewrite ParseUint_loop_digits; [|done|lia|].
    + cbn [andb]. by rewrite Hv.
    + rewrite Hv. unfold strconv.maxUint64. lia.
Qed.

(** [ParseInt] with base 0 reads [FormatInt i] back as [i]. *)
Lemma ParseInt_FormatInt (i : Z) :
  - 2 ^ 63 ≤ i < 2 ^ 63 → strconv.ParseInt (strconv.FormatInt i) 0 64 = Ok i.
Proof.
  intros Hi. unfold strconv.FormatInt.
  destruct (Z.ltb_spec i 0) as [Hneg|Hpos].
  - unfold strconv.ParseInt. change (byte_of "-") with 0x2D.
    cbn [Z.eqb Pos.eqb]. rewrite ParseUint_FormatUint by lia.
    change (64 =? 0) with false. cbn [negb andb].
    destruct (Z.ltb_spec (2 ^ (64 - 1)) (- i)) as [Hlt|_].
    { exfalso. change (2 ^ (64 - 1)) with (2 ^ 63) in Hlt. lia. }
    f_equal. lia.
  - unfold strconv.FormatUint.
    destruct (formatBits_digits 19 i [])
      as (d & ds & Hfmt & Hds & Hzero & Hval).
    { change (10 ^ Z.of_nat 20) with 100000000000000000000. lia. }
    pose proof Hfmt as Hfmt'. rewrite app_nil_r in Hfmt'.
    assert (Hd : 0x30 ≤ d ≤ 0x39) by (by apply Forall_cons in Hds as [? _]).
    unfold strconv.ParseInt. rewrite Hfmt'. cbn [string_of].
    rewrite byte_of_ascii_of by lia.
    destruct (Z.eqb_spec d 0x2B); [lia|]. destruct (Z.eqb_spec d 0x2D); [lia|].
    change (String (ascii_of d) (string_of ds)) with (string_of (d :: ds)).
    rewrite <- Hfmt'. fold (strconv.FormatUint i).
    rewrite ParseUint_FormatUint by lia.
    change (64 =? 0) with false. cbn [negb andb].
    destruct (Z.leb_spec (2 ^ (64 - 1)) i) as [Hle|_].
    { exfalso. change (2 ^ (64 - 1)) with (2 ^ 63) in Hle. lia. }
    done.
Qed.

End Decimal.

(** ** Scanning integers *)
Section ScanningIntegers.
Context `{TimeLib} `{!FmtLib}.
Local Open Scope Z_scope.

Local Abbreviation isDigit := (λ d : Z, 0x30 ≤ d ≤ 0x39).

Lemma isSpace_digit (d : Z) : 0x30 ≤ d ≤ 0x39 → isSpace d = false.
Proof.
  intros Hd. unfold isSpace.
  repeat match goal with
         | |- context [?a <=? ?b] => destruct (Z.leb_spec a b); try lia
         | |- context [?a =? ?b] => destruct (Z.eqb_spec a b); try lia
         | |- context [?a <? ?b] => destruct (Z.ltb_spec a b); try lia
         end; done.
Qed.

Lemma indexRune_decimal (d : Z) :
  0x30 ≤ d ≤ 0x39 → indexRune (decimalDigits +:+ "_") d = true.
Proof.
  intros Hd.
  assert (d = 48 ∨ d = 49 ∨ d = 50 ∨ d = 51 ∨ d = 52 ∨ d = 53 ∨ d = 54
          ∨ d = 55 ∨ d = 56 ∨ d = 57) as Hcases by lia.
  repeat destruct Hcases as [->|Hcases]; try done. by subst.
Qed.

Lemma indexRune_sign_digit (d : Z) : 0x30 ≤ d ≤ 0x39 → indexRune sign d = false.
Proof.
  intros Hd. unfold indexRune, sign. simpl.
  change (byte_of "+") with 0x2B. change (byte_of "-") with 0x2D.
  destruct (Z.eqb_spec d 0x2B); [lia|]. destruct (Z.eqb_spec d 0x2D); [lia|].
  done.
Qed.

Lemma indexRune_zero (d : Z) : indexRune "0" d = (d =? 0x30).
Proof. unfold indexRune. simpl. by rewrite orb_false_r. Qed.

Lemma accept_loop_digits (ds buffer : list Z) :
  Forall isDigit ds →
  accept_loop (decimalDigits +:+ "_") ds buffer = ([], buffer ++ ds).
Proof.
  intros Hds. revert buffer. induction Hds as [|d ds Hd _ IH]; intros buffer.
  - simpl. by rewrite app_nil_r.
  - cbn [accept_loop]. rewrite indexRune_decimal by done.
    rewrite EncodeRune_ascii by lia. rewrite IH. by rewrite <- app_assoc.
Qed.

(** The digits printed for a number are taken as one token. *)
Lemma scanNumber_digits (d : Z) (ds buffer : list Z) :
  Forall isDigit (d :: ds) → (d = 0x30 → ds = []) →
  (let '(digits, haveDigits, s) :=
     scanBasePrefix {| rs := d :: ds; buf := buffer |} in
   scanNumber digits haveDigits s)
  = Scanned (string_of (buffer ++ d :: ds))
            {| rs := []; buf := buffer ++ d :: ds |}.
Proof.
  intros Hds Hzero. pose proof Hds as [Hd Hds']%Forall_cons.
  unfold scanBasePrefix, peek. cbn [rs]. rewrite indexRune_zero.
  destruct (Z.eqb_spec d 0x30) as [->|Hne].
  - rewrite (Hzero eq_refl). done.
  - cbn [negb]. unfold scanNumber. cbn [notEOF rs].
    unfold accept. cbn [rs buf]. rewrite indexRune_decimal by done.
    rewrite EncodeRune_ascii by lia.
    unfold accept_all. cbn [rs buf]. rewrite accept_loop_digits by done.
    cbn [buf]. by rewrite <- app_assoc.
Qed.

(** The overflow checks of [scanUint] and [scanInt] pass within range. *)
Lemma scanUint_fits (k : UintKind) (u : Z) :
  0 ≤ u < 2 ^ UintKind_Bits k →
  Z.shiftr (strconv.uint64 (Z.shiftl u (64 - UintKind_Bits k)))
           (64 - UintKind_Bits k) = u.
Proof.
  intros Hu. rewrite Z.shiftl_mul_pow2, Z.shiftr_div_pow2 by (destruct k; done).
  unfold strconv.uint64.
  destruct k; cbn [UintKind_Bits] in *;
    (rewrite Z.mod_small by lia); by rewrite Z.div_mul.
Qed.

Lemma scanInt_fits (k : IntKind) (i : Z) :
  - 2 ^ (IntKind_Bits k - 1) ≤ i < 2 ^ (IntKind_Bits k - 1) →
  Z.shiftr (int64 (Z.shiftl i (64 - IntKind_Bits k)))
           (64 - IntKind_Bits k) = i.
Proof.
  intros Hi. rewrite Z.shiftl_mul_pow2, Z.shiftr_div_pow2 by (destruct k; done).
  unfold int64.
  destruct k; cbn [IntKind_Bits] in *;
    (rewrite Z.mod_small by lia); rewrite Z.add_simpl_r; by rewrite Z.div_mul.
Qed.

(** The text of [FormatUint]: digits, read by the scanner as they are. *)
Lemma FormatUint_digits (u : Z) :
  0 ≤ u < 2 ^ 64 →
  ∃ d ds, strconv.FormatUint u = string_of (d :: ds)
          ∧ Forall isDigit (d :: ds) ∧ (d = 0x30 → ds = [])
          ∧ utf8.runes (strconv.FormatUint u) = d :: ds.
Proof.
  intros Hu. unfold strconv.FormatUint.
  destruct (formatBits_digits 19 u []) as (d & ds & Hfmt & Hds & Hzero & _).
  { change (10 ^ Z.of_nat 20) with 100000000000000000000. lia. }
  exists d, ds. rewrite Hfmt, app_nil_r.
  assert (Hbytes : bytes_of (string_of (d :: ds)) = d :: ds).
  { apply bytes_of_string_of. eapply Forall_impl; [exact Hds|].
    simpl. intros; lia. }
  split; [done|]. split; [done|]. split; [by intros [_ ?]%Hzero|].
  rewrite runes_ascii; rewrite Hbytes; [done|].
  eapply Forall_impl; [exact Hds|]. simpl. intros; lia.
Qed.

Lemma UintKind_Bits_le (k : UintKind) : 2 ^ UintKind_Bits k ≤ 2 ^ 64.
Proof. by destruct k. Qed.

Lemma IntKind_Bits_le (k : IntKind) : 2 ^ (IntKind_Bits k - 1) ≤ 2 ^ 63.
Proof. by destruct k. Qed.

(** An unsigned integer in range is scanned back from its text. *)
Lemma Sscanf_v_uint (t : Type_) (k : UintKind) (u : Z) :
  Underlying t = TUint k → 0 ≤ u < 2 ^ UintKind_Bits k →
  Sscanf_v (strconv.FormatUint u) t = Ok (VUint u).
Proof.
  intros Ht Hu. pose proof (UintKind_Bits_le k) as Hle.
  destruct (FormatUint_digits u) as (d & ds & Hfmt & Hds & Hzero & Hrunes);
    [lia|].
  pose proof Hds as [Hd _]%Forall_cons.
  unfold Sscanf_v. rewrite Hrunes.
  rewrite SkipSpace_nonspace by (by apply isSpace_digit).
  unfold scanOne. rewrite Ht. cbn [rs]. unfold scanUint.
  rewrite SkipSpace_nonspace by (by apply isSpace_digit). cbn [notEOF rs].
  pose proof (scanNumber_digits d ds [] Hds Hzero) as Hscan.
  destruct (scanBasePrefix _) as [[digits haveDigits] s1].
  rewrite Hscan. cbn [app]. rewrite <- Hfmt.
  rewrite ParseUint_FormatUint by lia.
  rewrite scanUint_fits by done. by rewrite Z.eqb_refl.
Qed.

(** A signed integer in range is scanned back from its text. *)
Lemma Sscanf_v_int (t : Type_) (k : IntKind) (i : Z) :
  Underlying t = TInt k →
  - 2 ^ (IntKind_Bits k - 1) ≤ i < 2 ^ (IntKind_Bits k - 1) →
  Sscanf_v (strconv.FormatInt i) t = Ok (VInt i).
Proof.
  intros Ht Hi. pose proof (IntKind_Bits_le k) as Hle.
  pose proof (ParseInt_FormatInt i ltac:(lia)) as Hparse.
  unfold Sscanf_v, strconv.FormatInt in *.
  destruct (Z.ltb_spec i 0) as [Hneg|Hpos].
  - destruct (FormatUint_digits (- i)) as (d & ds & Hfmt & Hds & Hzero & Hrunes);
      [lia|].
    pose proof Hds as [Hd _]%Forall_cons.
    assert (Hascii : Forall (λ b, 0 ≤ b < 0x80) (d :: ds)).
    { eapply Forall_impl; [exact Hds|]. simpl; intros; lia. }
    assert (Hbytes : bytes_of (string_of (d :: ds)) = d :: ds).
    { apply bytes_of_string_of. eapply Forall_impl; [exact Hds|].
      simpl; intros; lia. }
    assert (Hr : utf8.runes (String "-" (strconv.FormatUint (- i)))
                 = 0x2D :: d :: ds).
    { rewrite Hfmt. rewrite runes_ascii.
      - cbn [bytes_of] in *. by rewrite Hbytes.
      - cbn [bytes_of] in *. rewrite Hbytes. by constructor. }
    rewrite Hr. rewrite SkipSpace_nonspace by done.
    unfold scanOne. rewrite Ht. cbn [rs]. unfold scanInt.
    rewrite SkipSpace_nonspace by done. cbn [notEOF rs].
    change (accept sign {| rs := 0x2D :: d :: ds; buf := [] |})
      with (true, {| rs := d :: ds; buf := [0x2D] |}). cbn [snd].
    pose proof (scanNumber_digits d ds [0x2D] Hds Hzero) as Hscan.
    destruct (scanBasePrefix _) as [[digits haveDigits] s1].
    rewrite Hscan.
    change (string_of ([0x2D] ++ d :: ds))
      with (String "-" (string_of (d :: ds))).
    rewrite <- Hfmt, Hparse.
    rewrite scanInt_fits by done. by rewrite Z.eqb_refl.
  - destruct (FormatUint_digits i) as (d & ds & Hfmt & Hds & Hzero & Hrunes);
      [lia|].
    pose proof Hds as [Hd _]%Forall_cons.
    rewrite Hrunes. rewrite SkipSpace_nonspace by (by apply isSpace_digit).
    unfold scanOne. rewrite Ht. cbn [rs]. unfold scanInt.
    rewrite SkipSpace_nonspace by (by apply isSpace_digit). cbn [notEOF rs].
    unfold accept at 1. cbn [rs]. rewrite indexRune_sign_digit by done.
    cbn [snd].
    pose proof (scanNumber_digits d ds [] Hds Hzero) as Hscan.
    destruct (scanBasePrefix _) as [[digits haveDigits] s1].
    rewrite Hscan. cbn [app]. rewrite <- Hfmt, Hparse.
    rewrite scanInt_fits by done. by rewrite Z.eqb_refl.
Qed.

End ScanningIntegers.

(** ** Splitting what was joined *)
Section SplitJoined.

Lemma str_app_cons (a : ascii) (s1 s2 : string) :
  String a s1 +:+ s2 = String a (s1 +:+ s2).
Proof. done. Qed.

Lemma str_app_assoc (s1 s2 s3 : string) :
  (s1 +:+ s2) +:+ s3 = s1 +:+ (s2 +:+ s3).
Proof.
  induction s1 as [|a s1 IH]; [done|]. rewrite !str_app_cons. by rewrite IH.
Qed.

Lemma str_app_nil_r (s : string) : s +:+ "" = s.
Proof.
  induction s as [|a s IH]; [done|]. rewrite str_app_cons. by rewrite IH.
Qed.

Lemma strlen_app (s1 s2 : string) :
  strlen (s1 +:+ s2) = (strlen s1 + strlen s2)%nat.
Proof.
  induction s1 as [|a s1 IH]; [done|]. rewrite str_app_cons.
  unfold strlen in *. simpl. by rewrite IH.
Qed.

Lemma take_app (s1 s2 : string) : Strings.take (strlen s1) (s1 +:+ s2) = s1.
Proof.
  induction s1 as [|a s1 IH]; [done|]. rewrite str_app_cons.
  unfold strlen in *. simpl. by rewrite IH.
Qed.

Lemma drop_app (s1 s2 : string) : Strings.drop (strlen s1) (s1 +:+ s2) = s2.
Proof.
  induction s1 as [|a s1 IH]; [done|]. rewrite str_app_cons.
  unfold strlen in *. simpl. apply IH.
Qed.

Lemma drop_app_app (s1 s2 s3 : string) :
  Strings.drop (strlen s1 + strlen s2) (s1 +:+ s2 +:+ s3) = s3.
Proof.
  rewrite <- (strlen_app s1 s2), <- (str_app_assoc s1 s2 s3). apply drop_app.
Qed.

Lemma HasPrefix_app (sep tail : string) :
  Strings.HasPrefix (sep +:+ tail) sep = true.
Proof.
  induction sep as [|a sep IH]; [done|]. rewrite str_app_cons.
  cbn [Strings.HasPrefix]. by rewrite decide_True.
Qed.

Lemma Index_here (s substr : string) :
  Strings.HasPrefix s substr = true → Strings.Index s substr = Some 0%nat.
Proof. intros Hp. destruct s; simpl; by rewrite Hp. Qed.

(** In a text that shares no byte with the separator, the separator
    does not occur; followed by the separator, it occurs first at the
    end of the text. *)
Lemma Index_disjoint (text sep tail : string) :
  disjointBytes text sep → sep ≠ "" →
  Strings.Index text sep = None
  ∧ Strings.Index (text +:+ sep +:+ tail) sep = Some (strlen text).
Proof.
  intros Hdis Hsep. destruct sep as [|c sep]; [done|].
  induction text as [|a text IH].
  - split; [done|].
    apply (Index_here (String c sep +:+ tail)), HasPrefix_app.
  - assert (Hne : a ≠ c).
    { intros ->. apply (Hdis (byte_of c)); simpl; apply elem_of_cons; by left. }
    destruct IH as [IH1 IH2].
    { intros b Hb. apply Hdis. simpl. apply elem_of_cons. by right. }
    split.
    + cbn [Strings.Index Strings.HasPrefix]. rewrite decide_False by done.
      by rewrite IH1.
    + rewrite str_app_cons. cbn [Strings.Index Strings.HasPrefix].
      rewrite decide_False by done. by rewrite IH2.
Qed.

Lemma joined_cons (sep text : string) (texts : list string) :
  joined sep (text :: texts) =
  match texts with
  | [] => text
  | _ => text +:+ sep +:+ joined sep texts
  end.
Proof.
  destruct texts as [|text' texts]; simpl; [apply str_app_nil_r|done].
Qed.

Lemma genSplit_loop_joined (sep : string) (texts : list string)
    (text : string) (fuel : nat) :
  sep ≠ "" → Forall (λ piece, disjointBytes piece sep) (text :: texts) →
  (length texts ≤ fuel)%nat →
  Strings.genSplit_loop fuel (joined sep (text :: texts)) sep = text :: texts.
Proof.
  intros Hsep Hall. revert text fuel Hall.
  induction texts as [|text' texts IH]; intros text fuel Hall Hfuel.
  - apply Forall_cons in Hall as [Htext _].
    rewrite joined_cons.
    destruct (Index_disjoint text sep "" Htext Hsep) as [Hnone _].
    destruct fuel; simpl; [done|]. by rewrite Hnone.
  - apply Forall_cons in Hall as [Htext Hrest].
    rewrite joined_cons.
    destruct (Index_disjoint text sep (joined sep (text' :: texts)) Htext Hsep)
      as [_ Hsome].
    destruct fuel as [|fuel]; [simpl in Hfuel; lia|].
    cbn [Strings.genSplit_loop]. rewrite Hsome.
    rewrite take_app, drop_app_app. f_equal.
    apply IH; [done|]. simpl in Hfuel. lia.
Qed.

Lemma strlen_joined (sep : string) (texts : list string) (text : string) :
  sep ≠ "" → (length texts ≤ strlen (joined sep (text :: texts)))%nat.
Proof.
  intros Hsep. revert text. induction texts as [|text' texts IH]; intros text.
  - simpl. lia.
  - rewrite joined_cons, !strlen_app. specialize (IH text').
    destruct sep; [done|]. unfold strlen in *. simpl in *. lia.
Qed.

(** [strings.Split] undoes the joining. *)
Lemma Split_joined (sep : string) (texts : list string) :
  sep ≠ "" → texts ≠ [] →
  Forall (λ piece, disjointBytes piece sep) texts →
  Strings.Split (joined sep texts) sep = texts.
Proof.
  intros Hsep Hne Hall. destruct texts as [|text texts]; [done|].
  unfold Strings.Split. rewrite decide_False by done.
  apply genSplit_loop_joined; [done|done|]. by apply strlen_joined.
Qed.

End SplitJoined.

(** ** Writing a field and reading it back *)
Section FieldRoundTrip.
Context `{TimeLib} `{!FmtLib}.
Local Open Scope Z_scope.

Lemma FormatUint_nonempty (u : Z) :
  0 ≤ u < 2 ^ 64 → strconv.FormatUint u ≠ "".
Proof.
  intros Hu. unfold strconv.FormatUint.
  destruct (formatBits_digits 19 u []) as (d & ds & Hfmt & _).
  { change (10 ^ Z.of_nat 20) with 100000000000000000000. lia. }
  by rewrite Hfmt.
Qed.

Lemma FormatInt_nonempty (i : Z) :
  - 2 ^ 63 ≤ i < 2 ^ 63 → strconv.FormatInt i ≠ "".
Proof.
  intros Hi. unfold strconv.FormatInt. destruct (Z.ltb_spec i 0); [done|].
  apply FormatUint_nonempty. lia.
Qed.

Lemma Sprintf_scalar (t : Type_) (v : Value) (text : string) :
  plain t → scalarText t v text → Sprintf "%v" t v = text.
Proof.
  intros (_ & _ & Hstr) Hv. unfold Sprintf. rewrite decide_True by done.
  rewrite Hstr. destruct Hv as [b Ht|k i Ht _|k u Ht _|s Ht _]; by rewrite Ht.
Qed.

Lemma Sscanf_scalar (t : Type_) (v : Value) (text : string) :
  scalarText t v text → text ≠ "" → Sscanf_v text t = Ok v.
Proof.
  intros Hv Hne. destruct Hv as [b Ht|k i Ht Hi|k u Ht Hu|s Ht Hs].
  - by apply Sscanf_v_bool.
  - by apply (Sscanf_v_int t k).
  - by apply (Sscanf_v_uint t k).
  - by apply Sscanf_v_word.
Qed.

Lemma scalarText_empty (t : Type_) (v : Value) :
  scalarText t v "" → v = Zero t ∧ Sscanf_v "" t = Err EOF.
Proof.
  intros Hv. inversion Hv as [b Ht Hb|k i Ht Hi Hb|k u Ht Hu Hb|s Ht Hs Hb];
    subst.
  - by destruct b.
  - exfalso. pose proof (IntKind_Bits_le k).
    apply (FormatInt_nonempty i); [lia|done].
  - exfalso. pose proof (UintKind_Bits_le k).
    apply (FormatUint_nonempty u); [lia|done].
  - split.
    + by rewrite <- Zero_Underlying, Ht.
    + apply Sscanf_v_empty. by rewrite Ht.
Qed.

Lemma scalar_not_time (t : Type_) (v : Value) (text : string) :
  scalarText t v text → ConvertibleTo_timeType t = false.
Proof.
  unfold ConvertibleTo_timeType.
  by intros [b Ht|k i Ht _|k u Ht _|s Ht _]; rewrite Ht.
Qed.

(** The pieces of a slice are scanned one by one. *)
Lemma ReadRecord_slice_pieces (csvTagValue : string) (elemType : Type_)
    (elems : list Value) (texts : list string) (i : nat) (slice : list Value) :
  Forall2 (λ v text, Sscanf_v text elemType = Ok v) elems texts →
  ReadRecord_slice csvTagValue elemType texts i slice = Ok (slice ++ elems).
Proof.
  intros Hall. revert i slice.
  induction Hall as [|v text elems texts Hv _ IH]; intros i slice.
  - simpl. by rewrite app_nil_r.
  - cbn [ReadRecord_slice]. rewrite Hv, IH. by rewrite <- app_assoc.
Qed.

(** The elements of a slice are printed and joined. *)
Lemma WriteRecord_slice_rest (sep format : string) (elemType : Type_)
    (elems : list Value) (texts : list string) (i : nat) (builder : string) :
  Forall2 (λ v text, Sprintf format elemType v = text) elems texts →
  WriteRecord_slice sep format elemType elems (S i) builder
  = builder +:+ foldr (λ piece acc, sep +:+ piece +:+ acc) "" texts.
Proof.
  intros Hall. revert i builder.
  induction Hall as [|v text elems texts Hv _ IH]; intros i builder.
  - simpl. by rewrite str_app_nil_r.
  - cbn [WriteRecord_slice foldr]. rewrite decide_True by lia.
    rewrite Hv, IH. by rewrite !str_app_assoc.
Qed.

Lemma WriteRecord_slice_joined (sep format : string) (elemType : Type_)
    (elems : list Value) (texts : list string) :
  Forall2 (λ v text, Sprintf format elemType v = text) elems texts →
  WriteRecord_slice sep format elemType elems 0 "" = joined sep texts.
Proof.
  intros Hall. destruct Hall as [|v text elems texts Hv Hall]; [done|].
  cbn [WriteRecord_slice]. rewrite decide_False by lia. rewrite Hv.
  by rewrite (WriteRecord_slice_rest sep format elemType elems texts 0 _ Hall).
Qed.

Lemma Tag_Get_Lookup_None (tag : StructTag) (key : string) :
  Tag_Lookup tag key = None → Tag_Get tag key = "".
Proof. intros Hnone. unfold Tag_Get. by rewrite Hnone. Qed.

Lemma Tag_Get_Lookup_Some (tag : StructTag) (key value : string) :
  Tag_Lookup tag key = Some value → Tag_Get tag key = value.
Proof. intros Hsome. unfold Tag_Get. by rewrite Hsome. Qed.

Lemma slice_not_time (t elemType : Type_) :
  Underlying t = SliceOf elemType → ConvertibleTo_timeType t = false.
Proof. unfold ConvertibleTo_timeType. by intros ->. Qed.

Lemma Kind_eqb_ne (a b : Kind.t) : a ≠ b → Kind.eqb a b = false.
Proof.
  intros Hne. destruct (Kind.eqb a b) eqn:Heq; [|done].
  by apply Kind_eqb_eq in Heq.
Qed.

(** What the code after the pointer step writes for such a value... *)
Lemma valueText_write (field : StructField) (csvTagValue : string)
    (fieldKind : Kind.t) (t : Type_) (v : Value) (text : string) :
  valueText field fieldKind t v text →
  WriteRecord_value field csvTagValue fieldKind t v = Ok text.
Proof.
  intros Hv. unfold WriteRecord_value.
  destruct Hv as [v text Hkind Htime Hm Hu Hprint Hscan
                 |elemType sep elems texts -> Ht Hm Hu Hsep Hall Hsplit
                 |m u v text Hm Hu Hlayout Hmv Huv
                 |layout tv Htime Hlayout Hne Hloc Hparse
                 |layout name location tv Htime Hlayout Hne Hloc Hname Hload
                    Hparse].
  - rewrite Htime, Hm, (Kind_eqb_ne _ _ Hkind), <- Hprint.
    by destruct (Tag_Lookup (Tag field) formatTag).
  - rewrite (slice_not_time _ _ Ht), Hm, Hsep. cbn [Kind.eqb].
    unfold Type_Elem. rewrite Ht.
    rewrite (WriteRecord_slice_joined sep _ elemType elems texts); [done|].
    eapply Forall2_impl; [exact Hall|]. by intros ? ? [? _].
  - rewrite Hlayout. destruct (ConvertibleTo_timeType t); by rewrite Hm, Hmv.
  - by rewrite Htime, Hlayout, Hloc.
  - by rewrite Htime, Hlayout, Hloc, Hload.
Qed.

(** ... and what it reads back from the text, into a zero variable. *)
Lemma valueText_read (field : StructField) (csvTagValue : string)
    (fieldKind : Kind.t) (t : Type_) (v : Value) (text : string) :
  valueText field fieldKind t v text →
  ReadRecord_value field csvTagValue text fieldKind t (Zero t) = (v, None).
Proof.
  intros Hv. unfold ReadRecord_value.
  destruct Hv as [v text Hkind Htime Hm Hu Hprint Hscan
                 |elemType sep elems texts -> Ht Hm Hu Hsep Hall Hsplit
                 |m u v text Hm Hu Hlayout Hmv Huv
                 |layout tv Htime Hlayout Hne Hloc Hparse
                 |layout name location tv Htime Hlayout Hne Hloc Hname Hload
                    Hparse].
  - rewrite Htime, Hu, (Kind_eqb_ne _ _ Hkind). cbn [andb].
    by destruct Hscan as [->|[-> ->]].
  - rewrite (slice_not_time _ _ Ht), Hu, Hsep. cbn [andb Kind.eqb].
    rewrite Hsplit. unfold Type_Elem. rewrite Ht.
    rewrite (ReadRecord_slice_pieces _ elemType elems texts 0 []); [done|].
    eapply Forall2_impl; [exact Hall|]. by intros ? ? [_ ?].
  - rewrite (Tag_Get_Lookup_None _ _ Hlayout).
    rewrite bool_decide_eq_true_2 by done. rewrite andb_false_r.
    by rewrite Hu, Huv.
  - rewrite Htime, (Tag_Get_Lookup_Some _ _ _ Hlayout).
    rewrite bool_decide_eq_false_2 by done. cbn [andb negb].
    rewrite (Tag_Get_Lookup_None _ _ Hloc).
    rewrite bool_decide_eq_true_2 by done. cbn [negb]. by rewrite Hparse.
  - rewrite Htime, (Tag_Get_Lookup_Some _ _ _ Hlayout).
    rewrite bool_decide_eq_false_2 by done. cbn [andb negb].
    rewrite (Tag_Get_Lookup_Some _ _ _ Hloc).
    rewrite bool_decide_eq_false_2 by done. cbn [negb].
    by rewrite Hload, Hparse.
Qed.

(** A scalar of a plain type, in a field without [format] tag, is
    scanned back from what [%v] prints for it. *)
Lemma vt_scalar (field : StructField) (fieldKind : Kind.t) (t : Type_)
    (v : Value) (text : string) :
  plain t →
  Tag_Lookup (Tag field) formatTag = None →
  fieldKind ≠ Kind.Slice →
  scalarText t v text →
  valueText field fieldKind t v text.
Proof.
  intros Hplain Hfmt Hkind Hv. pose proof Hplain as (Hm & Hu & _).
  apply vt_printed; [done|by eapply scalar_not_time|done|done| |].
  - rewrite Hfmt. by apply Sprintf_scalar.
  - destruct (decide (text = "")) as [->|Hne].
    + right. by destruct (scalarText_empty t v Hv).
    + left. by apply Sscanf_scalar.
Qed.

(** A non-empty slice of such scalars is cut into its pieces again when
    the separator is not empty, no piece is empty and no byte of a piece
    occurs in the separator. *)
Lemma vt_slice (field : StructField) (fieldKind : Kind.t) (t : Type_)
    (elemType : Type_) (sep : string) (elems : list Value)
    (texts : list string) :
  fieldKind = Kind.Slice →
  Underlying t = SliceOf elemType →
  plain t → plain elemType →
  Tag_Lookup (Tag field) formatTag = None →
  Tag_Get (Tag field) separatorTag = sep → sep ≠ "" →
  elems ≠ [] →
  Forall2 (λ v text, scalarText elemType v text ∧ text ≠ ""
                     ∧ disjointBytes text sep) elems texts →
  valueText field fieldKind t (VSlice (Some elems)) (joined sep texts).
Proof.
  intros Hkind Ht (Hm & Hu & _) Hplain Hfmt Hsep Hne Hnonempty Hall.
  apply (vt_pieces _ _ _ elemType); [done..| |].
  - rewrite Hfmt. eapply Forall2_impl; [exact Hall|].
    intros v text (Hv & Htext & _). split.
    + by apply Sprintf_scalar.
    + by apply Sscanf_scalar.
  - apply Split_joined; [done| |].
    + intros ->. by inversion Hall.
    + clear -Hall. induction Hall as [|? ? ? ? (_ & _ & ?)]; by constructor.
Qed.

(** A field that round-trips is written as a cell from which it is read
    back. *)
Lemma field_round_trip (field : StructField) (v : Value) :
  fieldRoundTrips field v →
  ∃ cell, WriteRecord_field field v = Ok cell
          ∧ ReadRecord_field field cell (Zero (Typ field)) = (v, None).
Proof.
  intros [v' text Hkind Hv|token Hkind Hnull|v' text Hkind Hv Hnull].
  - exists text. unfold WriteRecord_field, ReadRecord_field.
    rewrite (Kind_eqb_ne _ _ Hkind).
    by rewrite (valueText_write _ _ _ _ _ _ Hv), (valueText_read _ _ _ _ _ _ Hv).
  - exists token. unfold WriteRecord_field, ReadRecord_field.
    rewrite Hkind, Hnull. cbn [Kind.eqb].
    rewrite (Tag_Get_Lookup_Some _ _ _ Hnull).
    rewrite bool_decide_eq_true_2 by done. by rewrite Zero_Ptr.
  - exists text. unfold WriteRecord_field, ReadRecord_field.
    rewrite Hkind. cbn [Kind.eqb].
    rewrite (valueText_write _ _ _ _ _ _ Hv).
    rewrite (valueText_read _ _ _ _ _ _ Hv).
    destruct (Tag_Lookup (Tag field) nullTag) as [token|] eqn:Htok; [|done].
    by rewrite bool_decide_eq_false_2 by (by apply Hnull).
Qed.

End FieldRoundTrip.

(** ** Writing a record and reading it back *)
Section RecordRoundTrip.
Context `{TimeLib} `{!FmtLib}.

Lemma columnNames_cons (field : StructField) (T : StructType) :
  columnNames (field :: T) =
  if isValidCSVField field then columnName field :: columnNames T
  else columnNames T.
Proof.
  unfold columnNames. rewrite filter_cons.
  destruct (isValidCSVField field).
  - by rewrite decide_True.
  - by rewrite decide_False.
Qed.

(** The two field loops, side by side: the writer appends one cell per
    valid field, and the reader, given an index that sends the column
    names to the positions of these cells, rebuilds the record. *)
Lemma loops_round_trip (T : StructType) (record : Struct) :
  recordRoundTrips T record →
  ∃ cells : list string,
    (∀ (pre : Struct) values,
       WriteRecord_loop T (length pre) (pre ++ record) values
       = Ok (values ++ cells))
    ∧ (∀ (index : gmap string nat) (pre : Struct) (preCells : list string),
         (∀ k name, columnNames T !! k = Some name →
                    index !! name = Some (length preCells + k)%nat) →
         ReadRecord_loop index (preCells ++ cells) T (length pre)
                         (pre ++ new T)
         = Return (pre ++ record, None)).
Proof.
  intros Hall. induction Hall as [|field v T record Hfield _ IH].
  - exists []. split.
    + intros pre values. simpl. by rewrite app_nil_r.
    + intros index pre preCells _. done.
  - destruct IH as (cells & IHw & IHr).
    assert (Hcons : ∀ (pre : Struct) (l : Struct) x,
              pre ++ x :: l = (pre ++ [x]) ++ l).
    { intros. by rewrite <- app_assoc. }
    assert (Hlen : ∀ (pre : Struct) x, S (length pre) = length (pre ++ [x])).
    { intros. rewrite length_app. simpl. lia. }
    destruct (isValidCSVField field) eqn:Hvalid.
    + destruct (field_round_trip field v Hfield) as (cell & Hw & Hr).
      exists (cell :: cells). split.
      * intros pre values. cbn [WriteRecord_loop]. rewrite Hvalid.
        cbn [negb]. rewrite list_lookup_middle by done. cbn [default from_option id].
        rewrite Hw. rewrite (Hlen pre v), (Hcons pre record v), IHw.
        by rewrite <- app_assoc.
      * intros index pre preCells Hidx.
        change (new (field :: T)) with (Zero (Typ field) :: new T).
        cbn [ReadRecord_loop].
        rewrite Hvalid. cbn [negb]. fold (columnName field).
        rewrite columnNames_cons, Hvalid in Hidx.
        rewrite (Hidx 0%nat (columnName field) eq_refl).
        rewrite Nat.add_0_r, list_lookup_middle by done.
        rewrite list_lookup_middle by done. cbn [default from_option id].
        rewrite Hr.
        rewrite insert_app_r_alt by done. rewrite Nat.sub_diag.
        cbn [insert list_insert].
        rewrite (Hlen pre v), (Hcons pre (new T) v), (Hcons pre record v).
        replace (preCells ++ cell :: cells) with ((preCells ++ [cell]) ++ cells)
          by (by rewrite <- app_assoc).
        apply IHr.
        intros k name Hk. rewrite (Hidx (S k) name Hk).
        rewrite length_app. simpl. f_equal. lia.
    + subst v. exists cells. split.
      * intros pre values. cbn [WriteRecord_loop]. rewrite Hvalid.
        cbn [negb].
        by rewrite (Hlen pre (Zero (Typ field))), (Hcons pre record), IHw.
      * intros index pre preCells Hidx.
        change (new (field :: T)) with (Zero (Typ field) :: new T).
        cbn [ReadRecord_loop]. rewrite Hvalid. cbn [negb].
        rewrite columnNames_cons, Hvalid in Hidx.
        rewrite (Hlen pre (Zero (Typ field))), (Hcons pre (new T)).
        rewrite (Hcons pre record). by apply IHr.
Qed.

(** C1 as amended. For a record type with distinct column names and a
    record of it whose other fields are zero and whose CSV fields are of
    the sorts described by [fieldRoundTrips]: a value that [fmt] scans
    back from what it printed, a value on which the text methods are
    inverse, or a time that its layout parses back, each directly or
    behind a non-nil pointer whose text is not the null token; a slice,
    directly only, whose pieces are scanned back and split again; a nil
    pointer with a null token. Writing the header and the record, then
    reading the header and one record from the two rows written, returns
    the record, without error. *)
Theorem write_then_read_round_trip (T : StructType) (record : Struct) :
  NoDup (columnNames T) →
  recordRoundTrips T record →
  ∃ (cells : list string) (w1 w2 : TypedCSVWriter) (r1 : TypedCSVReader),
    WriteHeader T (NewWriter {| csv.rows := []; csv.werr := None |})
    = (w1, None)
    ∧ WriteRecord T w1 record = (w2, None)
    ∧ csv.rows (Writer w2) = [columnNames T; cells]
    ∧ ReadHeader (NewReader {| csv.pending := inl <$> csv.rows (Writer w2) |})
      = (r1, None)
    ∧ ReadRecord T r1
      = ({| Reader := {| csv.pending := [] |}; Header := Header r1 |},
         Return (Some record, None)).
Proof.
  intros Hnodup Hall.
  destruct (loops_round_trip T record Hall) as (cells & Hwrite & Hread).
  exists cells. eexists. eexists. eexists.
  split; [|split; [|split; [|split]]].
  - unfold WriteHeader, NewWriter, csv.Write. cbn [Writer csv.werr csv.rows].
    rewrite WriteHeader_loop_columnNames. cbn [app]. reflexivity.
  - pose proof (Hwrite [] []) as Hw. cbn [length app] in Hw.
    unfold WriteRecord. rewrite Hw.
    unfold csv.Write. cbn [Writer csv.werr csv.rows app]. reflexivity.
  - reflexivity.
  - unfold ReadHeader, NewReader, csv.Read.
    cbn [Reader Writer csv.rows csv.pending fmap list_fmap]. reflexivity.
  - unfold ReadRecord, csv.Read. cbn [Header Reader csv.pending].
    pose proof (Hread (ReadHeader_loop ∅ 0 (columnNames T)) [] []) as Hr.
    cbn [length app] in Hr. rewrite Hr; [done|].
    intros k name Hk. cbn [Nat.add].
    rewrite (ReadHeader_loop_last _ ∅ 0 k name Hk); [done|].
    intros j Hj Hj'. pose proof (NoDup_lookup _ _ _ _ Hnodup Hk Hj'). lia.
Qed.

End RecordRoundTrip.

(** * Further properties of the code *)

(** ** The field loop of [ReadRecord], field by field *)
Section FieldLoop.
Context `{TimeLib} `{!FmtLib}.

(** The loop over a list of fields is the loop over its first part and,
    unless that returned an error or panicked, the loop over the rest. *)
Lemma ReadRecord_loop_app (index : gmap string nat) (values : list string)
    (pre post : list StructField) (i : nat) (record : Struct) :
  ReadRecord_loop index values (pre ++ post) i record =
  match ReadRecord_loop index values pre i record with
  | Return (record', None) =>
    ReadRecord_loop index values post (i + length pre) record'
  | res => res
  end.
Proof.
  revert i record. induction pre as [|field pre IH]; intros i record.
  - simpl. by rewrite Nat.add_0_r.
  - cbn [app ReadRecord_loop length].
    replace (i + S (length pre))%nat with (S i + length pre)%nat by lia.
    destruct (negb (isValidCSVField field)); [apply IH|].
    destruct (index !! Tag_Get (Tag field) csvTag) as [position|]; [|apply IH].
    destruct (values !! position) as [value|]; [|done].
    destruct (ReadRecord_field field value _) as [v [err|]]; [done|apply IH].
Qed.

(** The loop writes no position past its fields. *)
Lemma ReadRecord_loop_beyond (index : gmap string nat) (values : list string)
    (fields : list StructField) (i : nat) (record record' : Struct)
    (err : option error) (j : nat) :
  ReadRecord_loop index values fields i record = Return (record', err) →
  (i + length fields ≤ j)%nat →
  record' !! j = record !! j.
Proof.
  revert i record. induction fields as [|field rest IH]; intros i record.
  - simpl. by intros [= <- _] _.
  - cbn [ReadRecord_loop length]. intros Hloop Hj.
    assert (Hnext : ∀ record0,
              ReadRecord_loop index values rest (S i) record0
                = Return (record', err) →
              record' !! j = record0 !! j).
    { intros record0 Hrest. apply (IH (S i) record0 Hrest). lia. }
    destruct (negb (isValidCSVField field)); [by auto|].
    destruct (index !! Tag_Get (Tag field) csvTag) as [position|]; [|by auto].
    destruct (values !! position) as [value|]; [|done].
    destruct (ReadRecord_field field value _) as [v [e|]].
    + injection Hloop as <- _. apply list_lookup_insert_ne. lia.
    + rewrite (Hnext _ Hloop). apply list_lookup_insert_ne. lia.
Qed.

(** When the loop returns an error, the error is that of one field: the
    fields before it were decoded, and the loop returned from the body
    for that field. *)
Lemma ReadRecord_loop_error (index : gmap string nat) (values : list string)
    (fields : list StructField) (i : nat) (record record' : Struct)
    (err : error) :
  ReadRecord_loop index values fields i record = Return (record', Some err) →
  ∃ pre field post position value v record1,
    fields = pre ++ field :: post
    ∧ isValidCSVField field = true
    ∧ index !! columnName field = Some position
    ∧ values !! position = Some value
    ∧ ReadRecord_loop index values pre i record = Return (record1, None)
    ∧ ReadRecord_field field value
        (default (Zero (Typ field)) (record1 !! (i + length pre)%nat))
      = (v, Some err)
    ∧ record' = <[(i + length pre)%nat := v]> record1.
Proof.
  revert i record. induction fields as [|field rest IH]; intros i record;
    [done|].
  cbn [ReadRecord_loop]. intros Hloop.
  assert (Hnext : ∀ record0,
            ReadRecord_loop index values [field] i record
              = Return (record0, None) →
            ReadRecord_loop index values rest (S i) record0
              = Return (record', Some err) →
            ∃ pre field0 post position value v record1,
              field :: rest = pre ++ field0 :: post
              ∧ isValidCSVField field0 = true
              ∧ index !! columnName field0 = Some position
              ∧ values !! position = Some value
              ∧ ReadRecord_loop index values pre i record
                = Return (record1, None)
              ∧ ReadRecord_field field0 value
                  (default (Zero (Typ field0))
                           (record1 !! (i + length pre)%nat))
                = (v, Some err)
              ∧ record' = <[(i + length pre)%nat := v]> record1).
  { intros record0 Hfield Hrest.
    destruct (IH _ _ Hrest)
      as (pre & f & post & p & value & v & record1 & -> & ? & ? & ? & Hpre
          & Hf & ->).
    exists (field :: pre), f, post, p, value, v, record1.
    cbn [length]. replace (i + S (length pre))%nat
      with (S i + length pre)%nat by lia.
    repeat split; try done.
    change (field :: pre) with ([field] ++ pre).
    rewrite ReadRecord_loop_app, Hfield. cbn [length].
    by replace (i + 1)%nat with (S i) by lia. }
  cbn [ReadRecord_loop] in Hnext.
  destruct (isValidCSVField field) eqn:Hvalid; cbn [negb] in *; [|by eauto].
  fold (columnName field) in *.
  destruct (index !! columnName field) as [position|] eqn:Hidx; [|by eauto].
  destruct (values !! position) as [value|] eqn:Hval; [|done].
  destruct (ReadRecord_field field value _) as [v [e|]] eqn:Hfield;
    [|by eauto].
  injection Hloop as <- <-.
  exists [], field, rest, position, value, v, record.
  cbn [length app ReadRecord_loop]. rewrite Nat.add_0_r. done.
Qed.

(** The error of the body for one field is a [FieldParseError] that
    names the column, or one piece of it when the field is a slice. *)
Lemma ReadRecord_slice_error (csvTagValue : string) (elemType : Type_)
    (items : list string) (itemIndex : nat) (slice : list Value)
    (err : error) :
  ReadRecord_slice csvTagValue elemType items itemIndex slice = Err err →
  ∃ k nested, err = FieldParseError (indexedName csvTagValue k) nested.
Proof.
  revert itemIndex slice.
  induction items as [|item rest IH]; intros itemIndex slice; [done|].
  simpl. destruct (Sscanf_v item elemType) as [v|e]; [by apply IH|].
  intros [= <-]. eauto.
Qed.

Lemma ReadRecord_value_error (field : StructField) (csvTagValue value : string)
    (fieldKind : Kind.t) (fieldType : Type_) (fieldValue v : Value)
    (err : error) :
  ReadRecord_value field csvTagValue value fieldKind fieldType fieldValue
    = (v, Some err) →
  (∃ nested, err = FieldParseError csvTagValue nested)
  ∨ (fieldKind = Kind.Slice
     ∧ ∃ k nested, err = FieldParseError (indexedName csvTagValue k) nested).
Proof.
  unfold ReadRecord_value.
  destruct (ConvertibleTo_timeType fieldType && _).
  { destruct (if negb _ then _ else _) as [t|e]; [done|].
    intros [= _ <-]. left. eauto. }
  destruct (UnmarshalText (Type_Methods fieldType)) as [unmarshalText|].
  { destruct (unmarshalText fieldValue value) as [v' [e|]]; [|done].
    intros [= _ <-]. left. eauto. }
  destruct (Kind.eqb fieldKind Kind.Slice) eqn:Hkind.
  { apply Kind_eqb_eq in Hkind.
    destruct (ReadRecord_slice _ _ _ _ _) as [slice|e] eqn:Hslice; [done|].
    intros [= _ <-]. right. split; [done|].
    by eapply ReadRecord_slice_error. }
  destruct (Sscanf_v value fieldType) as [v'|e]; [done|].
  destruct e; try done; intros [= _ <-]; left; eauto.
Qed.

Lemma ReadRecord_field_error (field : StructField) (value : string)
    (fieldValue v : Value) (err : error) :
  ReadRecord_field field value fieldValue = (v, Some err) →
  (∃ nested, err = FieldParseError (columnName field) nested)
  ∨ (Type_Kind (Typ field) = Kind.Slice
     ∧ ∃ k nested,
         err = FieldParseError (indexedName (columnName field) k) nested).
Proof.
  unfold ReadRecord_field. fold (columnName field).
  destruct (Kind.eqb (Type_Kind (Typ field)) Kind.Ptr) eqn:Hptr.
  - destruct (match Tag_Lookup _ _ with Some _ => _ | None => _ end); [done|].
    destruct (ReadRecord_value _ _ _ _ _ _) as [v' e] eqn:Hvalue.
    intros [= _ ->]. apply ReadRecord_value_error in Hvalue as [?|[Hk _]].
    + by left.
    + apply Kind_eqb_eq in Hptr. congruence.
  - apply ReadRecord_value_error.
Qed.

End FieldLoop.

(** ** What [ReadRecord] returns *)
Section ReadRecordResults.
Context `{TimeLib} `{!FmtLib}.

(** [ReadRecord] with a header and a row at hand. *)
Lemma ReadRecord_row (T : StructType) (r : TypedCSVReader)
    (index : gmap string nat) (values : list string)
    (rest : list (list string + error)) :
  Header r = Some index →
  csv.pending (Reader r) = inl values :: rest →
  ReadRecord T r =
    ({| Reader := {| csv.pending := rest |}; Header := Some index |},
     match ReadRecord_loop index values T 0 (new T) with
     | Return (record, err) => Return (Some record, err)
     | Panic msg => Panic msg
     end).
Proof.
  intros Hheader Hpending. rewrite (ReadRecord_with_header T r index Hheader).
  unfold csv.Read. by rewrite Hpending.
Qed.

(** Whatever [ReadRecord] returns with a record comes from the field
    loop. *)
Lemma ReadRecord_inv (T : StructType) (r r' : TypedCSVReader)
    (record : Struct) (err : option error) :
  ReadRecord T r = (r', Return (Some record, err)) →
  ∃ index values,
    Header r = Some index
    ∧ (csv.Read (Reader r)).2 = Ok values
    ∧ ReadRecord_loop index values T 0 (new T) = Return (record, err).
Proof.
  unfold ReadRecord. destruct (Header r) as [index|]; [|done].
  destruct (csv.Read (Reader r)) as [reader [values|e]]; [|done].
  destruct (ReadRecord_loop _ _ _ _ _) as [[record0 err0]|msg] eqn:Hloop;
    [|done].
  intros [= _ <- <-]. by exists index, values.
Qed.

(** X1. Every error that [ReadRecord] returns is [ErrHeaderNotRead]
    (when the header is nil; the reader is left as it was), or the error
    of the tokenizer, or a [FieldParseError] for a valid field of [T]
    whose column is in the header. The [Field] of that error is the
    column name, or the column name with the index of a piece when the
    field is a slice. No record comes with the first two; the record
    comes with the third. *)
Theorem ReadRecord_errors_classified (T : StructType)
    (r r' : TypedCSVReader) (record : option Struct) (err : error) :
  ReadRecord T r = (r', Return (record, Some err)) →
  (Header r = None ∧ err = ErrHeaderNotRead ∧ record = None ∧ r' = r)
  ∨ (is_Some (Header r) ∧ (csv.Read (Reader r)).2 = Err err ∧ record = None)
  ∨ (∃ index field,
       Header r = Some index ∧ field ∈ T ∧ isValidCSVField field = true
       ∧ is_Some (index !! columnName field) ∧ is_Some record
       ∧ ((∃ nested, err = FieldParseError (columnName field) nested)
          ∨ (Type_Kind (Typ field) = Kind.Slice
             ∧ ∃ k nested,
                 err = FieldParseError (indexedName (columnName field) k)
                                       nested))).
Proof.
  unfold ReadRecord. destruct (Header r) as [index|] eqn:Hheader.
  - destruct (csv.Read (Reader r)) as [reader [values|e]].
    + destruct (ReadRecord_loop _ _ _ _ _) as [[record0 err0]|msg] eqn:Hloop;
        [|done].
      intros [= _ <- ->]. right. right.
      destruct (ReadRecord_loop_error _ _ _ _ _ _ _ Hloop)
        as (pre & field & post & position & value & v & record1 & -> & Hvalid
            & Hidx & _ & _ & Hfield & _).
      exists index, field. split; [done|].
      split; [apply elem_of_app; right; apply elem_of_cons; by left|].
      split; [done|]. split; [by eexists|]. split; [by eexists|].
      by eapply ReadRecord_field_error.
    + intros [= _ <- <-]. right. left. split; [by eexists|done].
  - intros [= <- <- <-]. by left.
Qed.

(** X4. When [ReadRecord] returns a record with an error, it returned
    from the body of one field: the fields declared before it hold what
    the loop decoded for them, that field holds what its body left, and
    every field declared after it has its zero value, whatever its cell
    holds. *)
Theorem ReadRecord_stops_at_first_error (T : StructType)
    (r r' : TypedCSVReader) (record : Struct) (err : error) :
  ReadRecord T r = (r', Return (Some record, Some err)) →
  ∃ index values pre field post position value v record1,
    Header r = Some index
    ∧ (csv.Read (Reader r)).2 = Ok values
    ∧ T = pre ++ field :: post
    ∧ isValidCSVField field = true
    ∧ index !! columnName field = Some position
    ∧ values !! position = Some value
    ∧ ReadRecord_loop index values pre 0 (new T) = Return (record1, None)
    ∧ ReadRecord_field field value (Zero (Typ field)) = (v, Some err)
    ∧ record = <[length pre := v]> record1
    ∧ (∀ j f, post !! j = Some f →
         record !! (length pre + S j)%nat = Some (Zero (Typ f))).
Proof.
  intros (index & values & Hheader & Hread & Hloop)%ReadRecord_inv.
  destruct (ReadRecord_loop_error _ _ _ _ _ _ _ Hloop)
    as (pre & field & post & position & value & v & record1 & HT & Hvalid
        & Hidx & Hval & Hpre & Hfield & Hrec).
  cbn [Nat.add] in *.
  assert (Hzero : ∀ j, (length pre ≤ j)%nat → record1 !! j = new T !! j).
  { intros j Hj. by apply (ReadRecord_loop_beyond _ _ _ _ _ _ _ j Hpre). }
  assert (Hnew : ∀ j f, T !! j = Some f → new T !! j = Some (Zero (Typ f))).
  { intros j f Hj. unfold new. by rewrite list_lookup_fmap, Hj. }
  exists index, values, pre, field, post, position, value, v, record1.
  repeat (split; [done|]). split; [|split; [done|]].
  - rewrite <- Hfield. f_equal.
    rewrite Hzero by done. rewrite (Hnew _ field); [done|].
    rewrite HT. by apply list_lookup_middle.
  - intros j f Hj. rewrite Hrec.
    rewrite list_lookup_insert_ne by lia. rewrite Hzero by lia.
    apply Hnew. rewrite HT.
    rewrite lookup_app_r by lia.
    by replace (length pre + S j - length pre)%nat with (S j) by lia.
Qed.

(** X5. In every record that [ReadRecord] returns, a field that is no
    CSV field (it is unexported, or has no [csv] tag, or an empty one)
    has its zero value. *)
Theorem ReadRecord_leaves_other_fields_zero (T : StructType)
    (r r' : TypedCSVReader) (record : Struct) (err : option error)
    (j : nat) (field : StructField) :
  ReadRecord T r = (r', Return (Some record, err)) →
  T !! j = Some field →
  isValidCSVField field = false →
  record !! j = Some (Zero (Typ field)).
Proof.
  intros (index & values & _ & _ & Hloop)%ReadRecord_inv Hj Hinvalid.
  rewrite (ReadRecord_loop_untouched _ _ _ _ _ _ _ j Hloop).
  - unfold new. by rewrite list_lookup_fmap, Hj.
  - right. exists field. rewrite Nat.sub_0_r. split; [done|].
    split; [lia|by left].
Qed.

(** The field loop panics only with the message of the index
    expression. *)
Lemma ReadRecord_loop_panic (index : gmap string nat) (values : list string)
    (fields : list StructField) (i : nat) (record : Struct) (msg : string) :
  ReadRecord_loop index values fields i record = Panic msg →
  msg = "index out of range".
Proof.
  revert i record. induction fields as [|field rest IH]; intros i record;
    [done|].
  cbn [ReadRecord_loop].
  destruct (negb (isValidCSVField field)); [apply IH|].
  destruct (index !! Tag_Get (Tag field) csvTag) as [position|]; [|apply IH].
  destruct (values !! position) as [value|]; [|by intros [= <-]].
  destruct (ReadRecord_field field value _) as [v [e|]]; [done|apply IH].
Qed.

(** X3. [values[index]] is not guarded: when a valid field has its
    column at a position past the end of the row, [ReadRecord] panics,
    unless an earlier field has already made it return with an error. *)
Theorem ReadRecord_short_row_panics (T : StructType) (r : TypedCSVReader)
    (index : gmap string nat) (values : list string)
    (rest : list (list string + error)) (pre post : list StructField)
    (field : StructField) (position : nat) :
  Header r = Some index →
  csv.pending (Reader r) = inl values :: rest →
  T = pre ++ field :: post →
  (∀ record1 err,
     ReadRecord_loop index values pre 0 (new T) ≠ Return (record1, Some err)) →
  isValidCSVField field = true →
  index !! columnName field = Some position →
  (length values ≤ position)%nat →
  ReadRecord T r =
    ({| Reader := {| csv.pending := rest |}; Header := Some index |},
     Panic "index out of range").
Proof.
  intros Hheader Hpending HT Hpre Hvalid Hidx Hshort.
  rewrite (ReadRecord_row T r index values rest Hheader Hpending).
  f_equal. rewrite HT at 1. rewrite ReadRecord_loop_app.
  destruct (ReadRecord_loop index values pre 0 (new T))
    as [[record1 [err|]]|msg] eqn:Hloop.
  - by destruct (Hpre record1 err).
  - cbn [ReadRecord_loop]. rewrite Hvalid. cbn [negb].
    fold (columnName field). rewrite Hidx.
    by rewrite (proj2 (lookup_ge_None _ _) Hshort).
  - by rewrite (ReadRecord_loop_panic _ _ _ _ _ _ Hloop).
Qed.

(** The field loop returns when every position of the index is a
    position of the row. *)
Lemma ReadRecord_loop_in_range (index : gmap string nat)
    (values : list string) (fields : list StructField) (i : nat)
    (record : Struct) :
  (∀ name position, index !! name = Some position →
                    (position < length values)%nat) →
  ∃ record' err,
    ReadRecord_loop index values fields i record = Return (record', err).
Proof.
  intros Hrange. revert i record.
  induction fields as [|field rest IH]; intros i record; [by eexists _, _|].
  cbn [ReadRecord_loop].
  destruct (negb (isValidCSVField field)); [apply IH|].
  destruct (index !! Tag_Get (Tag field) csvTag) as [position|] eqn:Hidx;
    [|apply IH].
  apply Hrange in Hidx. apply lookup_lt_is_Some_2 in Hidx as [value ->].
  destruct (ReadRecord_field field value _) as [v [e|]];
    [by eexists _, _|apply IH].
Qed.

(** X2. After [ReadHeader] has read a header row, [ReadRecord] on a row
    with at least as many cells returns: it takes the row and gives a
    record, with or without an error, and does not panic. *)
Theorem ReadRecord_full_row_returns (T : StructType) (r0 : TypedCSVReader)
    (header values : list string) (rest : list (list string + error)) :
  csv.pending (Reader r0) = inl header :: inl values :: rest →
  (length header ≤ length values)%nat →
  ∃ r1 record err,
    ReadHeader r0 = (r1, None)
    ∧ ReadRecord T r1 =
        ({| Reader := {| csv.pending := rest |}; Header := Header r1 |},
         Return (Some record, err)).
Proof.
  intros Hpending Hlen.
  destruct (ReadRecord_loop_in_range (ReadHeader_loop ∅ 0 header) values T 0
              (new T)) as (record & err & Hloop).
  { intros name position Hidx.
    apply ReadHeader_loop_inv in Hidx as [[_ Hempty]|(j & -> & Hj & _)].
    - by rewrite lookup_empty in Hempty.
    - apply lookup_lt_Some in Hj. lia. }
  eexists _, record, err. split.
  - unfold ReadHeader, csv.Read. rewrite Hpending. reflexivity.
  - erewrite ReadRecord_row; [|reflexivity|reflexivity].
    cbn [Header]. by rewrite Hloop.
Qed.

(** X6. A pointer field is nil after its body has run only when the
    field declares a null token and the cell is that token, and then
    without error: every other cell, the empty one too, leaves a non-nil
    pointer. *)
Theorem pointer_is_nil_only_for_null_token (field : StructField)
    (value : string) (fieldValue : Value) (err : option error) :
  Type_Kind (Typ field) = Kind.Ptr →
  ReadRecord_field field value fieldValue = (VPtr None, err) →
  Tag_Lookup (Tag field) nullTag = Some value ∧ err = None.
Proof.
  intros Hkind. unfold ReadRecord_field. rewrite Hkind. cbn [Kind.eqb].
  destruct (Tag_Lookup (Tag field) nullTag) as [token|].
  - destruct (bool_decide_reflect (value = token)) as [->|_].
    + by intros [= _ <-].
    + by destruct (ReadRecord_value _ _ _ _ _ _).
  - by destruct (ReadRecord_value _ _ _ _ _ _).
Qed.

End ReadRecordResults.

(** ** Records decoded without error *)
Section FieldByField.
Context `{TimeLib} `{!FmtLib}.

(** The loop keeps the length of the record. *)
Lemma ReadRecord_loop_length (index : gmap string nat) (values : list string)
    (fields : list StructField) (i : nat) (record record' : Struct)
    (err : option error) :
  ReadRecord_loop index values fields i record = Return (record', err) →
  length record' = length record.
Proof.
  revert i record. induction fields as [|field rest IH]; intros i record.
  - simpl. by intros [= <- _].
  - cbn [ReadRecord_loop].
    destruct (negb (isValidCSVField field)); [apply IH|].
    destruct (index !! Tag_Get (Tag field) csvTag) as [position|]; [|apply IH].
    destruct (values !! position) as [value|]; [|done].
    destruct (ReadRecord_field field value _) as [v [e|]].
    + intros [= <- _]. by rewrite length_insert.
    + intros Hrest%IH. by rewrite length_insert in Hrest.
Qed.

(** When the loop returns without error, it has decoded every field:
    a CSV field whose column is in the index holds what its body made of
    its cell and of the value the field had, and every other field holds
    the value it had. *)
Lemma ReadRecord_loop_fields (index : gmap string nat) (values : list string)
    (fields : list StructField) (i : nat) (record record' : Struct)
    (k : nat) (field : StructField) :
  ReadRecord_loop index values fields i record = Return (record', None) →
  fields !! k = Some field →
  (i + k < length record)%nat →
  match (if isValidCSVField field then index !! columnName field
         else None) with
  | None => record' !! (i + k)%nat = record !! (i + k)%nat
  | Some position =>
    ∃ value v,
      values !! position = Some value
      ∧ ReadRecord_field field value
          (default (Zero (Typ field)) (record !! (i + k)%nat)) = (v, None)
      ∧ record' !! (i + k)%nat = Some v
  end.
Proof.
  intros Hloop Hk Hlen.
  destruct (list_elem_of_split_length _ _ _ Hk) as (pre & post & -> & ->).
  rewrite ReadRecord_loop_app in Hloop.
  destruct (ReadRecord_loop index values pre i record)
    as [[record1 [e|]]|msg] eqn:Hpre; [done| |done].
  pose proof (ReadRecord_loop_beyond _ _ _ _ _ _ _ (i + length pre) Hpre
                ltac:(lia)) as Hbefore.
  pose proof (ReadRecord_loop_length _ _ _ _ _ _ _ Hpre) as Hlen1.
  cbn [ReadRecord_loop] in Hloop.
  destruct (isValidCSVField field) eqn:Hvalid; cbn [negb] in Hloop.
  - fold (columnName field) in Hloop.
    destruct (index !! columnName field) as [position|] eqn:Hidx.
    + destruct (values !! position) as [value|] eqn:Hval; [|done].
      rewrite Hbefore in Hloop.
      destruct (ReadRecord_field field value _) as [v [e|]] eqn:Hfield;
        [done|].
      exists value, v. split; [done|]. split; [done|].
      rewrite (ReadRecord_loop_untouched _ _ _ _ _ _ _ (i + length pre) Hloop)
        by (left; lia).
      apply list_lookup_insert_eq. lia.
    + rewrite (ReadRecord_loop_untouched _ _ _ _ _ _ _ (i + length pre) Hloop)
        by (left; lia).
      done.
  - rewrite (ReadRecord_loop_untouched _ _ _ _ _ _ _ (i + length pre) Hloop)
      by (left; lia).
    done.
Qed.

(** X25. A record that [ReadRecord] returns without error is decoded
    field by field: a CSV field whose column is in the header holds what
    the body of the loop makes of the cell at the position of the column,
    starting from the zero value, and every other field has its zero
    value. *)
Theorem ReadRecord_decodes_field_by_field (T : StructType)
    (r r' : TypedCSVReader) (record : Struct) :
  ReadRecord T r = (r', Return (Some record, None)) →
  ∃ index values,
    Header r = Some index
    ∧ (csv.Read (Reader r)).2 = Ok values
    ∧ length record = length T
    ∧ ∀ j field,
        T !! j = Some field →
        match (if isValidCSVField field then index !! columnName field
               else None) with
        | None => record !! j = Some (Zero (Typ field))
        | Some position =>
          ∃ value v,
            values !! position = Some value
            ∧ ReadRecord_field field value (Zero (Typ field)) = (v, None)
            ∧ record !! j = Some v
        end.
Proof.
  intros (index & values & Hheader & Hread & Hloop)%ReadRecord_inv.
  exists index, values. split; [done|]. split; [done|].
  assert (Hnew : ∀ j field, T !! j = Some field →
                            new T !! j = Some (Zero (Typ field))).
  { intros j field Hj. unfold new. by rewrite list_lookup_fmap, Hj. }
  split.
  - rewrite (ReadRecord_loop_length _ _ _ _ _ _ _ Hloop).
    unfold new. by rewrite length_fmap.
  - intros j field Hj.
    pose proof (ReadRecord_loop_fields index values T 0 (new T) record j field
                  Hloop Hj) as Hfield.
    cbn [Nat.add] in Hfield. rewrite (Hnew j field Hj) in Hfield.
    apply Hfield. unfold new. rewrite length_fmap.
    by apply lookup_lt_Some in Hj.
Qed.

End FieldByField.

(** ** What [ReadAll] returns *)
Section ReadAllResults.
Context `{TimeLib} `{!FmtLib}.

Lemma ReadRecord_ok_record (T : StructType) (r r' : TypedCSVReader)
    (record : option Struct) :
  ReadRecord T r = (r', Return (record, None)) → is_Some record.
Proof.
  unfold ReadRecord. destruct (Header r) as [index|]; [|done].
  destruct (csv.Read (Reader r)) as [reader [values|e]]; [|done].
  destruct (ReadRecord_loop _ _ _ _ _) as [[record0 err0]|msg]; [|done].
  intros [= _ <- _]. by eexists.
Qed.

Lemma ReadAll_loop_results (fuel : nat) (T : StructType)
    (r r' : TypedCSVReader) (records0 records : list (option Struct))
    (err : option error) :
  Forall is_Some records0 →
  ReadAll_loop fuel T r records0 = Some (r', Return (records, err)) →
  err ≠ Some EOF ∧ Forall is_Some records.
Proof.
  revert r records0. induction fuel as [|fuel IH]; intros r records0 Hsome;
    [done|].
  cbn [ReadAll_loop].
  destruct (ReadRecord T r) as [r1 [[record [e|]]|msg]] eqn:Hrec.
  - destruct e; intros [= _ <- <-]; done.
  - apply IH. apply Forall_app. split; [done|].
    constructor; [|done]. by eapply ReadRecord_ok_record.
  - done.
Qed.

(** X18. [ReadAll] never returns [io.EOF] as its error, and no record
    of the collection it returns is nil, whether it ends with an error
    or not. *)
Theorem ReadAll_no_EOF_no_nil (T : StructType) (r r' : TypedCSVReader)
    (records : list (option Struct)) (err : option error) :
  ReadAll T r = Some (r', Return (records, err)) →
  err ≠ Some EOF ∧ ∀ record, record ∈ records → is_Some record.
Proof.
  intros Hall.
  destruct (ReadAll_loop_results _ _ _ _ [] _ _ ltac:(done) Hall)
    as [Herr Hrecords].
  split; [done|]. by apply Forall_forall.
Qed.

End ReadAllResults.

(** ** What [WriteRecord] writes *)
Section WriteRecordResults.
Context `{TimeLib} `{!FmtLib}.

(** The cells of a row: one per CSV field, in order, each what the body
    of the loop makes of the value of its field. *)
Lemma WriteRecord_loop_cells (fields : list StructField) (i : nat)
    (record : Struct) (values cells : list string) :
  WriteRecord_loop fields i record values = Ok cells →
  ∃ row,
    cells = values ++ row
    ∧ Forall2 (λ p cell,
                 WriteRecord_field p.2
                   (default (Zero (Typ p.2)) (record !! p.1)) = Ok cell)
              (filter (λ p, isValidCSVField p.2 = true)
                      (imap (λ j, pair (i + j)%nat) fields))
              row.
Proof.
  revert i values. induction fields as [|field rest IH]; intros i values.
  - simpl. intros [= <-]. exists []. by rewrite app_nil_r.
  - cbn [WriteRecord_loop imap]. rewrite filter_cons. cbn [snd fst].
    rewrite Nat.add_0_r.
    assert (Himap : imap ((λ j, pair (i + j)%nat) ∘ S) rest
                    = imap (λ j, pair (S i + j)%nat) rest).
    { apply imap_ext. intros j f _. simpl. f_equal. lia. }
    rewrite Himap.
    destruct (isValidCSVField field) eqn:Hvalid; cbn [negb].
    + rewrite decide_True by done.
      destruct (WriteRecord_field field _) as [cell|e] eqn:Hcell; [|done].
      intros (row & -> & Hrow)%IH. exists (cell :: row).
      split; [by rewrite <- app_assoc|]. by constructor.
    + rewrite decide_False by done. apply IH.
Qed.

Lemma imap_pair_0 (T : StructType) : imap (λ j, pair (0 + j)%nat) T = imap pair T.
Proof. by apply imap_ext. Qed.

Lemma columnNames_imap (fields : list StructField) (i : nat) :
  columnNames fields
  = (λ p, columnName p.2)
      <$> filter (λ p, isValidCSVField p.2 = true)
                 (imap (λ j, pair (i + j)%nat) fields).
Proof.
  revert i. induction fields as [|field rest IH]; intros i; [done|].
  rewrite columnNames_cons. cbn [imap]. rewrite filter_cons. cbn [snd].
  assert (Himap : imap ((λ j, pair (i + j)%nat) ∘ S) rest
                  = imap (λ j, pair (S i + j)%nat) rest).
  { apply imap_ext. intros j f _. simpl. f_equal. lia. }
  rewrite Himap, (IH (S i)).
  destruct (isValidCSVField field).
  - by rewrite decide_True.
  - by rewrite decide_False.
Qed.

(** The header row names the CSV fields in their order. *)
Lemma columnNames_csvFields (T : StructType) :
  columnNames T = (λ p, columnName p.2) <$> csvFields T.
Proof.
  unfold csvFields. rewrite <- imap_pair_0. apply columnNames_imap.
Qed.

(** X20. When [WriteRecord] returns without error it has written one
    row, with one cell for each CSV field of [T] in the order declared:
    the cells stand under the column names that [WriteHeader] writes,
    and each is what the body of the loop makes of the value of its
    field. *)
Theorem WriteRecord_row_lines_up_with_header (T : StructType)
    (w w' : TypedCSVWriter) (record : Struct) :
  WriteRecord T w record = (w', None) →
  ∃ row,
    csv.rows (Writer w') = csv.rows (Writer w) ++ [row]
    ∧ WriteHeader_loop T [] = (λ p, columnName p.2) <$> csvFields T
    ∧ length row = length (WriteHeader_loop T [])
    ∧ Forall2 (λ p cell,
                 WriteRecord_field p.2
                   (default (Zero (Typ p.2)) (record !! p.1)) = Ok cell)
              (csvFields T) row.
Proof.
  unfold WriteRecord.
  destruct (WriteRecord_loop T 0 record []) as [cells|e] eqn:Hloop; [|done].
  apply WriteRecord_loop_cells in Hloop as (row & -> & Hrow).
  rewrite imap_pair_0 in Hrow. fold (csvFields T) in Hrow.
  unfold csv.Write. destruct (csv.werr (Writer w)) as [e|]; [done|].
  intros [= <-]. exists row. cbn [Writer csv.rows app].
  rewrite WriteHeader_loop_columnNames. cbn [app].
  split; [done|]. split; [apply columnNames_csvFields|]. split; [|done].
  rewrite columnNames_csvFields, length_fmap.
  symmetry. by eapply Forall2_length.
Qed.

(** The error of the field loop is the error of one field. *)
Lemma WriteRecord_value_error (field : StructField) (csvTagValue : string)
    (fieldKind : Kind.t) (fieldType : Type_) (fieldValue : Value)
    (err : error) :
  WriteRecord_value field csvTagValue fieldKind fieldType fieldValue = Err err →
  ∃ nested, err = FieldFormatError csvTagValue nested.
Proof.
  unfold WriteRecord_value.
  destruct (if ConvertibleTo_timeType fieldType then _ else _) as [layout|].
  { destruct (Tag_Lookup (Tag field) timeLocationTag) as [name|]; [|done].
    destruct (LoadLocation name) as [location|e]; [done|].
    intros [= <-]. eauto. }
  destruct (MarshalText (Type_Methods fieldType)) as [marshalText|].
  { destruct (marshalText fieldValue) as [text|e]; [done|].
    intros [= <-]. eauto. }
  destruct (Kind.eqb fieldKind Kind.Slice); [done|].
  by destruct (Tag_Lookup (Tag field) formatTag).
Qed.

Lemma WriteRecord_field_error (field : StructField) (fieldValue : Value)
    (err : error) :
  WriteRecord_field field fieldValue = Err err →
  ∃ nested, err = FieldFormatError (columnName field) nested.
Proof.
  unfold WriteRecord_field. fold (columnName field).
  destruct (Kind.eqb (Type_Kind (Typ field)) Kind.Ptr).
  - destruct fieldValue as [| | | | | | |[v|]|]; try done.
    apply WriteRecord_value_error.
  - apply WriteRecord_value_error.
Qed.

Lemma WriteRecord_loop_error (fields : list StructField) (i : nat)
    (record : Struct) (values : list string) (err : error) :
  WriteRecord_loop fields i record values = Err err →
  ∃ field nested,
    field ∈ fields ∧ isValidCSVField field = true
    ∧ err = FieldFormatError (columnName field) nested.
Proof.
  revert i values. induction fields as [|field rest IH]; intros i values;
    [done|].
  cbn [WriteRecord_loop].
  assert (Hnext : ∀ i values,
            WriteRecord_loop rest i record values = Err err →
            ∃ field0 nested,
              field0 ∈ field :: rest ∧ isValidCSVField field0 = true
              ∧ err = FieldFormatError (columnName field0) nested).
  { intros i0 values0 (f & nested & Hin & ? & ?)%IH.
    exists f, nested. split; [by apply elem_of_cons; right|done]. }
  destruct (isValidCSVField field) eqn:Hvalid; cbn [negb]; [|by apply Hnext].
  destruct (WriteRecord_field field _) as [cell|e] eqn:Hcell;
    [by apply Hnext|].
  intros [= <-]. apply WriteRecord_field_error in Hcell as [nested ->].
  exists field, nested. split; [by apply elem_of_cons; left|done].
Qed.

(** X21. Every error of [WriteRecord] is one of two. Either it is a
    [FieldFormatError] that names the column of a CSV field of [T]; it
    is returned before the underlying writer is called, which is left as
    it was. Or every field has been formatted, and the error is the one
    the underlying writer returned for the whole row, with the writer as
    that call left it. (Nothing is said of how the underlying writer
    fails: its [Write] is not looked into.) *)
Theorem WriteRecord_errors_classified (T : StructType) (w w' : TypedCSVWriter)
    (record : Struct) (err : error) :
  WriteRecord T w record = (w', Some err) →
  (w' = w
   ∧ ∃ field nested,
       field ∈ T ∧ isValidCSVField field = true
       ∧ err = FieldFormatError (columnName field) nested)
  ∨ (∃ row,
       WriteRecord_loop T 0 record [] = Ok row
       ∧ csv.Write (Writer w) row = (Writer w', Some err)).
Proof.
  unfold WriteRecord.
  destruct (WriteRecord_loop T 0 record []) as [cells|e] eqn:Hloop.
  - destruct (csv.Write (Writer w) cells) as [writer e] eqn:Hcsv.
    intros [= <- ->]. right. by exists cells.
  - intros [= <- <-]. left. split; [done|].
    by eapply WriteRecord_loop_error.
Qed.

Lemma WriteRecord_loop_ext (fields : list StructField) (i : nat)
    (record1 record2 : Struct) (values : list string) :
  (∀ j field, fields !! j = Some field → isValidCSVField field = true →
              record1 !! (i + j)%nat = record2 !! (i + j)%nat) →
  WriteRecord_loop fields i record1 values
  = WriteRecord_loop fields i record2 values.
Proof.
  revert i values. induction fields as [|field rest IH]; intros i values Hagree;
    [done|].
  cbn [WriteRecord_loop].
  assert (Hrest : ∀ values,
            WriteRecord_loop rest (S i) record1 values
            = WriteRecord_loop rest (S i) record2 values).
  { intros values0. apply IH. intros j f Hj Hvalid.
    replace (S i + j)%nat with (i + S j)%nat by lia.
    by apply (Hagree (S j) f). }
  destruct (isValidCSVField field) eqn:Hvalid; cbn [negb]; [|done].
  pose proof (Hagree 0%nat field eq_refl Hvalid) as Hhere.
  rewrite Nat.add_0_r in Hhere. rewrite Hhere.
  by destruct (WriteRecord_field field _).
Qed.

(** X22. What [WriteRecord] writes and returns depends on the values
    of the CSV fields only: two records that agree on these give the
    same row, or the same error. *)
Theorem WriteRecord_ignores_other_fields (T : StructType) (w : TypedCSVWriter)
    (record1 record2 : Struct) :
  (∀ j field, T !! j = Some field → isValidCSVField field = true →
              record1 !! j = record2 !! j) →
  WriteRecord T w record1 = WriteRecord T w record2.
Proof.
  intros Hagree. unfold WriteRecord.
  by rewrite (WriteRecord_loop_ext T 0 record1 record2 []).
Qed.

End WriteRecordResults.

(** ** Many records *)
Section ManyRecords.
Context `{TimeLib} `{!FmtLib}.

(** X24. For a record type with distinct column names and records that
    survive writing and reading back one by one: there are rows, one for
    each record, such that [WriteRecord] appends the row of a record to
    any writer that is not in error, and [ReadHeader] followed by
    [ReadAll] on the header row and these rows returns the records, in
    order and without error, and leaves nothing to read. *)
Theorem write_records_then_ReadAll (T : StructType) (records : list Struct) :
  NoDup (columnNames T) →
  Forall (recordRoundTrips T) records →
  ∃ rows : list (list string),
    Forall2 (λ record row, ∀ w,
               csv.werr (Writer w) = None →
               WriteRecord T w record =
                 ({| Writer := {| csv.rows := csv.rows (Writer w) ++ [row];
                                  csv.werr := None |} |}, None))
            records rows
    ∧ ∃ r1,
        ReadHeader (NewReader {| csv.pending := inl <$> columnNames T :: rows |})
        = (r1, None)
        ∧ ReadAll T r1
          = Some ({| Reader := {| csv.pending := [] |}; Header := Header r1 |},
                  Return (Some <$> records, None)).
Proof.
  intros Hnodup Hall.
  set (index := ReadHeader_loop ∅ 0 (columnNames T)).
  assert (Hindex : ∀ k name, columnNames T !! k = Some name →
                             index !! name = Some (0 + k)%nat).
  { intros k name Hk. unfold index.
    rewrite (ReadHeader_loop_last _ ∅ 0 k name Hk); [done|].
    intros j Hj Hj'. pose proof (NoDup_lookup _ _ _ _ Hnodup Hk Hj'). lia. }
  assert (Hrows : ∃ rows : list (list string),
            Forall2 (λ record row,
                       WriteRecord_loop T 0 record [] = Ok row
                       ∧ ReadRecord_loop index row T 0 (new T)
                         = Return (record, None)) records rows).
  { induction Hall as [|record records Hrecord _ (rows & IH)]; [by exists []|].
    destruct (loops_round_trip T record Hrecord) as (cells & Hwrite & Hread).
    exists (cells :: rows). constructor; [|done]. split.
    - apply (Hwrite [] []).
    - by apply (Hread index [] []). }
  destruct Hrows as (rows & Hrows). exists rows. split.
  - eapply Forall2_impl; [exact Hrows|].
    intros record row [Hwrite _] w Hok. cbv beta.
    unfold WriteRecord. rewrite Hwrite. unfold csv.Write. by rewrite Hok.
  - exists {| Reader := {| csv.pending := inl <$> rows |};
              Header := Some index |}.
    split; [done|].
    unfold ReadAll. cbn [Reader Header csv.pending].
    rewrite length_fmap.
    replace (S (length rows)) with (length rows + 1)%nat by lia.
    rewrite <- (app_nil_r (inl <$> rows)).
    fold index.
    rewrite (ReadAll_loop_collect T index rows records [] 1 []).
    + done.
    + eapply Forall2_flip, Forall2_impl; [exact Hrows|]. by intros ? ? [_ ?].
Qed.

End ManyRecords.

(** ** [ReadAll] on rows as long as the header *)
Section ReadAllReturns.
Context `{TimeLib} `{!FmtLib}.

Lemma ReadAll_loop_in_range (fuel : nat) (T : StructType)
    (index : gmap string nat) (bound : nat)
    (pending : list (list string + error)) (records : list (option Struct)) :
  (∀ name position, index !! name = Some position → (position < bound)%nat) →
  Forall (λ row, match row with
                 | inl values => (bound ≤ length values)%nat
                 | inr _ => True
                 end) pending →
  (length pending < fuel)%nat →
  ∃ r' records' err,
    ReadAll_loop fuel T {| Reader := {| csv.pending := pending |};
                           Header := Some index |} records
    = Some (r', Return (records', err)).
Proof.
  intros Hindex. revert pending records.
  induction fuel as [|fuel IH]; intros pending records Hrows Hfuel; [lia|].
  cbn [ReadAll_loop].
  destruct pending as [|[values|e] rest].
  - unfold ReadRecord, csv.Read. cbn [Header Reader csv.pending].
    by eexists _, _, _.
  - apply Forall_cons in Hrows as [Hvalues Hrest].
    erewrite ReadRecord_row; [|reflexivity|reflexivity].
    destruct (ReadRecord_loop_in_range index values T 0 (new T))
      as (record & err & ->).
    { intros name position Hp. apply Hindex in Hp. lia. }
    destruct err as [err|].
    + destruct err; by eexists _, _, _.
    + apply IH; [done|]. simpl in Hfuel. lia.
  - unfold ReadRecord, csv.Read. cbn [Header Reader csv.pending].
    destruct e; by eexists _, _, _.
Qed.

(** X19. After [ReadHeader] has read a header row, [ReadAll] returns,
    with the records and possibly an error, and does not panic, when
    every row that the tokenizer still yields has at least as many cells
    as the header row. *)
Theorem ReadAll_full_rows_returns (T : StructType) (r0 : TypedCSVReader)
    (header : list string) (pending : list (list string + error)) :
  csv.pending (Reader r0) = inl header :: pending →
  Forall (λ row, match row with
                 | inl values => (length header ≤ length values)%nat
                 | inr _ => True
                 end) pending →
  ∃ r1 r2 records err,
    ReadHeader r0 = (r1, None)
    ∧ ReadAll T r1 = Some (r2, Return (records, err)).
Proof.
  intros Hpending Hrows.
  destruct (ReadAll_loop_in_range (S (length pending)) T
              (ReadHeader_loop ∅ 0 header) (length header) pending [])
    as (r2 & records & err & Hall); [|done|lia|].
  { intros name position Hidx.
    apply ReadHeader_loop_inv in Hidx as [[_ Hempty]|(j & -> & Hj & _)].
    - by rewrite lookup_empty in Hempty.
    - apply lookup_lt_Some in Hj. lia. }
  eexists _, r2, records, err. split.
  - unfold ReadHeader, csv.Read. rewrite Hpending. reflexivity.
  - exact Hall.
Qed.

End ReadAllReturns.

(** ** Runes of a text and of what follows it *)
Section RunesOfAppend.
Local Open Scope Z_scope.

(** A valid encoding at the front of the input is decoded without
    looking at what follows it. *)
Lemma DecodeRune_app (p q : list Z) (r : Z) (n : nat) :
  utf8.DecodeRune p = (r, n) →
  (r =? utf8.RuneError) && (n =? 1)%nat = false →
  p ≠ [] →
  utf8.DecodeRune (p ++ q) = (r, n) ∧ (1 ≤ n ≤ length p)%nat.
Proof.
  intros Hdec Hbad Hne. destruct p as [|p0 t]; [done|]. clear Hne.
  revert Hdec. cbn [app]. unfold utf8.DecodeRune.
  assert (Hno : ∀ P : Prop, (utf8.RuneError, 1%nat) = (r, n) → P).
  { intros P [= <- <-]. done. }
  destruct (p0 <? 0x80).
  { intros [= <- <-]. simpl. split; [done|lia]. }
  destruct ((p0 <? 0xC2) || (0xF4 <? p0)); [by apply Hno|].
  destruct (p0 <? 0xE0).
  { destruct t as [|b1 t]; [by apply Hno|]. cbn [app].
    destruct (utf8.cont 0x80 0xBF b1); [|by apply Hno].
    intros [= <- <-]. simpl. split; [done|lia]. }
  destruct (p0 <? 0xF0).
  { destruct t as [|b1 [|b2 t]]; [by apply Hno..|]. cbn [app].
    destruct (utf8.cont _ _ b1 && utf8.cont _ _ b2); [|by apply Hno].
    intros [= <- <-]. simpl. split; [done|lia]. }
  destruct t as [|b1 [|b2 [|b3 t]]]; [by apply Hno..|]. cbn [app].
  destruct (utf8.cont _ _ b1 && utf8.cont _ _ b2 && utf8.cont _ _ b3);
    [|by apply Hno].
  intros [= <- <-]. simpl. split; [done|lia].
Qed.

(** Every step of decoding takes at least one byte. *)
Lemma DecodeRune_size (p0 : Z) (t : list Z) :
  (1 ≤ (utf8.DecodeRune (p0 :: t)).2)%nat.
Proof.
  unfold utf8.DecodeRune.
  repeat match goal with
         | |- context [if ?b then _ else _] => destruct b
         | |- context [match ?l with [] => _ | _ :: _ => _ end] => destruct l
         end; simpl; lia.
Qed.

(** Fuel beyond the length of the input changes nothing. *)
Lemma chunks_go_fuel (fuel1 fuel2 : nat) (p : list Z) :
  (length p ≤ fuel1)%nat → (length p ≤ fuel2)%nat →
  utf8.chunks_go fuel1 p = utf8.chunks_go fuel2 p.
Proof.
  revert fuel2 p. induction fuel1 as [|fuel1 IH]; intros fuel2 p H1 H2.
  - destruct p; [|simpl in H1; lia]. by destruct fuel2.
  - destruct p as [|p0 t]; [by destruct fuel2|].
    destruct fuel2 as [|fuel2]; [simpl in H2; lia|].
    cbn [utf8.chunks_go].
    pose proof (DecodeRune_size p0 t) as Hsize.
    destruct (utf8.DecodeRune (p0 :: t)) as [r n]. cbn [snd] in Hsize.
    f_equal. apply IH; rewrite length_drop; simpl in *; lia.
Qed.

(** The runes of a valid text followed by another text. *)
Lemma chunks_go_app (fuel : nat) (p q : list Z) :
  (length p ≤ fuel)%nat →
  utf8.ValidString_go fuel p = true →
  utf8.chunks_go (fuel + length q) (p ++ q)
  = utf8.chunks_go fuel p ++ utf8.chunks_go (length q) q.
Proof.
  revert p. induction fuel as [|fuel IH]; intros p Hfuel Hvalid.
  - destruct p; [|simpl in Hfuel; lia]. done.
  - destruct p as [|p0 t].
    + cbn [app utf8.chunks_go]. apply chunks_go_fuel; lia.
    + cbn [utf8.ValidString_go] in Hvalid.
      change (S fuel + length q)%nat with (S (fuel + length q)).
      cbn [utf8.chunks_go].
      destruct (utf8.DecodeRune (p0 :: t)) as [r n] eqn:Hdec.
      destruct ((r =? utf8.RuneError) && (n =? 1)%nat) eqn:Hbad; [done|].
      destruct (DecodeRune_app (p0 :: t) q r n Hdec Hbad ltac:(done))
        as [Happ Hn].
      cbn [app] in Happ. cbn [app]. rewrite Happ. f_equal.
      * f_equal. change (p0 :: t ++ q) with ((p0 :: t) ++ q).
        rewrite take_app_le by lia. done.
      * change (p0 :: t ++ q) with ((p0 :: t) ++ q).
        rewrite drop_app_le by lia. apply IH; [|done].
        rewrite length_drop. simpl in *. lia.
Qed.

Lemma runes_app (s1 s2 : string) :
  utf8.ValidString s1 = true →
  utf8.runes (s1 +:+ s2) = utf8.runes s1 ++ utf8.runes s2.
Proof.
  intros Hvalid. unfold utf8.runes, utf8.chunks.
  rewrite bytes_of_app, length_app, <- fmap_app.
  f_equal. by apply chunks_go_app.
Qed.

(** The runes of a valid text are encoded as the bytes of the text. *)
Lemma EncodeRune_chunks (fuel : nat) (p : list Z) :
  Forall (λ b, 0 ≤ b < 256) p → (length p ≤ fuel)%nat →
  utf8.ValidString_go fuel p = true →
  concat (utf8.EncodeRune <$> (utf8.chunks_go fuel p).*1) = p.
Proof.
  revert p. induction fuel as [|fuel IH]; intros p Hp Hfuel.
  - destruct p; [done|simpl in Hfuel; lia].
  - destruct p as [|p0 t]; [done|].
    cbn [utf8.ValidString_go utf8.chunks_go].
    destruct (utf8.DecodeRune (p0 :: t)) as [r n] eqn:Hdec.
    destruct ((r =? utf8.RuneError) && (n =? 1)%nat) eqn:Hbad; [done|].
    destruct (DecodeRune_EncodeRune _ _ _ Hp ltac:(done) Hdec Hbad)
      as [Henc Hn].
    intros Hvalid. cbn [fmap list_fmap fst concat].
    rewrite IH; [| | |done].
    + rewrite Henc. by rewrite take_drop.
    + by apply Forall_drop.
    + rewrite length_drop. simpl in *. lia.
Qed.

Lemma EncodeRune_runes (s : string) :
  utf8.ValidString s = true →
  concat (utf8.EncodeRune <$> utf8.runes s) = bytes_of s.
Proof.
  intros Hvalid. apply EncodeRune_chunks; [apply bytes_of_bytes|lia|done].
Qed.

End RunesOfAppend.

(** ** Cells that hold more than a value *)
Section DefaultBranch.
Context `{TimeLib} `{!FmtLib}.
Local Open Scope Z_scope.

Lemma ReadRecord_field_default (field : StructField) (value : string)
    (fieldValue : Value) :
  scannedByDefault field →
  ReadRecord_field field value fieldValue =
  match Sscanf_v value (Typ field) with
  | Err EOF => (Zero (Typ field), None)
  | Err err => (fieldValue, Some (FieldParseError (columnName field) err))
  | Ok v => (v, None)
  end.
Proof.
  intros (Hptr & Hslice & Htime & Hno).
  unfold ReadRecord_field, ReadRecord_value.
  rewrite (Kind_eqb_ne _ _ Hptr), (Kind_eqb_ne _ _ Hslice), Htime, Hno.
  done.
Qed.

(** A field of a scalar type without [UnmarshalText] is one. *)
Lemma scalar_scannedByDefault (field : StructField) :
  match Underlying (Typ field) with
  | TBool | TInt _ | TUint _ | TFloat _ | TString => True
  | _ => False
  end →
  UnmarshalText (Type_Methods (Typ field)) = None →
  scannedByDefault field.
Proof.
  intros Hscalar Hno. unfold scannedByDefault, ConvertibleTo_timeType.
  rewrite <- (Type_Kind_Underlying (Typ field)).
  destruct (Underlying (Typ field)) as [|k|k|k| | | | | |]; try done;
    destruct k; done.
Qed.

Lemma token_loop_app (f : Z → bool) (l1 l2 buffer : list Z) :
  forallb f l1 = true →
  token_loop f (l1 ++ l2) buffer
  = token_loop f l2 (buffer ++ concat (utf8.EncodeRune <$> l1)).
Proof.
  revert buffer. induction l1 as [|r l1 IH]; intros buffer Hall.
  - simpl. by rewrite app_nil_r.
  - cbn [forallb] in Hall. apply andb_true_iff in Hall as [Hr Hall].
    cbn [app token_loop]. rewrite Hr, IH by done.
    cbn [fmap list_fmap concat]. by rewrite <- app_assoc.
Qed.

Lemma token_loop_stop (f : Z → bool) (l buffer : list Z) :
  match l with [] => True | c :: _ => f c = false end →
  token_loop f l buffer = (l, buffer).
Proof. destruct l as [|c l]; [done|]. simpl. by intros ->. Qed.

(** The first rune of a non-empty text. *)
Lemma runes_nonempty (s : string) :
  s ≠ "" → ∃ r l, utf8.runes s = r :: l.
Proof.
  intros Hne. destruct s as [|a s]; [done|].
  unfold utf8.runes, utf8.chunks. cbn [bytes_of length utf8.chunks_go].
  destruct (utf8.DecodeRune _). by eexists _, _.
Qed.

(** A word is scanned into a string as far as it goes. *)
Lemma Sscanf_v_word_rest (t : Type_) (w rest : string) :
  Underlying t = TString → isWord w → w ≠ "" →
  endsWord (utf8.runes rest) = true →
  Sscanf_v (w +:+ rest) t = Ok (VString w).
Proof.
  intros Ht [Hvalid Hspace] Hne Hrest. unfold Sscanf_v.
  rewrite runes_app by done.
  pose proof (EncodeRune_runes w Hvalid) as Henc.
  pose proof (token_loop_app notSpace (utf8.runes w) (utf8.runes rest) []
                Hspace) as Htoken.
  rewrite Henc in Htoken. cbn [app] in Htoken.
  rewrite (token_loop_stop notSpace (utf8.runes rest)) in Htoken.
  2:{ unfold endsWord in Hrest. destruct (utf8.runes rest); [done|].
      unfold notSpace. by rewrite Hrest. }
  destruct (runes_nonempty w Hne) as (r & l & Hrunes).
  rewrite Hrunes in *. cbn [app] in *.
  cbn [forallb] in Hspace. apply andb_true_iff in Hspace as [Hr _].
  apply negb_true_iff in Hr.
  rewrite SkipSpace_nonspace by done.
  unfold scanOne. rewrite Ht. cbn [rs].
  unfold convertString. rewrite SkipSpace_nonspace by done.
  cbn [notEOF rs]. unfold token. rewrite SkipSpace_nonspace by done.
  cbn [rs buf]. rewrite Htoken.
  by rewrite string_of_bytes_of.
Qed.

(** X9. A cell is read into a string field only up to its first white
    space: from a non-empty word followed by white space and any text,
    the field gets the word, without error. *)
Theorem string_cell_is_cut_at_white_space (field : StructField)
    (w rest : string) (fieldValue : Value) :
  Underlying (Typ field) = TString →
  UnmarshalText (Type_Methods (Typ field)) = None →
  isWord w → w ≠ "" →
  endsWord (utf8.runes rest) = true →
  ReadRecord_field field (w +:+ rest) fieldValue = (VString w, None).
Proof.
  intros Ht Hno Hw Hne Hrest.
  rewrite ReadRecord_field_default.
  - by rewrite Sscanf_v_word_rest.
  - apply scalar_scannedByDefault; [by rewrite Ht|done].
Qed.

(** White space before a line feed is skipped, and the line feed is an
    error. *)
Lemma SkipSpace_loop_newline (l : list Z) :
  SkipSpace_loop (0x0A :: l) = Err (errorString "unexpected newline").
Proof. done. Qed.

(** X15. A cell that starts with a line feed is an error for every
    field decoded by the default branch, whatever follows the line
    feed: the scanner refuses the line feed before it looks at the
    type. *)
Theorem cell_starting_with_newline_is_an_error (field : StructField)
    (rest : string) (fieldValue : Value) :
  scannedByDefault field →
  ReadRecord_field field (String "010" rest) fieldValue
  = (fieldValue,
     Some (FieldParseError (columnName field)
                           (errorString "unexpected newline"))).
Proof.
  intros Hdefault. rewrite ReadRecord_field_default by done.
  assert (Hrunes : ∃ l, utf8.runes (String "010" rest) = 0x0A :: l).
  { unfold utf8.runes, utf8.chunks. cbn [bytes_of length utf8.chunks_go].
    change (byte_of "010") with 0x0A. by eexists. }
  destruct Hrunes as [l Hrunes].
  unfold Sscanf_v, SkipSpace. cbn [rs]. by rewrite Hrunes.
Qed.

End DefaultBranch.

(** ** Boolean cells *)
Section Booleans.
Context `{TimeLib} `{!FmtLib}.
Local Open Scope Z_scope.

(** A rune that is none of [ok] is none of a part of [ok]. *)
Lemma indexRune_app (ok1 ok2 : string) (c : Z) :
  indexRune (ok1 +:+ ok2) c = indexRune ok1 c || indexRune ok2 c.
Proof. unfold indexRune. by rewrite bytes_of_app, existsb_app. Qed.

Lemma accept_refused (ok : string) (l buffer : list Z) :
  endsBefore ok l = true →
  accept ok {| rs := l; buf := buffer |} = (false, {| rs := l; buf := buffer |}).
Proof.
  unfold accept, endsBefore. cbn [rs]. destruct l as [|c l]; [done|].
  by intros ->%negb_true_iff.
Qed.

Lemma Sscanf_v_bool_first (t : Type_) (value : string) (r : Z) (l : list Z) :
  Underlying t = TBool →
  utf8.runes value = r :: l → isSpace r = false →
  endsBefore "rRaA" l = true →
  Sscanf_v value t = Ok (VBool (boolOfFirst r)).
Proof.
  intros Ht Hrunes Hr Hl. unfold Sscanf_v. rewrite Hrunes.
  rewrite SkipSpace_nonspace by done.
  unfold scanOne. rewrite Ht. cbn [rs]. unfold scanBool.
  rewrite SkipSpace_nonspace by done. cbn [notEOF rs buf].
  assert (HrR : endsBefore "rR" l = true ∧ endsBefore "aA" l = true).
  { unfold endsBefore in *. destruct l as [|c l]; [done|].
    change "rRaA" with ("rR" +:+ "aA") in Hl. rewrite indexRune_app in Hl.
    apply negb_true_iff, orb_false_elim in Hl as [-> ->]. done. }
  destruct HrR as [HrR HaA].
  rewrite (accept_refused "rR"), (accept_refused "aA") by done.
  unfold boolOfFirst.
  destruct (Z.eqb_spec r 0x30) as [->|_]; [done|].
  destruct (Z.eqb_spec r 0x31) as [->|_]; [done|].
  destruct (Z.eqb_spec r 0x74) as [->|_]; [done|].
  destruct (Z.eqb_spec r 0x54) as [->|_]; [done|].
  cbn [orb]. by destruct ((r =? 0x66) || (r =? 0x46)).
Qed.

(** X10. A boolean field is decided by the first rune of its cell, and
    never fails on it: [1], [t] and [T] give [true] and every other rune
    gives [false], unless the second rune goes on with the words [true]
    or [false], which are then checked. *)
Theorem bool_cell_is_decided_by_first_rune (field : StructField)
    (value : string) (r : Z) (l : list Z) (fieldValue : Value) :
  Underlying (Typ field) = TBool →
  UnmarshalText (Type_Methods (Typ field)) = None →
  utf8.runes value = r :: l → isSpace r = false →
  endsBefore "rRaA" l = true →
  ReadRecord_field field value fieldValue = (VBool (boolOfFirst r), None).
Proof.
  intros Ht Hno Hrunes Hr Hl.
  rewrite ReadRecord_field_default.
  - by rewrite (Sscanf_v_bool_first _ value r l).
  - apply scalar_scannedByDefault; [by rewrite Ht|done].
Qed.

End Booleans.

(** ** Integer cells *)
Section IntegerCells.
Context `{TimeLib} `{!FmtLib}.
Local Open Scope Z_scope.

Local Abbreviation isDigit := (λ d : Z, 0x30 ≤ d ≤ 0x39).

Lemma ValidString_go_ascii (l : list Z) (fuel : nat) :
  Forall (λ b, 0 ≤ b < 0x80) l → utf8.ValidString_go fuel l = true.
Proof.
  intros Hl. revert fuel. induction Hl as [|b l Hb _ IH]; intros fuel.
  - by destruct fuel.
  - destruct fuel as [|fuel]; [done|].
    cbn [utf8.ValidString_go]. unfold utf8.DecodeRune.
    destruct (Z.ltb_spec b 0x80); [|lia].
    destruct (Z.eqb_spec b utf8.RuneError) as [->|_]; [done|].
    cbn [andb drop]. apply IH.
Qed.

Lemma ValidString_ascii (s : string) :
  Forall (λ b, 0 ≤ b < 0x80) (bytes_of s) → utf8.ValidString s = true.
Proof. apply ValidString_go_ascii. Qed.

(** The runes of an ASCII text followed by another text. *)
Lemma runes_ascii_app (l : list Z) (rest : string) :
  Forall (λ b, 0 ≤ b < 0x80) l →
  utf8.runes (string_of l +:+ rest) = l ++ utf8.runes rest.
Proof.
  intros Hl.
  assert (Hbytes : bytes_of (string_of l) = l).
  { apply bytes_of_string_of. eapply Forall_impl; [exact Hl|].
    simpl. intros; lia. }
  rewrite runes_app by (apply ValidString_ascii; by rewrite Hbytes).
  rewrite runes_ascii by (by rewrite Hbytes). by rewrite Hbytes.
Qed.

Lemma digits_ascii (ds : list Z) :
  Forall isDigit ds → Forall (λ b, 0 ≤ b < 0x80) ds.
Proof. intros Hds. eapply Forall_impl; [exact Hds|]. simpl. intros; lia. Qed.

(** A rune that is none of [ok2] is none of [ok1] when the runes of
    [ok1] are among those of [ok2]. *)
Lemma endsBefore_sub (ok1 ok2 : string) (l : list Z) :
  forallb (indexRune ok2) (bytes_of ok1) = true →
  endsBefore ok2 l = true → endsBefore ok1 l = true.
Proof.
  unfold endsBefore. destruct l as [|c l]; [done|].
  intros Hsub Hc%negb_true_iff. apply negb_true_iff, not_true_is_false.
  unfold indexRune at 1. intros (b & Hin & ->%Z.eqb_eq)%existsb_exists.
  rewrite forallb_forall in Hsub. specialize (Hsub _ Hin). congruence.
Qed.

Lemma peek_refused (ok : string) (l buffer : list Z) :
  endsBefore ok l = true → peek ok {| rs := l; buf := buffer |} = false.
Proof.
  unfold peek, endsBefore. cbn [rs]. destruct l as [|c l]; [done|].
  by intros ->%negb_true_iff.
Qed.

Lemma accept_loop_stop (ok : string) (l buffer : list Z) :
  endsBefore ok l = true → accept_loop ok l buffer = (l, buffer).
Proof.
  unfold endsBefore. destruct l as [|c l]; [done|].
  cbn [accept_loop]. by intros ->%negb_true_iff.
Qed.

Lemma accept_loop_digits_rest (ds tail buffer : list Z) :
  Forall isDigit ds →
  endsBefore (decimalDigits +:+ "_") tail = true →
  accept_loop (decimalDigits +:+ "_") (ds ++ tail) buffer
  = (tail, buffer ++ ds).
Proof.
  intros Hds Htail. revert buffer.
  induction Hds as [|d ds Hd _ IH]; intros buffer.
  - cbn [app]. rewrite accept_loop_stop by done. by rewrite app_nil_r.
  - cbn [app accept_loop]. rewrite indexRune_decimal by done.
    rewrite EncodeRune_ascii by lia. rewrite IH. by rewrite <- app_assoc.
Qed.

(** The digits printed for a number are taken as one token, up to the
    first rune that cannot go on a number. *)
Lemma scanNumber_digits_rest (d : Z) (ds tail buffer : list Z) :
  Forall isDigit (d :: ds) → (d = 0x30 → ds = []) →
  endsBefore "0123456789_bBoOxX" tail = true →
  (let '(digits, haveDigits, s) :=
     scanBasePrefix {| rs := d :: ds ++ tail; buf := buffer |} in
   scanNumber digits haveDigits s)
  = Scanned (string_of (buffer ++ d :: ds))
            {| rs := tail; buf := buffer ++ d :: ds |}.
Proof.
  intros Hds Hzero Htail. pose proof Hds as [Hd Hds']%Forall_cons.
  assert (Hsub : ∀ ok, forallb (indexRune "0123456789_bBoOxX") (bytes_of ok)
                       = true → endsBefore ok tail = true).
  { intros ok Hok. by apply (endsBefore_sub ok "0123456789_bBoOxX"). }
  unfold scanBasePrefix, peek. cbn [rs]. rewrite indexRune_zero.
  destruct (Z.eqb_spec d 0x30) as [->|Hne].
  - rewrite (Hzero eq_refl). cbn [negb app].
    change (accept "0" {| rs := 0x30 :: tail; buf := buffer |}).2
      with {| rs := tail; buf := buffer ++ [0x30] |}.
    fold (peek "bB" {| rs := tail; buf := buffer ++ [0x30] |}).
    fold (peek "oO" {| rs := tail; buf := buffer ++ [0x30] |}).
    fold (peek "xX" {| rs := tail; buf := buffer ++ [0x30] |}).
    rewrite !peek_refused by (by apply Hsub).
    unfold scanNumber, accept_all. cbn [rs buf].
    by rewrite accept_loop_stop by (by apply Hsub).
  - cbn [negb]. unfold scanNumber. cbn [notEOF rs].
    unfold accept. cbn [rs buf]. rewrite indexRune_decimal by done.
    rewrite EncodeRune_ascii by lia.
    unfold accept_all. cbn [rs buf].
    rewrite accept_loop_digits_rest by (done || by apply Hsub).
    cbn [buf]. by rewrite <- app_assoc.
Qed.

(** The text of an integer: an optional minus sign and digits. *)
Lemma FormatInt_digits (i : Z) :
  - 2 ^ 63 ≤ i < 2 ^ 63 →
  ∃ d ds,
    Forall isDigit (d :: ds) ∧ (d = 0x30 → ds = [])
    ∧ strconv.FormatInt i
      = string_of ((if i <? 0 then [0x2D] else []) ++ d :: ds).
Proof.
  intros Hi. unfold strconv.FormatInt.
  destruct (Z.ltb_spec i 0).
  - destruct (FormatUint_digits (- i)) as (d & ds & Hfmt & Hds & Hzero & _);
      [lia|].
    exists d, ds. rewrite Hfmt. done.
  - destruct (FormatUint_digits i) as (d & ds & Hfmt & Hds & Hzero & _);
      [lia|].
    exists d, ds. rewrite Hfmt. done.
Qed.

Lemma integer_inv (t : Type_) (n : Z) (v : Value) :
  integer t n = Some v →
  (∃ k, Underlying t = TInt k ∧ v = VInt n
        ∧ - 2 ^ (IntKind_Bits k - 1) ≤ n < 2 ^ (IntKind_Bits k - 1))
  ∨ (∃ k, Underlying t = TUint k ∧ v = VUint n
          ∧ 0 ≤ n < 2 ^ UintKind_Bits k).
Proof.
  unfold integer. destruct (Underlying t) as [|k|k| | | | | | |]; try done.
  - destruct (decide _); [|done]. intros [= <-]. left. by exists k.
  - destruct (decide _); [|done]. intros [= <-]. right. by exists k.
Qed.

(** An integer in range is scanned from its text and whatever follows
    it, as long as that cannot go on a number. *)
Lemma Sscanf_v_integer_rest (t : Type_) (n : Z) (v : Value) (rest : string) :
  integer t n = Some v →
  endsBefore "0123456789_bBoOxX" (utf8.runes rest) = true →
  Sscanf_v (strconv.FormatInt n +:+ rest) t = Ok v.
Proof.
  intros [(k & Ht & -> & Hn)|(k & Ht & -> & Hn)]%integer_inv Hrest.
  - pose proof (IntKind_Bits_le k) as Hle.
    pose proof (ParseInt_FormatInt n ltac:(lia)) as Hparse.
    destruct (FormatInt_digits n) as (d & ds & Hds & Hzero & Hfmt); [lia|].
    pose proof Hds as [Hd _]%Forall_cons.
    unfold Sscanf_v. rewrite Hfmt.
    rewrite runes_ascii_app.
    2:{ apply Forall_app. split; [by destruct (n <? 0); repeat constructor|].
        by apply digits_ascii. }
    destruct (Z.ltb_spec n 0) as [Hneg|Hpos]; cbn [app] in *.
    + rewrite SkipSpace_nonspace by done.
      unfold scanOne. rewrite Ht. cbn [rs]. unfold scanInt.
      rewrite SkipSpace_nonspace by done. cbn [notEOF rs].
      change (accept sign {| rs := 0x2D :: d :: ds ++ utf8.runes rest;
                             buf := [] |})
        with (true, {| rs := d :: ds ++ utf8.runes rest; buf := [0x2D] |}).
      cbn [snd].
      pose proof (scanNumber_digits_rest d ds (utf8.runes rest) [0x2D] Hds
                    Hzero Hrest) as Hscan.
      destruct (scanBasePrefix _) as [[digits haveDigits] s1].
      rewrite Hscan. cbn [app]. rewrite <- Hfmt, Hparse.
      rewrite scanInt_fits by done. by rewrite Z.eqb_refl.
    + rewrite SkipSpace_nonspace by (by apply isSpace_digit).
      unfold scanOne. rewrite Ht. cbn [rs]. unfold scanInt.
      rewrite SkipSpace_nonspace by (by apply isSpace_digit).
      cbn [notEOF rs].
      unfold accept at 1. cbn [rs]. rewrite indexRune_sign_digit by done.
      cbn [snd].
      pose proof (scanNumber_digits_rest d ds (utf8.runes rest) [] Hds
                    Hzero Hrest) as Hscan.
      destruct (scanBasePrefix _) as [[digits haveDigits] s1].
      rewrite Hscan. cbn [app]. rewrite <- Hfmt, Hparse.
      rewrite scanInt_fits by done. by rewrite Z.eqb_refl.
  - pose proof (UintKind_Bits_le k) as Hle.
    unfold strconv.FormatInt. destruct (Z.ltb_spec n 0); [lia|].
    destruct (FormatUint_digits n) as (d & ds & Hfmt & Hds & Hzero & _);
      [lia|].
    pose proof Hds as [Hd _]%Forall_cons.
    unfold Sscanf_v. rewrite Hfmt.
    rewrite runes_ascii_app by (by apply digits_ascii). cbn [app].
    rewrite SkipSpace_nonspace by (by apply isSpace_digit).
    unfold scanOne. rewrite Ht. cbn [rs]. unfold scanUint.
    rewrite SkipSpace_nonspace by (by apply isSpace_digit). cbn [notEOF rs].
    pose proof (scanNumber_digits_rest d ds (utf8.runes rest) [] Hds
                  Hzero Hrest) as Hscan.
    destruct (scanBasePrefix _) as [[digits haveDigits] s1].
    rewrite Hscan. cbn [app]. rewrite <- Hfmt.
    rewrite ParseUint_FormatUint by lia.
    rewrite scanUint_fits by done. by rewrite Z.eqb_refl.
Qed.

Lemma integer_scannedByDefault (field : StructField) (n : Z) (v : Value) :
  integer (Typ field) n = Some v →
  UnmarshalText (Type_Methods (Typ field)) = None →
  scannedByDefault field.
Proof.
  intros Hv Hno. apply scalar_scannedByDefault; [|done].
  by apply integer_inv in Hv as [(k & -> & _)|(k & -> & _)].
Qed.

(** X11. An integer field is read from the digits at the front of its
    cell: what follows them, from the first rune that cannot go on a
    number, is not looked at, and is no error. *)
Theorem integer_cell_is_read_up_to_first_other_rune (field : StructField)
    (n : Z) (v : Value) (rest : string) (fieldValue : Value) :
  integer (Typ field) n = Some v →
  UnmarshalText (Type_Methods (Typ field)) = None →
  endsBefore "0123456789_bBoOxX" (utf8.runes rest) = true →
  ReadRecord_field field (strconv.FormatInt n +:+ rest) fieldValue
  = (v, None).
Proof.
  intros Hv Hno Hrest.
  rewrite ReadRecord_field_default by (by eapply integer_scannedByDefault).
  by rewrite (Sscanf_v_integer_rest _ n v).
Qed.

End IntegerCells.

(** ** Integers out of range *)
Section OutOfRange.
Context `{TimeLib} `{!FmtLib}.
Local Open Scope Z_scope.

Local Abbreviation isDigit := (λ d : Z, 0x30 ≤ d ≤ 0x39).

(** The overflow checks of [scanUint] and [scanInt] fail out of range:
    what is left after the two shifts is in the range of the type. *)
Lemma scanUint_overflows (k : UintKind) (u : Z) :
  2 ^ UintKind_Bits k ≤ u < 2 ^ 64 →
  Z.shiftr (strconv.uint64 (Z.shiftl u (64 - UintKind_Bits k)))
           (64 - UintKind_Bits k) ≠ u.
Proof.
  intros Hu. rewrite Z.shiftl_mul_pow2, Z.shiftr_div_pow2 by (destruct k; done).
  unfold strconv.uint64.
  assert (Hlt : (u * 2 ^ (64 - UintKind_Bits k)) mod 2 ^ 64
                / 2 ^ (64 - UintKind_Bits k) < 2 ^ UintKind_Bits k).
  { apply Z.div_lt_upper_bound; [by destruct k|].
    replace (2 ^ (64 - UintKind_Bits k) * 2 ^ UintKind_Bits k) with (2 ^ 64)
      by (by destruct k).
    apply Z.mod_pos_bound. done. }
  lia.
Qed.

Lemma scanInt_overflows (k : IntKind) (i : Z) :
  ¬ (- 2 ^ (IntKind_Bits k - 1) ≤ i < 2 ^ (IntKind_Bits k - 1)) →
  Z.shiftr (int64 (Z.shiftl i (64 - IntKind_Bits k)))
           (64 - IntKind_Bits k) ≠ i.
Proof.
  intros Hi. rewrite Z.shiftl_mul_pow2, Z.shiftr_div_pow2 by (destruct k; done).
  unfold int64.
  set (m := (i * 2 ^ (64 - IntKind_Bits k) + 2 ^ 63) mod 2 ^ 64).
  assert (Hm : 0 ≤ m < 2 ^ 64) by (by apply Z.mod_pos_bound).
  assert (Hin : - 2 ^ (IntKind_Bits k - 1)
                ≤ (m - 2 ^ 63) / 2 ^ (64 - IntKind_Bits k)
                < 2 ^ (IntKind_Bits k - 1)).
  { split.
    - apply Z.div_le_lower_bound; [by destruct k|].
      replace (2 ^ (64 - IntKind_Bits k) * - 2 ^ (IntKind_Bits k - 1))
        with (- 2 ^ 63) by (by destruct k). lia.
    - apply Z.div_lt_upper_bound; [by destruct k|].
      replace (2 ^ (64 - IntKind_Bits k) * 2 ^ (IntKind_Bits k - 1))
        with (2 ^ 63) by (by destruct k). lia. }
  lia.
Qed.

Lemma unsigned_scannedByDefault (field : StructField) (k : UintKind) :
  Underlying (Typ field) = TUint k →
  UnmarshalText (Type_Methods (Typ field)) = None →
  scannedByDefault field.
Proof.
  intros Ht Hno. apply scalar_scannedByDefault; [by rewrite Ht|done].
Qed.

(** X13. An unsigned field does not wrap around: the text of a number
    that needs more bits than the field has is a [FieldParseError] that
    tells the overflow and the token, and the text of a negative number
    is one too; the field keeps the value it had. *)
Theorem unsigned_out_of_range_is_an_error (field : StructField)
    (k : UintKind) (n : Z) (fieldValue : Value) :
  Underlying (Typ field) = TUint k →
  UnmarshalText (Type_Methods (Typ field)) = None →
  - 2 ^ 63 ≤ n < 2 ^ 64 →
  ¬ (0 ≤ n < 2 ^ UintKind_Bits k) →
  ReadRecord_field field (strconv.FormatInt n) fieldValue
  = (fieldValue,
     Some (FieldParseError (columnName field)
             (errorString
                (if n <? 0 then "expected integer"
                 else "unsigned integer overflow on token "
                      +:+ strconv.FormatInt n)))).
Proof.
  intros Ht Hno Hn Hout.
  rewrite ReadRecord_field_default by (by eapply unsigned_scannedByDefault).
  unfold strconv.FormatInt. destruct (Z.ltb_spec n 0) as [Hneg|Hpos].
  - destruct (FormatUint_digits (- n)) as (d & ds & Hfmt & Hds & _ & _);
      [lia|].
    assert (Hrunes : utf8.runes (String "-" (strconv.FormatUint (- n)))
                     = 0x2D :: d :: ds).
    { rewrite Hfmt. change (String "-" (string_of (d :: ds)))
        with (string_of (0x2D :: d :: ds)).
      rewrite <- (str_app_nil_r (string_of _)).
      rewrite runes_ascii_app; [by rewrite app_nil_r|].
      constructor; [done|]. by apply digits_ascii. }
    unfold Sscanf_v. rewrite Hrunes.
    rewrite SkipSpace_nonspace by done.
    unfold scanOne. rewrite Ht. cbn [rs]. unfold scanUint.
    rewrite SkipSpace_nonspace by done. done.
  - pose proof (UintKind_Bits_le k) as Hle.
    destruct (FormatUint_digits n) as (d & ds & Hfmt & Hds & Hzero & Hrunes);
      [lia|].
    pose proof Hds as [Hd _]%Forall_cons.
    unfold Sscanf_v. rewrite Hrunes.
    rewrite SkipSpace_nonspace by (by apply isSpace_digit).
    unfold scanOne. rewrite Ht. cbn [rs]. unfold scanUint.
    rewrite SkipSpace_nonspace by (by apply isSpace_digit). cbn [notEOF rs].
    pose proof (scanNumber_digits d ds [] Hds Hzero) as Hscan.
    destruct (scanBasePrefix _) as [[digits haveDigits] s1].
    rewrite Hscan. cbn [app]. rewrite <- Hfmt.
    rewrite ParseUint_FormatUint by lia.
    destruct (Z.eqb_spec
                (Z.shiftr (strconv.uint64 (Z.shiftl n (64 - UintKind_Bits k)))
                          (64 - UintKind_Bits k)) n) as [Heq|_]; [|done].
    exfalso. revert Heq. apply scanUint_overflows. lia.
Qed.

(** X14. A signed field does not wrap around either: the text of a
    number of 64 bits that is out of the range of the field is a
    [FieldParseError] that tells the overflow and the token. *)
Theorem signed_out_of_range_is_an_error (field : StructField)
    (k : IntKind) (n : Z) (fieldValue : Value) :
  Underlying (Typ field) = TInt k →
  UnmarshalText (Type_Methods (Typ field)) = None →
  - 2 ^ 63 ≤ n < 2 ^ 63 →
  ¬ (- 2 ^ (IntKind_Bits k - 1) ≤ n < 2 ^ (IntKind_Bits k - 1)) →
  ReadRecord_field field (strconv.FormatInt n) fieldValue
  = (fieldValue,
     Some (FieldParseError (columnName field)
             (errorString ("integer overflow on token "
                           +:+ strconv.FormatInt n)))).
Proof.
  intros Ht Hno Hn Hout.
  rewrite ReadRecord_field_default.
  2:{ apply scalar_scannedByDefault; [by rewrite Ht|done]. }
  pose proof (ParseInt_FormatInt n Hn) as Hparse.
  destruct (FormatInt_digits n Hn) as (d & ds & Hds & Hzero & Hfmt).
  pose proof Hds as [Hd _]%Forall_cons.
  assert (Hrunes : utf8.runes (strconv.FormatInt n)
                   = (if n <? 0 then [0x2D] else []) ++ d :: ds).
  { rewrite Hfmt. rewrite <- (str_app_nil_r (string_of _)).
    rewrite runes_ascii_app; [by rewrite app_nil_r|].
    apply Forall_app. split; [by destruct (n <? 0); repeat constructor|].
    by apply digits_ascii. }
  assert (Hcheck : (Z.shiftr (int64 (Z.shiftl n (64 - IntKind_Bits k)))
                             (64 - IntKind_Bits k) =? n) = false).
  { apply Z.eqb_neq. by apply scanInt_overflows. }
  unfold Sscanf_v. rewrite Hrunes.
  destruct (n <? 0); cbn [app].
  - rewrite SkipSpace_nonspace by done.
    unfold scanOne. rewrite Ht. cbn [rs]. unfold scanInt.
    rewrite SkipSpace_nonspace by done. cbn [notEOF rs].
    change (accept sign {| rs := 0x2D :: d :: ds; buf := [] |})
      with (true, {| rs := d :: ds; buf := [0x2D] |}). cbn [snd].
    pose proof (scanNumber_digits d ds [0x2D] Hds Hzero) as Hscan.
    destruct (scanBasePrefix _) as [[digits haveDigits] s1].
    rewrite Hscan. cbn [app] in *. rewrite <- Hfmt, Hparse, Hcheck. done.
  - rewrite SkipSpace_nonspace by (by apply isSpace_digit).
    unfold scanOne. rewrite Ht. cbn [rs]. unfold scanInt.
    rewrite SkipSpace_nonspace by (by apply isSpace_digit). cbn [notEOF rs].
    unfold accept at 1. cbn [rs]. rewrite indexRune_sign_digit by done.
    cbn [snd].
    pose proof (scanNumber_digits d ds [] Hds Hzero) as Hscan.
    destruct (scanBasePrefix _) as [[digits haveDigits] s1].
    rewrite Hscan. cbn [app] in *. rewrite <- Hfmt, Hparse, Hcheck. done.
Qed.

End OutOfRange.

(** ** A leading zero *)
Section LeadingZero.
Context `{TimeLib} `{!FmtLib}.
Local Open Scope Z_scope.

Local Abbreviation isOctal := (λ d : Z, 0x30 ≤ d ≤ 0x37).
Local Abbreviation octalFrom := (foldl (λ n d : Z, n * 8 + (d - 0x30))).

Lemma octalFrom_ge (ds : list Z) (n : Z) :
  Forall isOctal ds → 0 ≤ n → n ≤ octalFrom n ds.
Proof.
  intros Hds. revert n. induction Hds as [|d ds Hd _ IH]; intros n Hn; simpl.
  - lia.
  - etrans; [|apply IH]; lia.
Qed.

(** The digit loop of [ParseUint] in base 8 computes the value of the
    digits as long as it fits 64 bits. *)
Lemma ParseUint_loop_octal (s0 : string) (ds : list Z) (n : Z)
    (underscores : bool) :
  Forall isOctal ds → 0 ≤ n → octalFrom n ds ≤ strconv.maxUint64 →
  strconv.ParseUint_loop s0 true 8 (strconv.maxUint64 / 8 + 1)
                         (2 ^ 64 - 1) underscores n ds
  = Ok (octalFrom n ds, underscores).
Proof.
  intros Hds. revert n. induction Hds as [|d ds Hd Hds IH]; intros n Hn Hmax.
  - done.
  - cbn [strconv.ParseUint_loop foldl] in *.
    pose proof (octalFrom_ge ds (n * 8 + (d - 0x30)) Hds ltac:(lia)) as Hge.
    unfold strconv.maxUint64 in *.
    destruct (Z.eqb_spec d 0x5F); [lia|]. cbn [andb].
    destruct (Z.leb_spec 0x30 d); [|lia].
    destruct (Z.leb_spec d 0x39); [|lia]. cbn [andb].
    destruct (Z.leb_spec 8 (d - 0x30)); [lia|].
    destruct (Z.leb_spec ((2 ^ 64 - 1) / 8 + 1) n) as [Hcut|_].
    { exfalso. revert Hcut. change ((2 ^ 64 - 1) / 8 + 1)
        with 2305843009213693952. lia. }
    unfold strconv.uint64.
    rewrite (Z.mod_small (n * 8)) by lia.
    rewrite (Z.mod_small (n * 8 + (d - 0x30))) by lia.
    destruct (Z.ltb_spec (n * 8 + (d - 0x30)) (n * 8)); [lia|].
    destruct (Z.ltb_spec (2 ^ 64 - 1) (n * 8 + (d - 0x30))); [lia|].
    cbn [orb]. apply IH; lia.
Qed.

Lemma octal_ascii (ds : list Z) :
  Forall isOctal ds → Forall (λ b, 0 ≤ b < 0x80) ds.
Proof. intros Hds. eapply Forall_impl; [exact Hds|]. simpl. intros; lia. Qed.

Lemma octal_bytes (ds : list Z) :
  Forall isOctal ds → bytes_of (string_of (0x30 :: ds)) = 0x30 :: ds.
Proof.
  intros Hds. apply bytes_of_string_of. constructor; [lia|].
  eapply Forall_impl; [exact Hds|]. simpl. intros; lia.
Qed.

Lemma lower_octal (d : Z) : 0x30 ≤ d ≤ 0x37 → strconv.lower d = d.
Proof.
  intros Hd.
  assert (d = 48 ∨ d = 49 ∨ d = 50 ∨ d = 51 ∨ d = 52 ∨ d = 53 ∨ d = 54
          ∨ d = 55) as Hcases by lia.
  repeat destruct Hcases as [->|Hcases]; try done. by subst.
Qed.

(** [ParseUint] with base 0 reads a zero and octal digits in base 8. *)
Lemma ParseUint_octal (ds : list Z) :
  Forall isOctal ds → octalValue ds < 2 ^ 64 →
  strconv.ParseUint (string_of (0x30 :: ds)) 0 64 = Ok (octalValue ds).
Proof.
  intros Hds Hmax. unfold strconv.ParseUint. rewrite octal_bytes by done.
  assert (Hloop : match strconv.ParseUint_loop (string_of (0x30 :: ds)) true 8
                          (strconv.maxUint64 / 8 + 1) (2 ^ 64 - 1) false 0 ds
                  with
                  | Err e => Err e
                  | Ok (n, underscores) =>
                    if underscores
                       && negb (strconv.underscoreOK (0x30 :: ds))
                    then Err (strconv.syntaxError "ParseUint"
                                (string_of (0x30 :: ds)))
                    else Ok n
                  end = Ok (octalValue ds)).
  { rewrite ParseUint_loop_octal; [done|done|lia|].
    unfold octalValue, strconv.maxUint64 in *. lia. }
  change (0 =? 0) with true. change ((2 <=? 0) && (0 <=? 36)) with false.
  change (48 =? 48) with true. change (64 =? 0) with false.
  change ((64 <? 0) || (64 <? 64)) with false. cbv iota.
  destruct ds as [|c1 [|c2 ds']]; [done|done|].
  apply Forall_cons in Hds as [Hc1 Hds'].
  rewrite (lower_octal c1 Hc1).
  destruct (Z.eqb_spec c1 0x62); [lia|]. destruct (Z.eqb_spec c1 0x6F); [lia|].
  destruct (Z.eqb_spec c1 0x78); [lia|].
  exact Hloop.
Qed.

Lemma ParseInt_octal (ds : list Z) :
  Forall isOctal ds → octalValue ds < 2 ^ 63 →
  strconv.ParseInt (string_of (0x30 :: ds)) 0 64 = Ok (octalValue ds).
Proof.
  intros Hds Hmax. unfold strconv.ParseInt. cbn [string_of].
  change (byte_of (ascii_of 48)) with 48.
  change (48 =? 43) with false. change (48 =? 45) with false. cbv iota.
  change (String (ascii_of 48) (string_of ds)) with (string_of (0x30 :: ds)).
  rewrite ParseUint_octal by (done || lia).
  change (64 =? 0) with false. cbn [negb andb].
  destruct (Z.leb_spec (2 ^ (64 - 1)) (octalValue ds)) as [Hle|_]; [|done].
  exfalso. change (2 ^ (64 - 1)) with (2 ^ 63) in Hle. lia.
Qed.

Lemma octalValue_ge (ds : list Z) : Forall isOctal ds → 0 ≤ octalValue ds.
Proof. intros Hds. by apply (octalFrom_ge ds 0). Qed.

Lemma indexRune_octal (d : Z) :
  0x30 ≤ d ≤ 0x37 → indexRune (octalDigits +:+ "_") d = true.
Proof.
  intros Hd.
  assert (d = 48 ∨ d = 49 ∨ d = 50 ∨ d = 51 ∨ d = 52 ∨ d = 53 ∨ d = 54
          ∨ d = 55) as Hcases by lia.
  repeat destruct Hcases as [->|Hcases]; try done. by subst.
Qed.

Lemma indexRune_letters_octal (ok : string) (d : Z) :
  forallb (λ b, 0x40 <=? b) (bytes_of ok) = true →
  0x30 ≤ d ≤ 0x37 → indexRune ok d = false.
Proof.
  intros Hok Hd. apply not_true_is_false. unfold indexRune.
  intros (b & Hin & ->%Z.eqb_eq)%existsb_exists.
  rewrite forallb_forall in Hok. specialize (Hok _ Hin).
  apply Z.leb_le in Hok. lia.
Qed.

Lemma accept_loop_octal_rest (ds tail buffer : list Z) :
  Forall isOctal ds →
  endsBefore (octalDigits +:+ "_") tail = true →
  accept_loop (octalDigits +:+ "_") (ds ++ tail) buffer
  = (tail, buffer ++ ds).
Proof.
  intros Hds Htail. revert buffer.
  induction Hds as [|d ds Hd _ IH]; intros buffer.
  - cbn [app]. rewrite accept_loop_stop by done. by rewrite app_nil_r.
  - cbn [app accept_loop]. rewrite indexRune_octal by done.
    rewrite EncodeRune_ascii by lia. rewrite IH. by rewrite <- app_assoc.
Qed.

(** A zero and the octal digits after it are taken as one token. *)
Lemma scanNumber_octal_rest (ds tail buffer : list Z) :
  Forall isOctal ds →
  endsBefore "01234567_bBoOxX" tail = true →
  (let '(digits, haveDigits, s) :=
     scanBasePrefix {| rs := 0x30 :: ds ++ tail; buf := buffer |} in
   scanNumber digits haveDigits s)
  = Scanned (string_of (buffer ++ 0x30 :: ds))
            {| rs := tail; buf := buffer ++ 0x30 :: ds |}.
Proof.
  intros Hds Htail.
  assert (Hsub : ∀ ok, forallb (indexRune "01234567_bBoOxX") (bytes_of ok)
                       = true → endsBefore ok tail = true).
  { intros ok Hok. by apply (endsBefore_sub ok "01234567_bBoOxX"). }
  assert (Hpeek : ∀ ok, forallb (λ b, 0x40 <=? b) (bytes_of ok) = true →
                        forallb (indexRune "01234567_bBoOxX") (bytes_of ok)
                        = true →
                        peek ok {| rs := ds ++ tail; buf := buffer ++ [0x30] |}
                        = false).
  { intros ok Hletters Hok. destruct ds as [|d ds].
    - apply peek_refused. by apply Hsub.
    - apply Forall_cons in Hds as [Hd _]. unfold peek. cbn [rs app].
      by apply indexRune_letters_octal. }
  unfold scanBasePrefix.
  change (peek "0" {| rs := 0x30 :: ds ++ tail; buf := buffer |}) with true.
  cbn [negb].
  change (accept "0" {| rs := 0x30 :: ds ++ tail; buf := buffer |}).2
    with {| rs := ds ++ tail; buf := buffer ++ [0x30] |}.
  rewrite !Hpeek by done.
  unfold scanNumber, accept_all. cbn [rs buf].
  rewrite accept_loop_octal_rest by (done || by apply Hsub).
  cbn [buf]. by rewrite <- app_assoc.
Qed.

(** X12. A cell of an integer field that starts with the digit zero is
    read in base 8, and only as far as its octal digits go: [010] is
    eight, and [08] is zero, without error. *)
Theorem leading_zero_is_read_as_octal (field : StructField) (ds : list Z)
    (v : Value) (rest : string) (fieldValue : Value) :
  Forall (λ d, 0x30 ≤ d ≤ 0x37) ds →
  integer (Typ field) (octalValue ds) = Some v →
  UnmarshalText (Type_Methods (Typ field)) = None →
  endsBefore "01234567_bBoOxX" (utf8.runes rest) = true →
  ReadRecord_field field (string_of (0x30 :: ds) +:+ rest) fieldValue
  = (v, None).
Proof.
  intros Hds Hv Hno Hrest.
  rewrite ReadRecord_field_default by (by eapply integer_scannedByDefault).
  unfold Sscanf_v.
  rewrite runes_ascii_app by (constructor; [done|by apply octal_ascii]).
  cbn [app]. rewrite SkipSpace_nonspace by done.
  pose proof (scanNumber_octal_rest ds (utf8.runes rest) [] Hds Hrest)
    as Hscan. cbn [app] in Hscan.
  pose proof (octalValue_ge ds Hds) as Hge.
  apply integer_inv in Hv as [(k & Ht & -> & Hn)|(k & Ht & -> & Hn)].
  - pose proof (IntKind_Bits_le k) as Hle.
    unfold scanOne. rewrite Ht. cbn [rs]. unfold scanInt.
    rewrite SkipSpace_nonspace by done. cbn [notEOF rs].
    change (accept sign {| rs := 0x30 :: ds ++ utf8.runes rest; buf := [] |})
      with (false, {| rs := 0x30 :: ds ++ utf8.runes rest; buf := [] |}).
    cbn [snd].
    destruct (scanBasePrefix _) as [[digits haveDigits] s1].
    rewrite Hscan. rewrite ParseInt_octal by (done || lia).
    rewrite scanInt_fits by done. by rewrite Z.eqb_refl.
  - pose proof (UintKind_Bits_le k) as Hle.
    unfold scanOne. rewrite Ht. cbn [rs]. unfold scanUint.
    rewrite SkipSpace_nonspace by done. cbn [notEOF rs].
    destruct (scanBasePrefix _) as [[digits haveDigits] s1].
    rewrite Hscan. rewrite ParseUint_octal by (done || lia).
    rewrite scanUint_fits by done. by rewrite Z.eqb_refl.
Qed.

End LeadingZero.

(** ** Slice cells *)
Section SliceCells.
Context `{TimeLib} `{!FmtLib}.

Lemma slice_kind_not_time (t : Type_) :
  Type_Kind t = Kind.Slice → ConvertibleTo_timeType t = false.
Proof.
  unfold ConvertibleTo_timeType. rewrite <- (Type_Kind_Underlying t).
  by destruct (Underlying t).
Qed.

(** The body of the loop for a slice field without [UnmarshalText]. *)
Lemma ReadRecord_field_slice (field : StructField) (value : string)
    (fieldValue : Value) :
  Type_Kind (Typ field) = Kind.Slice →
  UnmarshalText (Type_Methods (Typ field)) = None →
  ReadRecord_field field value fieldValue =
  match ReadRecord_slice (columnName field) (Type_Elem (Typ field))
          (Strings.Split value (Tag_Get (Tag field) separatorTag)) 0 [] with
  | Err err => (fieldValue, Some err)
  | Ok slice => (VSlice (Some slice), None)
  end.
Proof.
  intros Hkind Hno. unfold ReadRecord_field, ReadRecord_value.
  rewrite Hkind, (slice_kind_not_time _ Hkind), Hno. done.
Qed.

(** The loop over the pieces: every piece that is scanned adds an
    element, and the first that is not ends the loop with its index. *)
Lemma ReadRecord_slice_all (csvTagValue : string) (elemType : Type_)
    (items : list string) (elems : list Value) (k : nat)
    (slice : list Value) :
  Forall2 (λ item v, Sscanf_v item elemType = Ok v) items elems →
  ReadRecord_slice csvTagValue elemType items k slice = Ok (slice ++ elems).
Proof.
  intros Hall. revert k slice.
  induction Hall as [|item v items elems Hitem _ IH]; intros k slice.
  - simpl. by rewrite app_nil_r.
  - simpl. rewrite Hitem, IH. by rewrite <- app_assoc.
Qed.

Lemma ReadRecord_slice_first (csvTagValue : string) (elemType : Type_)
    (good rest : list string) (item : string) (elems : list Value)
    (nested : error) (k : nat) (slice : list Value) :
  Forall2 (λ item v, Sscanf_v item elemType = Ok v) good elems →
  Sscanf_v item elemType = Err nested →
  ReadRecord_slice csvTagValue elemType (good ++ item :: rest) k slice
  = Err (FieldParseError (indexedName csvTagValue (k + length good)) nested).
Proof.
  intros Hgood Hitem. revert k slice.
  induction Hgood as [|item0 v good elems Hitem0 _ IH]; intros k slice.
  - simpl. by rewrite Hitem, Nat.add_0_r.
  - simpl. rewrite Hitem0, IH. do 3 f_equal. lia.
Qed.

(** X7. A slice field gets one element for every piece of its cell
    when every piece is scanned, and is then never nil; when some piece
    is not, the error names the column with the index of the first such
    piece, counted from zero, and the field keeps the value it had. *)
Theorem slice_cell_fails_at_first_bad_piece (field : StructField)
    (value : string) (fieldValue : Value) :
  Type_Kind (Typ field) = Kind.Slice →
  UnmarshalText (Type_Methods (Typ field)) = None →
  let items := Strings.Split value (Tag_Get (Tag field) separatorTag) in
  let scanned := λ item v, Sscanf_v item (Type_Elem (Typ field)) = Ok v in
  (∀ elems,
     Forall2 scanned items elems →
     ReadRecord_field field value fieldValue = (VSlice (Some elems), None))
  ∧ (∀ good elems item rest nested,
       items = good ++ item :: rest →
       Forall2 scanned good elems →
       Sscanf_v item (Type_Elem (Typ field)) = Err nested →
       ReadRecord_field field value fieldValue
       = (fieldValue,
          Some (FieldParseError
                  (indexedName (columnName field) (length good)) nested))).
Proof.
  intros Hkind Hno items scanned. split.
  - intros elems Hall. rewrite ReadRecord_field_slice by done.
    fold items. by rewrite (ReadRecord_slice_all _ _ items elems).
  - intros good elems item rest nested Hitems Hgood Hitem.
    rewrite ReadRecord_field_slice by done. fold items. rewrite Hitems.
    by rewrite (ReadRecord_slice_first _ _ good rest item elems nested).
Qed.

(** The empty text is at its end at once, for the scalar types. *)
Lemma Sscanf_v_empty_scalar (t : Type_) :
  match Underlying t with
  | TBool | TInt _ | TUint _ | TFloat _ | TString => True
  | _ => False
  end →
  Sscanf_v "" t = Err EOF.
Proof. unfold Sscanf_v, scanOne. by destruct (Underlying t). Qed.

(** X8. A slice without elements, nil or not, is written as the empty
    cell, and the empty cell is not read back as such a slice: with a
    separator, [strings.Split] yields one empty piece, and the field
    fails on it with [io.EOF] at index 0; without one, there is no
    piece, and the field gets a slice that is empty but not nil. *)
Theorem empty_slice_is_not_read_back (field : StructField)
    (fieldValue : Value) :
  Type_Kind (Typ field) = Kind.Slice →
  MarshalText (Type_Methods (Typ field)) = None →
  UnmarshalText (Type_Methods (Typ field)) = None →
  match Underlying (Type_Elem (Typ field)) with
  | TBool | TInt _ | TUint _ | TFloat _ | TString => True
  | _ => False
  end →
  WriteRecord_field field (VSlice None) = Ok ""
  ∧ WriteRecord_field field (VSlice (Some [])) = Ok ""
  ∧ ReadRecord_field field "" fieldValue
    = if decide (Tag_Get (Tag field) separatorTag = "")
      then (VSlice (Some []), None)
      else (fieldValue,
            Some (FieldParseError (columnName field +:+ "[0]") EOF)).
Proof.
  intros Hkind Hmarshal Hunmarshal Helem.
  assert (Hwrite : ∀ elems, match elems with Some (_ :: _) => False
                                           | _ => True end →
            WriteRecord_field field (VSlice elems) = Ok "").
  { intros elems Hnone. unfold WriteRecord_field, WriteRecord_value.
    rewrite Hkind, (slice_kind_not_time _ Hkind), Hmarshal. cbn [Kind.eqb].
    by destruct elems as [[|v elems]|]. }
  split; [by apply Hwrite|]. split; [by apply Hwrite|].
  rewrite ReadRecord_field_slice by done. unfold Strings.Split.
  destruct (decide (Tag_Get (Tag field) separatorTag = "")) as [Hsep|Hsep].
  - done.
  - cbn [strlen String.length Strings.genSplit_loop ReadRecord_slice].
    by rewrite Sscanf_v_empty_scalar.
Qed.

End SliceCells.

(** ** Types without a case in the scanner *)
Section NotScanned.
Context `{TimeLib} `{!FmtLib}.
Local Open Scope Z_scope.

Lemma SkipSpace_loop_error (l : list Z) (e : error) :
  SkipSpace_loop l = Err e → e = errorString "unexpected newline".
Proof.
  induction l as [|r l IH]; [done|]. cbn [SkipSpace_loop].
  destruct ((r =? 0x0D) && _); [done|].
  destruct (r =? 0x0A); [by intros [= <-]|].
  by destruct (negb (isSpace r)).
Qed.

(** A slice behind a pointer is not read back, whatever was written for
    it: after the pointer step the kind looked at is still that of the
    pointer, so the slice branch is not taken, and [Sscanf] has no case
    for a slice other than of bytes. *)
Lemma pointer_to_slice_is_not_read_back (field : StructField)
    (elemType : Type_) (value : string) (fieldValue : Value) :
  Type_Kind (Typ field) = Kind.Ptr →
  Underlying (Type_Elem (Typ field)) = SliceOf elemType →
  Type_Kind elemType ≠ Kind.Uint8 →
  UnmarshalText (Type_Methods (Type_Elem (Typ field))) = None →
  Tag_Lookup (Tag field) nullTag ≠ Some value →
  ∃ v err, ReadRecord_field field value fieldValue = (v, Some err).
Proof.
  intros Hkind Ht Helem Hu Hnull. unfold ReadRecord_field.
  rewrite Hkind. cbn [Kind.eqb].
  assert (Hno : match Tag_Lookup (Tag field) nullTag with
                | Some nullTagValue => bool_decide (value = nullTagValue)
                | None => false
                end = false).
  { destruct (Tag_Lookup (Tag field) nullTag) as [token|]; [|done].
    apply bool_decide_eq_false_2. congruence. }
  rewrite Hno. unfold ReadRecord_value.
  rewrite (slice_not_time _ _ Ht), Hu. cbn [andb Kind.eqb].
  unfold Sscanf_v, SkipSpace. cbn [rs buf].
  destruct (SkipSpace_loop (utf8.runes value)) as [l|e] eqn:Hskip.
  - unfold scanOne. rewrite Ht, (Kind_eqb_ne _ _ Helem). cbn [negb].
    by eexists _, _.
  - apply SkipSpace_loop_error in Hskip as ->. by eexists _, _.
Qed.

(** X16. A map field is never decoded: whatever its cell holds, the
    empty cell too, the body of the loop returns a [FieldParseError] for
    the column, from the scanner that has no case for the type (or that
    has met a line feed first), and the field keeps the value it had. *)
Theorem map_field_is_never_decoded (field : StructField) (key elem : Type_)
    (value : string) (fieldValue : Value) :
  Underlying (Typ field) = MapOf key elem →
  UnmarshalText (Type_Methods (Typ field)) = None →
  ∃ nested,
    ReadRecord_field field value fieldValue
    = (fieldValue, Some (FieldParseError (columnName field) nested))
    ∧ (nested = cantScan (Typ field)
       ∨ nested = errorString "unexpected newline").
Proof.
  intros Ht Hno.
  assert (Hdefault : scannedByDefault field).
  { unfold scannedByDefault, ConvertibleTo_timeType.
    rewrite <- (Type_Kind_Underlying (Typ field)), Ht. done. }
  rewrite ReadRecord_field_default by done.
  unfold Sscanf_v, SkipSpace. cbn [rs buf].
  destruct (SkipSpace_loop (utf8.runes value)) as [l|e] eqn:Hskip.
  - unfold scanOne. rewrite Ht. exists (cantScan (Typ field)).
    split; [done|by left].
  - apply SkipSpace_loop_error in Hskip as ->.
    exists (errorString "unexpected newline"). split; [done|by right].
Qed.

End NotScanned.

(** ** Time fields *)
Section EmptyLayout.
Context `{TimeLib} `{!FmtLib}.

(** X23. The two loops do not agree on an empty [time_format] tag: the
    writer finds the tag and formats the time with the empty layout,
    while the reader takes the tag for missing and hands the cell to
    [UnmarshalText]. *)
Theorem empty_time_format_is_written_but_not_read (field : StructField)
    (tv : Time) (value : string) (fieldValue : Value) :
  Typ field = timeType →
  Tag_Lookup (Tag field) timeFormatTag = Some "" →
  Tag_Lookup (Tag field) timeLocationTag = None →
  WriteRecord_field field (VTime tv) = Ok (Format tv "")
  ∧ ReadRecord_field field value fieldValue
    = match Time_UnmarshalText value with
      | Ok t => (VTime t, None)
      | Err err => (fieldValue, Some (FieldParseError (columnName field) err))
      end.
Proof.
  intros Ht Hformat Hlocation. split.
  - unfold WriteRecord_field, WriteRecord_value. rewrite Ht. cbn.
    by rewrite Hformat, Hlocation.
  - unfold ReadRecord_field, ReadRecord_value, Tag_Get.
    rewrite Ht, Hformat. cbn. fold (columnName field).
    by destruct (Time_UnmarshalText value).
Qed.

End EmptyLayout.

(** ** Slices without separator *)
Section NoSeparator.
Context `{TimeLib} `{!FmtLib}.
Local Open Scope Z_scope.

(** The bytes of a valid encoding, taken alone, are decoded alike. *)
Lemma DecodeRune_take (p : list Z) (r : Z) (n : nat) :
  utf8.DecodeRune p = (r, n) →
  (r =? utf8.RuneError) && (n =? 1)%nat = false →
  p ≠ [] →
  utf8.DecodeRune (take n p) = (r, n) ∧ length (take n p) = n.
Proof.
  intros Hdec Hbad Hne. destruct p as [|p0 t]; [done|]. clear Hne.
  revert Hdec. unfold utf8.DecodeRune at 1.
  assert (Hno : ∀ P : Prop, (utf8.RuneError, 1%nat) = (r, n) → P).
  { intros P [= <- <-]. done. }
  destruct (p0 <? 0x80) eqn:H1.
  { intros [= <- <-]. cbn [take utf8.DecodeRune]. by rewrite H1. }
  destruct ((p0 <? 0xC2) || (0xF4 <? p0)) eqn:H2; [by apply Hno|].
  destruct (p0 <? 0xE0) eqn:H3.
  { destruct t as [|b1 t]; [by apply Hno|].
    destruct (utf8.cont 0x80 0xBF b1) eqn:Hb1; [|by apply Hno].
    intros [= <- <-]. cbn [take utf8.DecodeRune].
    by rewrite H1, H2, H3, Hb1. }
  destruct (p0 <? 0xF0) eqn:H4.
  { destruct t as [|b1 [|b2 t]]; [by apply Hno..|].
    destruct (utf8.cont _ _ b1 && utf8.cont _ _ b2) eqn:Hb; [|by apply Hno].
    intros [= <- <-]. cbn [take utf8.DecodeRune].
    by rewrite H1, H2, H3, H4, Hb. }
  destruct t as [|b1 [|b2 [|b3 t]]]; [by apply Hno..|].
  destruct (utf8.cont _ _ b1 && utf8.cont _ _ b2 && utf8.cont _ _ b3) eqn:Hb;
    [|by apply Hno].
  intros [= <- <-]. cbn [take utf8.DecodeRune].
  by rewrite H1, H2, H3, H4, Hb.
Qed.

(** One rune that is no white space, in its encoding, is a word. *)
Lemma isWord_chunk (p : list Z) (r : Z) (n : nat) :
  Forall (λ b, 0 ≤ b < 256) p →
  utf8.DecodeRune p = (r, n) →
  (r =? utf8.RuneError) && (n =? 1)%nat = false →
  p ≠ [] → notSpace r = true →
  isWord (string_of (take n p)) ∧ string_of (take n p) ≠ "".
Proof.
  intros Hp Hdec Hbad Hne Hr.
  destruct (DecodeRune_take p r n Hdec Hbad Hne) as [Htake Hlen].
  destruct (DecodeRune_app p [] r n Hdec Hbad Hne) as [_ Hn].
  assert (Hbytes : bytes_of (string_of (take n p)) = take n p).
  { apply bytes_of_string_of. by apply Forall_take. }
  revert Htake Hlen Hbytes. generalize (take n p). intros c Hc Hlen Hbytes.
  destruct c as [|c0 l]; [simpl in Hlen; lia|]. split; [|done].
  assert (Hdrop : drop n (c0 :: l) = []) by (apply drop_ge; lia).
  unfold isWord, utf8.ValidString, utf8.runes, utf8.chunks.
  rewrite Hbytes, Hlen. destruct n as [|n]; [lia|].
  cbn [utf8.ValidString_go utf8.chunks_go]. rewrite Hc, Hbad, Hdrop.
  split; [by destruct n|].
  destruct n; cbn [utf8.chunks_go fmap list_fmap fst forallb];
    by rewrite Hr.
Qed.

(** The pieces of a word without separator are scanned one by one,
    each as it stands. *)
Lemma explode_scanned (t : Type_) (fuel : nat) (p : list Z) :
  Underlying t = TString →
  Forall (λ b, 0 ≤ b < 256) p → (length p ≤ fuel)%nat →
  utf8.ValidString_go fuel p = true →
  forallb notSpace (utf8.chunks_go fuel p).*1 = true →
  Forall2 (λ item v, Sscanf_v item t = Ok v)
          (string_of <$> (utf8.chunks_go fuel p).*2)
          (VString <$> (string_of <$> (utf8.chunks_go fuel p).*2)).
Proof.
  intros Ht. revert p. induction fuel as [|fuel IH]; intros p Hp Hfuel.
  - intros _ _. constructor.
  - destruct p as [|p0 l]; [intros _ _; constructor|].
    cbn [utf8.ValidString_go utf8.chunks_go].
    destruct (utf8.DecodeRune (p0 :: l)) as [r n] eqn:Hdec.
    destruct ((r =? utf8.RuneError) && (n =? 1)%nat) eqn:Hbad; [done|].
    destruct (DecodeRune_app (p0 :: l) [] r n Hdec Hbad ltac:(done))
      as [_ Hn].
    intros Hvalid Hspace. cbn [fmap list_fmap fst snd forallb] in *.
    apply andb_true_iff in Hspace as [Hr Hrest].
    destruct (isWord_chunk (p0 :: l) r n Hp Hdec Hbad ltac:(done) Hr)
      as [Hword Hne].
    constructor.
    + by apply Sscanf_v_word.
    + apply IH; [by apply Forall_drop| |done|done].
      rewrite length_drop. simpl in *. lia.
Qed.

(** X17. Without a [separator] tag the cell of a slice of strings is
    split into its runes: for a cell that is a word, the field gets one
    element for each rune of the cell, the rune as a string. *)
Theorem slice_without_separator_is_split_into_runes (field : StructField)
    (value : string) (fieldValue : Value) :
  Type_Kind (Typ field) = Kind.Slice →
  UnmarshalText (Type_Methods (Typ field)) = None →
  Underlying (Type_Elem (Typ field)) = TString →
  Tag_Get (Tag field) separatorTag = "" →
  isWord value →
  ReadRecord_field field value fieldValue
  = (VSlice (Some (VString <$> Strings.explode value)), None).
Proof.
  intros Hkind Hno Helem Hsep [Hvalid Hspace].
  rewrite ReadRecord_field_slice by done.
  rewrite Hsep. unfold Strings.Split. rewrite decide_True by done.
  rewrite (ReadRecord_slice_all _ _ _ (VString <$> Strings.explode value));
    [done|].
  apply explode_scanned; [done|apply bytes_of_bytes|lia|done|done].
Qed.

End NoSeparator.

(** * The properties on the records of the tests *)
Module cases.
Import testdata.

Lemma ReadHeader_last_write_wins_witness :
  csv.pending (Reader (readerOf [repeated])) = [inl repeated]
  ∧ ∃ index : gmap string nat,
      ReadHeader (readerOf [repeated])
        = ({| Reader := {| csv.pending := [] |}; Header := Some index |}, None)
      ∧ index !! "name" = Some 2%nat
      ∧ index !! "age" = Some 1%nat
      ∧ index !! "name" ≠ Some 0%nat.
Proof.
  split; [reflexivity|].
  destruct (ReadHeader_last_write_wins (readerOf [repeated]) repeated []
              eq_refl) as (index & Hread & Hiff & Hlater).
  exists index. split; [exact Hread|]. split; [|split].
  - apply Hiff. split; [reflexivity|]. intros [|[|[|k]]] Hk; try lia; done.
  - apply Hiff. split; [reflexivity|]. intros [|[|[|k]]] Hk; try lia; done.
  - apply (Hlater "name" 0%nat 2%nat); [lia|reflexivity|reflexivity].
Defined.

Lemma ReadRecord_before_header_consumes_nothing_witness :
  Header (readerOf [personHeader]) = None
  ∧ ReadRecord Person (readerOf [personHeader])
    = (readerOf [personHeader], Return (None, Some ErrHeaderNotRead)).
Proof.
  split; [reflexivity|].
  destruct (ReadRecord_before_header_consumes_nothing Person
              (readerOf [personHeader])
              (ReadRecord Person (readerOf [personHeader])).1
              (ReadRecord Person (readerOf [personHeader])).2
              eq_refl eq_refl) as (Hres & _ & _ & Hr).
  rewrite (surjective_pairing (ReadRecord Person (readerOf [personHeader]))).
  by rewrite Hres, Hr.
Defined.

Lemma header_required_then_decodes_witness :
  Header (readerOf [["name"; "age"]; ["John"; "55"]]) = None
  ∧ ReadAll Person (readerOf [["name"; "age"]; ["John"; "55"]])
    = Some (readerOf [["name"; "age"]; ["John"; "55"]],
            Return ([], Some ErrHeaderNotRead))
  ∧ ∃ r', ReadHeader (readerOf [["name"; "age"]; ["John"; "55"]]) = (r', None)
      ∧ (ReadRecord Person r').2 = Return (Some john, None).
Proof.
  split; [reflexivity|].
  destruct (header_required_then_decodes Person
              (readerOf [["name"; "age"]; ["John"; "55"]]) eq_refl)
    as (_ & Hall & _ & Hafter).
  split; [exact Hall|].
  eexists. split; [reflexivity|].
  destruct (Hafter _ eq_refl) as (index & Hidx & Hdecode & _).
  injection Hidx as <-.
  rewrite (Hdecode ["John"; "55"] [] eq_refl). vm_compute. reflexivity.
Defined.

(** C1 fails as stated: the record of [OptionalTestRecord] with three
    nil pointers is written as the cells [""], [""] and ["NULL"]; read
    back, the first field, which declares no null token, is a pointer to
    the empty string. *)
Lemma round_trip_loses_nil_without_null_token :
  ∃ (w1 w2 : TypedCSVWriter) (r1 r2 : TypedCSVReader),
    WriteHeader OptionalTestRecord emptyWriter = (w1, None)
    ∧ WriteRecord OptionalTestRecord w1 [VPtr None; VPtr None; VPtr None]
      = (w2, None)
    ∧ csv.rows (Writer w2)
      = [["optional_string"; "optional_string_with_empty_tag";
          "optional_time"]; [""; ""; "NULL"]]
    ∧ ReadHeader (readerOf (csv.rows (Writer w2))) = (r1, None)
    ∧ ReadRecord OptionalTestRecord r1
      = (r2, Return (Some [VPtr (Some (VString "")); VPtr None; VPtr None],
                     None))
    ∧ [VPtr (Some (VString "")); VPtr None; VPtr None]
      ≠ [VPtr None; VPtr None; VPtr None].
Proof.
  do 4 eexists. split; [reflexivity|]. split; [reflexivity|].
  split; [reflexivity|]. split; [reflexivity|]. split; [reflexivity|].
  discriminate.
Qed.

(** Disjointness can be checked by computation. *)
Lemma disjointBytes_check (text sep : string) :
  forallb (λ b, negb (existsb (Z.eqb b) (bytes_of sep))) (bytes_of text) = true →
  disjointBytes text sep.
Proof.
  intros Hall b Hb Hsep. apply list_elem_of_In in Hb, Hsep.
  pose proof (proj1 (forallb_forall _ _) Hall b Hb) as Hneg.
  apply negb_true_iff in Hneg.
  assert (existsb (Z.eqb b) (bytes_of sep) = true); [|congruence].
  apply existsb_exists. exists b. split; [done|]. apply Z.eqb_refl.
Qed.

Lemma write_then_read_round_trip_witness :
  ∃ (cells : list string) (w1 w2 : TypedCSVWriter) (r1 : TypedCSVReader),
    WriteHeader Inventory (NewWriter {| csv.rows := []; csv.werr := None |})
    = (w1, None)
    ∧ WriteRecord Inventory w1 widget = (w2, None)
    ∧ csv.rows (Writer w2) = [columnNames Inventory; cells]
    ∧ ReadHeader (NewReader {| csv.pending := inl <$> csv.rows (Writer w2) |})
      = (r1, None)
    ∧ ReadRecord Inventory r1
      = ({| Reader := {| csv.pending := [] |}; Header := Header r1 |},
         Return (Some widget, None)).
Proof.
  apply (write_then_read_round_trip Inventory widget).
  - refine (bool_decide_unpack _ _). vm_compute. exact I.
  - unfold recordRoundTrips, Inventory, widget.
    repeat (apply Forall2_cons; split); [..|apply Forall2_nil_2].
    + apply (fr_direct _ _ "widget"); [done|].
      apply vt_scalar; [done..|]. apply st_string; [done|].
      done.
    + apply (fr_direct _ _ (strconv.FormatInt (-42))); [done|].
      apply vt_scalar; [done..|]. apply (st_int _ KInt32); [done|].
      cbn [IntKind_Bits]. lia.
    + apply (fr_direct _ _ (strconv.FormatUint 18446744073709551615)); [done|].
      apply vt_scalar; [done..|]. apply (st_uint _ KUint); [done|].
      cbn [UintKind_Bits]. lia.
    + apply (fr_direct _ _ "true"); [done|].
      apply vt_scalar; [done..|]. by apply (st_bool _ true).
    + apply (fr_direct _ _ (joined ";" ["a"; "b"])); [done|].
      apply (vt_slice _ _ _ TString ";" _ ["a"; "b"]); try done.
      repeat (apply Forall2_cons; split); [..|apply Forall2_nil_2].
      * split; [apply st_string; [done|done]|].
        split; [done|by apply disjointBytes_check].
      * split; [apply st_string; [done|done]|].
        split; [done|by apply disjointBytes_check].
    + by apply (fr_nil _ "NULL").
    + apply (fr_pointer _ _ "me"); [done| |done].
      apply vt_scalar; [done..|]. apply st_string; [done|].
      done.
    + apply (fr_direct _ _ "active"); [done|]. by eapply vt_hooks.
    + done.
Defined.

(** C2 fails as stated: with one good row before a bad one, [ReadAll]
    returns the error together with the record decoded before it. *)
Lemma ReadAll_returns_partial_collection :
  ∃ (r1 r2 : TypedCSVReader),
    ReadHeader (readerOf [["name"; "age"]; ["John"; "55"]; ["Mary"; "abc"]])
    = (r1, None)
    ∧ ReadAll Person r1
      = Some (r2, Return ([Some john],
                          Some (FieldParseError "age"
                                  (errorString "expected integer"))))
    ∧ [Some john] ≠ [].
Proof.
  do 2 eexists. split; [reflexivity|]. split; [vm_compute; reflexivity|].
  discriminate.
Qed.

Lemma ReadAll_returns_records_so_far_witness :
  Forall2 (λ values record,
             ReadRecord_loop (ReadHeader_loop ∅ 0 ["name"; "age"]) values
                             Person 0 (new Person) = Return (record, None))
          [["John"; "55"]] [john]
  ∧ ReadAll Person
      {| Reader := {| csv.pending := [inl ["John"; "55"];
                                      inl ["Mary"; "abc"]] |};
         Header := Some (ReadHeader_loop ∅ 0 ["name"; "age"]) |}
    = Some ({| Reader := {| csv.pending := [] |};
               Header := Some (ReadHeader_loop ∅ 0 ["name"; "age"]) |},
            Return ([Some john],
                    Some (FieldParseError "age"
                            (errorString "expected integer")))).
Proof.
  assert (Hgood :
    Forall2 (λ values record,
               ReadRecord_loop (ReadHeader_loop ∅ 0 ["name"; "age"]) values
                               Person 0 (new Person) = Return (record, None))
            [["John"; "55"]] [john]).
  { constructor; [vm_compute; reflexivity|constructor]. }
  split; [exact Hgood|].
  destruct (ReadAll_returns_records_so_far Person
              (ReadHeader_loop ∅ 0 ["name"; "age"]) [["John"; "55"]] [john]
              [inl ["Mary"; "abc"]] Hgood) as (_ & _ & Herr & _).
  eapply Herr; [vm_compute; reflexivity|discriminate].
Defined.

(** C3 fails on the code: in a slice field with separator [;] the
    empty piece of ["a;;c"] makes [ReadRecord] return a
    [FieldParseError] for [slice[1]] with cause [io.EOF]; the same empty
    text in a string field is read as the zero value. *)
Theorem slice_empty_piece_is_an_error :
  ∃ (r1 r2 : TypedCSVReader),
    ReadHeader (readerOf [["slice"]; ["a;;c"]]) = (r1, None)
    ∧ ReadRecord SliceTestRecord r1
      = (r2, Return (Some [VSlice None; VSlice None; VSlice None],
                     Some (FieldParseError "slice[1]" EOF)))
    ∧ ReadRecord_field (exported "Name" TString [("csv", "name")]) ""
                       (VString "")
      = (VString "", None).
Proof.
  do 2 eexists. split; [reflexivity|]. split; [vm_compute; reflexivity|].
  reflexivity.
Qed.

(** The birthday of a [Person] when the header has no such column. *)
Lemma absent_column_left_zero_witness :
  let r := (ReadHeader (readerOf [["name"]; ["John"]])).1 in
  let Birthday := exported "Birthday" timeType
                    [("csv", "birthday"); ("time_format", "2006-01-02")] in
  Header r = Some (ReadHeader_loop ∅ 0 ["name"])
  ∧ ReadHeader_loop ∅ 0 ["name"] !! columnName Birthday = None
  ∧ ∀ r' record err,
      ReadRecord Person r = (r', Return (Some record, err)) →
      record !! 1%nat = Some (VTime zeroTime).
Proof.
  intros r Birthday. split; [reflexivity|]. split; [reflexivity|].
  exact (proj2 (absent_column_left_zero r (ReadHeader_loop ∅ 0 ["name"])
                  [exported "Name" TString [("csv", "name")]]
                  (drop 2 Person) Birthday eq_refl eq_refl)).
Defined.

(** The age of a [Person]. *)
Lemma numeric_empty_is_zero_abc_is_error_witness :
  isNumeric (TUint KUint8) = true
  ∧ (∀ fieldValue,
       ReadRecord_field (exported "Age" (TUint KUint8) [("csv", "age")]) ""
                        fieldValue = (VUint 0, None))
  ∧ (∀ fieldValue, ∃ cause,
       ReadRecord_field (exported "Age" (TUint KUint8) [("csv", "age")]) "abc"
                        fieldValue
       = (fieldValue, Some (FieldParseError "age" cause))).
Proof.
  split; [reflexivity|].
  destruct (numeric_empty_is_zero_abc_is_error
              (exported "Age" (TUint KUint8) [("csv", "age")])
              eq_refl eq_refl) as (Hempty & Habc & _).
  - intros bits. eexists. split; [reflexivity|discriminate].
  - split; [exact Hempty|exact Habc].
Defined.

Lemma WriteHeader_then_ReadHeader_witness :
  csv.werr (Writer emptyWriter) = None
  ∧ WriteHeader Person emptyWriter
    = ({| Writer := {| csv.rows := [personHeader]; csv.werr := None |} |}, None)
  ∧ ∃ index : gmap string nat,
      ReadHeader (readerOf [personHeader])
      = ({| Reader := {| csv.pending := [] |}; Header := Some index |}, None)
      ∧ index !! "name" = Some 0%nat
      ∧ index !! "optional" = Some 7%nat.
Proof.
  split; [reflexivity|].
  destruct (WriteHeader_then_ReadHeader Person emptyWriter eq_refl)
    as [Hwrite Hread].
  split; [exact Hwrite|].
  destruct (Hread (readerOf [personHeader]) [] eq_refl)
    as (index & Hheader & _ & _ & Hpos).
  exists index. split; [exact Hheader|].
  assert (Hnodup : NoDup (columnNames Person)).
  { refine (bool_decide_unpack _ _). vm_compute. exact I. }
  split; apply (Hpos Hnodup); reflexivity.
Defined.

(** The optional field of a [Person] and its null token. *)
Lemma null_token_decodes_nil_encodes_token_witness :
  Tag_Lookup [("csv", "optional"); ("null", "NULL")] nullTag = Some "NULL"
  ∧ (∀ fieldValue,
       ReadRecord_field (exported "Optional" (PtrTo TString)
                           [("csv", "optional"); ("null", "NULL")])
                        "NULL" fieldValue = (VPtr None, None))
  ∧ WriteRecord_field (exported "Optional" (PtrTo TString)
                         [("csv", "optional"); ("null", "NULL")])
                      (VPtr None) = Ok "NULL".
Proof.
  split; [reflexivity|].
  destruct (null_token_decodes_nil_encodes_token
              (exported "Optional" (PtrTo TString)
                 [("csv", "optional"); ("null", "NULL")])
              "NULL" eq_refl eq_refl) as (Hread & Hwrite & _).
  split; [exact Hread|exact Hwrite].
Defined.

(** ** Further properties, on the same records *)

(** [abc] in the column of the age. *)
Lemma ReadRecord_errors_classified_witness :
  ∃ r' record err,
    ReadRecord Person (ReadHeader (readerOf [["age"]; ["abc"]])).1
    = (r', Return (record, Some err))
    ∧ err = FieldParseError "age" (errorString "expected integer")
    ∧ ((Header (ReadHeader (readerOf [["age"]; ["abc"]])).1 = None
        ∧ err = ErrHeaderNotRead ∧ record = None
        ∧ r' = (ReadHeader (readerOf [["age"]; ["abc"]])).1)
       ∨ (is_Some (Header (ReadHeader (readerOf [["age"]; ["abc"]])).1)
          ∧ (csv.Read
               (Reader (ReadHeader (readerOf [["age"]; ["abc"]])).1)).2
            = Err err
          ∧ record = None)
       ∨ (∃ index field,
            Header (ReadHeader (readerOf [["age"]; ["abc"]])).1 = Some index
            ∧ field ∈ Person ∧ isValidCSVField field = true
            ∧ is_Some (index !! columnName field) ∧ is_Some record
            ∧ ((∃ nested, err = FieldParseError (columnName field) nested)
               ∨ (Type_Kind (Typ field) = Kind.Slice
                  ∧ ∃ k nested,
                      err = FieldParseError
                              (indexedName (columnName field) k) nested)))).
Proof.
  eexists _, _, _. split; [vm_compute; reflexivity|]. split; [reflexivity|].
  apply (ReadRecord_errors_classified Person). vm_compute. reflexivity.
Defined.

(** A row with one cell more than the header. *)
Lemma ReadRecord_full_row_returns_witness :
  csv.pending (Reader (readerOf [["name"]; ["John"; "55"]]))
  = [inl ["name"]; inl ["John"; "55"]]
  ∧ (length ["name"] ≤ length ["John"; "55"])%nat
  ∧ ∃ r1 record err,
      ReadHeader (readerOf [["name"]; ["John"; "55"]]) = (r1, None)
      ∧ ReadRecord Person r1 =
          ({| Reader := {| csv.pending := [] |}; Header := Header r1 |},
           Return (Some record, err)).
Proof.
  split; [reflexivity|]. split; [simpl; lia|].
  apply (ReadRecord_full_row_returns Person _ ["name"] ["John"; "55"] []);
    [reflexivity|simpl; lia].
Defined.

(** A row that has no cell for the age. *)
Lemma ReadRecord_short_row_panics_witness :
  ReadHeader_loop ∅ 0 ["name"; "age"] !! "age" = Some 1%nat
  ∧ (length ["John"] ≤ 1)%nat
  ∧ ReadRecord Person
      {| Reader := {| csv.pending := [inl ["John"]] |};
         Header := Some (ReadHeader_loop ∅ 0 ["name"; "age"]) |}
    = ({| Reader := {| csv.pending := [] |};
          Header := Some (ReadHeader_loop ∅ 0 ["name"; "age"]) |},
       Panic "index out of range").
Proof.
  split; [reflexivity|]. split; [simpl; lia|].
  apply (ReadRecord_short_row_panics Person _ _ ["John"] [] (take 2 Person)
           (drop 3 Person) (exported "Age" (TUint KUint8) [("csv", "age")])
           1%nat);
    [reflexivity|reflexivity|reflexivity| |reflexivity|reflexivity
    |simpl; lia].
  intros record1 err Hloop. vm_compute in Hloop. congruence.
Defined.

(** [abc] in the column of the age, before a cell that would decode. *)
Lemma ReadRecord_stops_at_first_error_witness :
  ∃ r' record err,
    ReadRecord Person
      (ReadHeader (readerOf [["name"; "age"; "active"];
                             ["John"; "abc"; "true"]])).1
    = (r', Return (Some record, Some err))
    ∧ record !! 0%nat = Some (VString "John")
    ∧ record !! 4%nat = Some (VBool false)
    ∧ ∃ index values pre field post position value v record1,
        Header (ReadHeader (readerOf [["name"; "age"; "active"];
                                      ["John"; "abc"; "true"]])).1
        = Some index
        ∧ (csv.Read
             (Reader (ReadHeader (readerOf [["name"; "age"; "active"];
                                            ["John"; "abc"; "true"]])).1)).2
          = Ok values
        ∧ Person = pre ++ field :: post
        ∧ isValidCSVField field = true
        ∧ index !! columnName field = Some position
        ∧ values !! position = Some value
        ∧ ReadRecord_loop index values pre 0 (new Person)
          = Return (record1, None)
        ∧ ReadRecord_field field value (Zero (Typ field)) = (v, Some err)
        ∧ record = <[length pre := v]> record1
        ∧ (∀ j f, post !! j = Some f →
             record !! (length pre + S j)%nat = Some (Zero (Typ f))).
Proof.
  eexists _, _, _. split; [vm_compute; reflexivity|].
  split; [reflexivity|]. split; [reflexivity|].
  eapply (ReadRecord_stops_at_first_error Person). vm_compute. reflexivity.
Defined.

(** The field [Skipped] of a [Person], which has no tag. *)
Lemma ReadRecord_leaves_other_fields_zero_witness :
  ∃ r' record err,
    ReadRecord Person (ReadHeader (readerOf [["name"]; ["John"]])).1
    = (r', Return (Some record, err))
    ∧ Person !! 8%nat = Some (exported "Skipped" TString [])
    ∧ isValidCSVField (exported "Skipped" TString []) = false
    ∧ record !! 8%nat = Some (VString "").
Proof.
  eexists _, _, _. split; [vm_compute; reflexivity|].
  split; [reflexivity|]. split; [reflexivity|].
  eapply (ReadRecord_leaves_other_fields_zero Person
           (ReadHeader (readerOf [["name"]; ["John"]])).1 _ _ _ 8
           (exported "Skipped" TString []));
    [vm_compute; reflexivity|reflexivity|reflexivity].
Defined.

(** The optional string of a [Person], whose null token is [NULL]. *)
Lemma pointer_is_nil_only_for_null_token_witness :
  Type_Kind (PtrTo TString) = Kind.Ptr
  ∧ ReadRecord_field
      (exported "Optional" (PtrTo TString)
                [("csv", "optional"); ("null", "NULL")])
      "NULL" (VPtr None)
    = (VPtr None, None)
  ∧ Tag_Lookup [("csv", "optional"); ("null", "NULL")] nullTag = Some "NULL".
Proof.
  split; [reflexivity|]. split; [reflexivity|].
  apply (pointer_is_nil_only_for_null_token
           (exported "Optional" (PtrTo TString)
                     [("csv", "optional"); ("null", "NULL")])
           "NULL" (VPtr None) None); reflexivity.
Defined.

(** A slice of numbers whose second piece is no number. *)
Lemma slice_cell_fails_at_first_bad_piece_witness :
  Type_Kind (SliceOf (TUint KUint8)) = Kind.Slice
  ∧ ReadRecord_field
      (exported "Sizes" (SliceOf (TUint KUint8))
                [("csv", "sizes"); ("separator", ";")])
      "1;x;3" (VSlice None)
    = (VSlice None,
       Some (FieldParseError "sizes[1]" (errorString "expected integer"))).
Proof.
  split; [reflexivity|].
  destruct (slice_cell_fails_at_first_bad_piece
              (exported "Sizes" (SliceOf (TUint KUint8))
                        [("csv", "sizes"); ("separator", ";")])
              "1;x;3" (VSlice None) eq_refl eq_refl) as [_ Hfirst].
  apply (Hfirst ["1"] [VUint 1] "x" ["3"] (errorString "expected integer")).
  - vm_compute. reflexivity.
  - repeat constructor.
  - vm_compute. reflexivity.
Defined.

(** The first field of a [SliceTestRecord]. *)
Lemma empty_slice_is_not_read_back_witness :
  Type_Kind (SliceOf TString) = Kind.Slice
  ∧ WriteRecord_field
      (exported "Slice" (SliceOf TString) [("csv", "slice"); ("separator", ";")])
      (VSlice None) = Ok ""
  ∧ WriteRecord_field
      (exported "Slice" (SliceOf TString) [("csv", "slice"); ("separator", ";")])
      (VSlice (Some [])) = Ok ""
  ∧ ReadRecord_field
      (exported "Slice" (SliceOf TString) [("csv", "slice"); ("separator", ";")])
      "" (VSlice None)
    = (VSlice None, Some (FieldParseError "slice[0]" EOF)).
Proof.
  split; [reflexivity|].
  exact (empty_slice_is_not_read_back
           (exported "Slice" (SliceOf TString)
                     [("csv", "slice"); ("separator", ";")])
           (VSlice None) eq_refl eq_refl eq_refl I).
Defined.

(** A name and a surname in the cell of the name. *)
Lemma string_cell_is_cut_at_white_space_witness :
  isWord "John" ∧ "John" ≠ ""
  ∧ endsWord (utf8.runes " Smith") = true
  ∧ ReadRecord_field (exported "Name" TString [("csv", "name")])
                     "John Smith" (VString "")
    = (VString "John", None).
Proof.
  split; [by split|]. split; [done|]. split; [reflexivity|].
  apply (string_cell_is_cut_at_white_space
           (exported "Name" TString [("csv", "name")]) "John" " Smith"
           (VString "")); [reflexivity|reflexivity|by split|done|reflexivity].
Defined.

(** [yes] in the cell of a boolean. *)
Lemma bool_cell_is_decided_by_first_rune_witness :
  utf8.runes "yes" = [121; 101; 115]%Z
  ∧ isSpace 121 = false
  ∧ endsBefore "rRaA" [101; 115]%Z = true
  ∧ ReadRecord_field (exported "Active" TBool [("csv", "active")])
                     "yes" (VBool true)
    = (VBool false, None).
Proof.
  split; [reflexivity|]. split; [reflexivity|]. split; [reflexivity|].
  apply (bool_cell_is_decided_by_first_rune
           (exported "Active" TBool [("csv", "active")]) "yes" 121
           [101; 115]%Z (VBool true)); reflexivity.
Defined.

(** An age with its unit. *)
Lemma integer_cell_is_read_up_to_first_other_rune_witness :
  integer (TUint KUint8) 55 = Some (VUint 55)
  ∧ endsBefore "0123456789_bBoOxX" (utf8.runes " years") = true
  ∧ ReadRecord_field (exported "Age" (TUint KUint8) [("csv", "age")])
                     "55 years" (VUint 0)
    = (VUint 55, None).
Proof.
  split; [reflexivity|]. split; [reflexivity|].
  exact (integer_cell_is_read_up_to_first_other_rune
           (exported "Age" (TUint KUint8) [("csv", "age")]) 55 (VUint 55)
           " years" (VUint 0) eq_refl eq_refl eq_refl).
Defined.

(** [010] and [08] in the cell of an age. *)
Lemma leading_zero_is_read_as_octal_witness :
  integer (TUint KUint8) (octalValue [49; 48]%Z) = Some (VUint 8)
  ∧ ReadRecord_field (exported "Age" (TUint KUint8) [("csv", "age")])
                     "010" (VUint 0)
    = (VUint 8, None)
  ∧ ReadRecord_field (exported "Age" (TUint KUint8) [("csv", "age")])
                     "08" (VUint 0)
    = (VUint 0, None).
Proof.
  split; [reflexivity|]. split.
  - apply (leading_zero_is_read_as_octal
             (exported "Age" (TUint KUint8) [("csv", "age")]) [49; 48]%Z
             (VUint 8) "" (VUint 0));
      [repeat constructor; lia|reflexivity|reflexivity|reflexivity].
  - apply (leading_zero_is_read_as_octal
             (exported "Age" (TUint KUint8) [("csv", "age")]) [] (VUint 0)
             "8" (VUint 0));
      [constructor|reflexivity|reflexivity|reflexivity].
Defined.

(** An age of three hundred years. *)
Lemma unsigned_out_of_range_is_an_error_witness :
  ¬ (0 ≤ 300 < 2 ^ UintKind_Bits KUint8)%Z
  ∧ ReadRecord_field (exported "Age" (TUint KUint8) [("csv", "age")])
                     "300" (VUint 0)
    = (VUint 0,
       Some (FieldParseError "age"
               (errorString "unsigned integer overflow on token 300"))).
Proof.
  split; [cbn [UintKind_Bits]; lia|].
  apply (unsigned_out_of_range_is_an_error
           (exported "Age" (TUint KUint8) [("csv", "age")]) KUint8 300
           (VUint 0)); [reflexivity|reflexivity|lia|cbn [UintKind_Bits]; lia].
Defined.

(** A temperature below what eight bits hold. *)
Lemma signed_out_of_range_is_an_error_witness :
  ¬ (- 2 ^ (IntKind_Bits KInt8 - 1) ≤ -129 < 2 ^ (IntKind_Bits KInt8 - 1))%Z
  ∧ ReadRecord_field (exported "Degrees" (TInt KInt8) [("csv", "degrees")])
                     "-129" (VInt 0)
    = (VInt 0,
       Some (FieldParseError "degrees"
               (errorString "integer overflow on token -129"))).
Proof.
  split; [cbn [IntKind_Bits]; lia|].
  apply (signed_out_of_range_is_an_error
           (exported "Degrees" (TInt KInt8) [("csv", "degrees")]) KInt8
           (-129) (VInt 0));
    [reflexivity|reflexivity|lia|cbn [IntKind_Bits]; lia].
Defined.

(** A name on the second line of its cell. *)
Lemma cell_starting_with_newline_is_an_error_witness :
  scannedByDefault (exported "Name" TString [("csv", "name")])
  ∧ ReadRecord_field (exported "Name" TString [("csv", "name")])
                     (String "010" "John") (VString "")
    = (VString "",
       Some (FieldParseError "name" (errorString "unexpected newline"))).
Proof.
  assert (Hdefault : scannedByDefault
                       (exported "Name" TString [("csv", "name")])).
  { by repeat split. }
  split; [exact Hdefault|].
  exact (cell_starting_with_newline_is_an_error
           (exported "Name" TString [("csv", "name")]) "John" (VString "")
           Hdefault).
Defined.

(** The field of a [MapTestRecord]. *)
Lemma map_field_is_never_decoded_witness :
  Underlying (MapOf TString TString) = MapOf TString TString
  ∧ ∃ nested,
      ReadRecord_field (exported "Map" (MapOf TString TString) [("csv", "map")])
                       "1:2" (VMap None)
      = (VMap None, Some (FieldParseError "map" nested))
      ∧ (nested = cantScan (MapOf TString TString)
         ∨ nested = errorString "unexpected newline").
Proof.
  split; [reflexivity|].
  exact (map_field_is_never_decoded
           (exported "Map" (MapOf TString TString) [("csv", "map")])
           TString TString "1:2" (VMap None) eq_refl eq_refl).
Defined.

(** The third field of a [SliceTestRecord]. *)
Lemma slice_without_separator_is_split_into_runes_witness :
  Tag_Get [("csv", "slice_without_separator")] separatorTag = ""
  ∧ isWord "ghi"
  ∧ ReadRecord_field
      (exported "SliceWithoutSeparator" (SliceOf TString)
                [("csv", "slice_without_separator")])
      "ghi" (VSlice None)
    = (VSlice (Some [VString "g"; VString "h"; VString "i"]), None).
Proof.
  split; [reflexivity|]. split; [by split|].
  apply (slice_without_separator_is_split_into_runes
           (exported "SliceWithoutSeparator" (SliceOf TString)
                     [("csv", "slice_without_separator")])
           "ghi" (VSlice None));
    [reflexivity|reflexivity|reflexivity|reflexivity|by split].
Defined.

(** Two rows of which the second does not decode. *)
Lemma ReadAll_no_EOF_no_nil_witness :
  ∃ r' records err,
    ReadAll Person (ReadHeader (readerOf [["age"]; ["55"]; ["abc"]])).1
    = Some (r', Return (records, err))
    ∧ length records = 1%nat
    ∧ err ≠ Some EOF
    ∧ ∀ record, record ∈ records → is_Some record.
Proof.
  eexists _, _, _. split; [vm_compute; reflexivity|]. split; [reflexivity|].
  eapply (ReadAll_no_EOF_no_nil Person
            (ReadHeader (readerOf [["age"]; ["55"]; ["abc"]])).1).
  vm_compute. reflexivity.
Defined.

(** Rows with one cell more than the header, and the error of the
    tokenizer after them. *)
Lemma ReadAll_full_rows_returns_witness :
  (length ["name"] ≤ length ["John"; "55"])%nat
  ∧ ∃ r1 r2 records err,
      ReadHeader
        {| Reader := {| csv.pending := [inl ["name"]; inl ["John"; "55"];
                                        inr (errorString "bare quote")] |};
           Header := None |}
      = (r1, None)
      ∧ ReadAll Person r1 = Some (r2, Return (records, err)).
Proof.
  split; [simpl; lia|].
  apply (ReadAll_full_rows_returns Person _ ["name"]
           [inl ["John"; "55"]; inr (errorString "bare quote")]);
    [reflexivity|].
  repeat constructor; simpl; lia.
Defined.

(** The record [widget] of an [Inventory]. *)
Lemma WriteRecord_row_lines_up_with_header_witness :
  ∃ w',
    WriteRecord Inventory emptyWriter widget = (w', None)
    ∧ ∃ row,
        csv.rows (Writer w') = csv.rows (Writer emptyWriter) ++ [row]
        ∧ WriteHeader_loop Inventory []
          = (λ p, columnName p.2) <$> csvFields Inventory
        ∧ length row = length (WriteHeader_loop Inventory [])
        ∧ Forall2 (λ p cell,
                     WriteRecord_field p.2
                       (default (Zero (Typ p.2)) (widget !! p.1)) = Ok cell)
                  (csvFields Inventory) row.
Proof.
  eexists. split; [vm_compute; reflexivity|].
  apply (WriteRecord_row_lines_up_with_header Inventory emptyWriter).
  vm_compute. reflexivity.
Defined.

(** A [Person] whose status is none of the three. *)
Lemma WriteRecord_errors_classified_witness :
  WriteRecord Person emptyWriter (<[5%nat := VUint 7]> john)
  = (emptyWriter,
     Some (FieldFormatError "status" (errorString "unknown status")))
  ∧ ((emptyWriter = emptyWriter
      ∧ ∃ field nested,
          field ∈ Person ∧ isValidCSVField field = true
          ∧ FieldFormatError "status" (errorString "unknown status")
            = FieldFormatError (columnName field) nested)
     ∨ (∃ row,
          WriteRecord_loop Person 0 (<[5%nat := VUint 7]> john) [] = Ok row
          ∧ csv.Write (Writer emptyWriter) row
            = (Writer emptyWriter,
               Some (FieldFormatError "status"
                       (errorString "unknown status"))))).
Proof.
  assert (Hwrite : WriteRecord Person emptyWriter (<[5%nat := VUint 7]> john)
                   = (emptyWriter,
                      Some (FieldFormatError "status"
                              (errorString "unknown status")))).
  { vm_compute. reflexivity. }
  split; [exact Hwrite|].
  exact (WriteRecord_errors_classified Person emptyWriter emptyWriter
           (<[5%nat := VUint 7]> john) _ Hwrite).
Defined.

(** Two [Person]s that differ in the field [Skipped] only. *)
Lemma WriteRecord_ignores_other_fields_witness :
  john !! 8%nat ≠ (<[8%nat := VString "x"]> john) !! 8%nat
  ∧ WriteRecord Person emptyWriter john
    = WriteRecord Person emptyWriter (<[8%nat := VString "x"]> john).
Proof.
  split; [discriminate|].
  apply WriteRecord_ignores_other_fields.
  intros j field Hj Hvalid.
  destruct j as [|[|[|[|[|[|[|[|[|[|j]]]]]]]]]]; try reflexivity.
  injection Hj as <-. discriminate Hvalid.
Defined.

(** A time with an empty layout. *)
Lemma empty_time_format_is_written_but_not_read_witness :
  Tag_Lookup [("csv", "at"); ("time_format", "")] timeFormatTag = Some ""
  ∧ WriteRecord_field
      (exported "At" timeType [("csv", "at"); ("time_format", "")])
      (VTime 5%Z)
    = Ok (Format 5%Z "")
  ∧ ReadRecord_field
      (exported "At" timeType [("csv", "at"); ("time_format", "")])
      "" (VTime 0%Z)
    = match Time_UnmarshalText "" with
      | Ok t => (VTime t, None)
      | Err err => (VTime 0%Z, Some (FieldParseError "at" err))
      end.
Proof.
  split; [reflexivity|].
  exact (empty_time_format_is_written_but_not_read
           (exported "At" timeType [("csv", "at"); ("time_format", "")])
           5%Z "" (VTime 0%Z) eq_refl eq_refl eq_refl).
Defined.

(** Two records of a [MarshalTextTestRecord]. *)
Lemma write_records_then_ReadAll_witness :
  ∃ rows : list (list string),
    Forall2 (λ record row, ∀ w,
               csv.werr (Writer w) = None →
               WriteRecord MarshalTextTestRecord w record =
                 ({| Writer := {| csv.rows := csv.rows (Writer w) ++ [row];
                                  csv.werr := None |} |}, None))
            [[PersonStatusActive]; [PersonStatusInactive]] rows
    ∧ ∃ r1,
        ReadHeader (NewReader {| csv.pending :=
                      inl <$> columnNames MarshalTextTestRecord :: rows |})
        = (r1, None)
        ∧ ReadAll MarshalTextTestRecord r1
          = Some ({| Reader := {| csv.pending := [] |}; Header := Header r1 |},
                  Return (Some <$> [[PersonStatusActive];
                                    [PersonStatusInactive]], None)).
Proof.
  apply (write_records_then_ReadAll MarshalTextTestRecord
           [[PersonStatusActive]; [PersonStatusInactive]]).
  - refine (bool_decide_unpack _ _). vm_compute. exact I.
  - repeat constructor.
    + apply (fr_direct _ _ "active"); [done|]. by eapply vt_hooks.
    + apply (fr_direct _ _ "inactive"); [done|]. by eapply vt_hooks.
Defined.

(** A row with a name and an age. *)
Lemma ReadRecord_decodes_field_by_field_witness :
  ∃ r' record,
    ReadRecord Person (ReadHeader (readerOf [["name"; "age"]; ["John"; "55"]])).1
    = (r', Return (Some record, None))
    ∧ record !! 2%nat = Some (VUint 55)
    ∧ ∃ index values,
        Header (ReadHeader (readerOf [["name"; "age"]; ["John"; "55"]])).1
        = Some index
        ∧ (csv.Read
             (Reader (ReadHeader (readerOf [["name"; "age"];
                                            ["John"; "55"]])).1)).2
          = Ok values
        ∧ length record = length Person
        ∧ ∀ j field,
            Person !! j = Some field →
            match (if isValidCSVField field then index !! columnName field
                   else None) with
            | None => record !! j = Some (Zero (Typ field))
            | Some position =>
              ∃ value v,
                values !! position = Some value
                ∧ ReadRecord_field field value (Zero (Typ field)) = (v, None)
                ∧ record !! j = Some v
            end.
Proof.
  eexists _, _. split; [vm_compute; reflexivity|]. split; [reflexivity|].
  eapply (ReadRecord_decodes_field_by_field Person
            (ReadHeader (readerOf [["name"; "age"]; ["John"; "55"]])).1).
  vm_compute. reflexivity.
Defined.

End cases.
